(** * Aqua: configuration resolution, execution driver, QAOA and the ISRES optimizer

    A shallow embedding of
      - [qiskit_aqua/_aqua.py]  ([run_algorithm], [run_algorithm_to_json]),
      - [qiskit_aqua/algorithms/adaptive/qaoa/qaoa.py]  ([QAOA.CONFIGURATION],
        [QAOA.__init__], [QAOA.init_params]),
      - [qiskit_aqua/algorithms/components/optimizers/nlopts/isres.py]
        ([ISRES.CONFIGURATION], [check_pluggable_valid], [optimize]),
    together with the configuration resolver, the optimizer base class and the
    text form of a configuration, which are described from their contracts.

    Conventions.  A Python [dict] is an association list in insertion order
    whose keys are pairwise distinct; lookups return the first binding.  A
    Python exception is the [Err] branch of [Res].  Calls into collaborators
    are recorded in a trace of [Event]s.  A finite [float] is held as the
    literal that [repr] writes for it. *)

From Stdlib Require Import List String Ascii ZArith Bool Arith Lia Permutation.
From Stdlib Require DecimalFacts DecimalPos.
Import ListNotations.
Open Scope string_scope.

(** ** Exceptions and fallible results *)

Inductive Error : Type :=
| ConfigurationError (section property : string)
| DependencyCycleError
| DependencyResolutionError
| ComponentNotFoundError (role name : string)
| OptimizerCapabilityError (capability : string)
| InstantiationError (component : string)
| MissingAlgorithmName
| ImportError
| ImportWarning (message : string)
| ForeignError (tag : string).

Inductive Res (A : Type) : Type :=
| Ok (a : A)
| Err (e : Error).

Arguments Ok {A} a.
Arguments Err {A} e.

Definition res_bind {A B : Type} (r : Res A) (k : A -> Res B) : Res B :=
  match r with
  | Ok a => k a
  | Err e => Err e
  end.

Declare Scope res_scope.
Delimit Scope res_scope with res.
Notation "x <- r ;; k" := (res_bind r (fun x => k))
  (at level 61, r at next level, right associativity) : res_scope.

Definition is_ok {A : Type} (r : Res A) : bool :=
  match r with Ok _ => true | Err _ => false end.

(** ** Floating-point numbers *)

Module PyFloat.

(** A Python [float].  A finite one is held as the literal that
    [float.__repr__] writes for it, which determines it
    ([float(repr(x)) == x]): the sign, the integer part, the digits of the
    fraction and the exponent with its sign and digits, where they are
    written. *)
Inductive Float : Type :=
| NaN
| Infinity (negative : bool)
| Literal (negative : bool) (integer : N) (frac : option Decimal.uint)
    (exp : option (bool * Decimal.uint)).

(** A literal as [float.__repr__] and [NUMBER_RE] have it: the digits of a
    fraction or an exponent are not empty, and one of the two is there. *)
Definition nonempty (d : Decimal.uint) : bool :=
  match d with Decimal.Nil => false | _ => true end.

Definition literal_wf (x : Float) : bool :=
  match x with
  | Literal _ _ frac exp =>
      match frac with Some f => nonempty f | None => true end
      && match exp with Some (_, e) => nonempty e | None => true end
      && match frac, exp with None, None => false | _, _ => true end
  | _ => true
  end.

Definition is_nan (x : Float) : bool :=
  match x with NaN => true | _ => false end.

(** *** The binary64 value of a literal *)

(** An IEEE 754 binary64 value: a finite non-zero one is [m * 2 ^ e] with
    [2^52 <= m < 2^53] (normal) or [e = -1074] and [m < 2^52] (subnormal). *)
Inductive Binary64 : Type :=
| B64_nan
| B64_inf (negative : bool)
| B64_zero (negative : bool)
| B64_finite (negative : bool) (m : positive) (e : Z).

(** [num / den] rounded to the nearest binary64, ties to even. *)
Definition round_ratio (negative : bool) (num den : positive) : Binary64 :=
  let n := Zpos num in
  let d := Zpos den in
  let l := (Z.log2 n - Z.log2 d)%Z in
  (* the position of the leading bit of the quotient: [l] or [l - 1] *)
  let lb := if (if (0 <=? l)%Z then (d * 2 ^ l <=? n)%Z else (d <=? n * 2 ^ (- l))%Z)
            then l else (l - 1)%Z in
  let e := Z.max (lb - 52) (-1074) in
  let n' := if (0 <=? e)%Z then n else (n * 2 ^ (- e))%Z in
  let d' := if (0 <=? e)%Z then (d * 2 ^ e)%Z else d in
  let q := (n' / d')%Z in
  let r := (n' mod d')%Z in
  let up := match (2 * r ?= d')%Z with
            | Lt => false
            | Gt => true
            | Eq => Z.odd q
            end in
  let q := if up then (q + 1)%Z else q in
  let '(q, e) := if (q =? 2 ^ 53)%Z then ((2 ^ 52)%Z, (e + 1)%Z) else (q, e) in
  if (971 <? e)%Z then B64_inf negative
  else
    match q with
    | Zpos m => B64_finite negative m e
    | _ => B64_zero negative
    end.

(** [float(literal)]: the literal is [mantissa * 10 ^ exponent]. *)
Definition value (x : Float) : Binary64 :=
  match x with
  | NaN => B64_nan
  | Infinity negative => B64_inf negative
  | Literal negative integer frac exp =>
      let places := match frac with
                    | Some f => Z.of_nat (Decimal.nb_digits f)
                    | None => 0%Z
                    end in
      let fraction := match frac with Some f => Z.of_N (N.of_uint f) | None => 0%Z end in
      let mantissa := (Z.of_N integer * 10 ^ places + fraction)%Z in
      let exponent :=
        (match exp with
         | Some (true, e) => - Z.of_N (N.of_uint e)
         | Some (false, e) => Z.of_N (N.of_uint e)
         | None => 0
         end - places)%Z in
      match mantissa with
      | Zpos m =>
          if (0 <=? exponent)%Z
          then round_ratio negative (m * Z.to_pos (10 ^ exponent)) 1
          else round_ratio negative m (Z.to_pos (10 ^ (- exponent)))
      | _ => B64_zero negative
      end
  end.

(** *** Comparisons *)

(** [x == y] on binary64 values: a NaN equals nothing, the two zeros are
    equal. *)
Definition binary_eqb (x y : Binary64) : bool :=
  match x, y with
  | B64_inf a, B64_inf b => Bool.eqb a b
  | B64_zero _, B64_zero _ => true
  | B64_finite a m e, B64_finite b m' e' =>
      Bool.eqb a b && Pos.eqb m m' && Z.eqb e e'
  | _, _ => false
  end.

(** [x == y] on floats. *)
Definition eqb (x y : Float) : bool := binary_eqb (value x) (value y).

(** The order of a binary64 value and an integer: Python compares the two
    exactly.  [None] for a NaN. *)
Definition binary_compare_Z (x : Binary64) (z : Z) : option comparison :=
  match x with
  | B64_nan => None
  | B64_inf negative => Some (if negative then Lt else Gt)
  | B64_zero _ => Some (0 ?= z)%Z
  | B64_finite negative m e =>
      let s := if negative then Zneg m else Zpos m in
      Some (if (0 <=? e)%Z then (s * 2 ^ e ?= z)%Z else (s ?= z * 2 ^ (- e))%Z)
  end.

(** [x == z] and [x < z] for a float and an integer. *)
Definition eqb_Z (x : Float) (z : Z) : bool :=
  match binary_compare_Z (value x) z with
  | Some Eq => true
  | _ => false
  end.

Definition ltb_Z (x : Float) (z : Z) : bool :=
  match binary_compare_Z (value x) z with
  | Some Lt => true
  | _ => false
  end.

(** The same float, written the same way. *)
Definition uint_eqb (d d' : Decimal.uint) : bool :=
  if Decimal.uint_eq_dec d d' then true else false.

Definition same (x y : Float) : bool :=
  match x, y with
  | NaN, NaN => true
  | Infinity a, Infinity b => Bool.eqb a b
  | Literal a i f e, Literal b i' f' e' =>
      Bool.eqb a b && N.eqb i i'
      && match f, f' with
         | Some d, Some d' => uint_eqb d d'
         | None, None => true
         | _, _ => false
         end
      && match e, e' with
         | Some (s, d), Some (s', d') => Bool.eqb s s' && uint_eqb d d'
         | None, None => true
         | _, _ => false
         end
  | _, _ => false
  end.

End PyFloat.

(** ** JSON values and dictionaries *)

#[warnings="-register-all"]
Inductive json : Type :=
| JNull
| JBool (b : bool)
| JInt (z : Z)
| JFloat (x : PyFloat.Float)
| JStr (s : string)
| JArr (items : list json)
| JObj (fields : list (string * json)).

(** [d.get(k)]: the first binding of [k]. *)
Fixpoint dict_get {V : Type} (k : string) (d : list (string * V)) : option V :=
  match d with
  | [] => None
  | (k', v) :: d' => if String.eqb k k' then Some v else dict_get k d'
  end.

(** [d[k] = v]: an existing key keeps its position, a new key goes last. *)
Fixpoint dict_set {V : Type} (k : string) (v : V) (d : list (string * V))
  : list (string * V) :=
  match d with
  | [] => [(k, v)]
  | (k', v') :: d' =>
      if String.eqb k k' then (k', v) :: d' else (k', v') :: dict_set k v d'
  end.

(** The items in front of the first binding of [k]. *)
Fixpoint before_key {V : Type} (k : string) (d : list (string * V))
  : list (string * V) :=
  match d with
  | [] => []
  | (k', v) :: d' => if String.eqb k k' then [] else (k', v) :: before_key k d'
  end.

(** [del d[k]]. *)
Definition dict_del {V : Type} (k : string) (d : list (string * V))
  : list (string * V) :=
  filter (fun kv => negb (String.eqb k (fst kv))) d.

Definition dict_keys {V : Type} (d : list (string * V)) : list string :=
  map fst d.

Definition Dict : Type := list (string * json).

(** A configuration maps a section name to the property mapping of that
    section. *)
Definition Config : Type := list (string * Dict).

(** Key constants of [JSONSchema] and [PluggableType]. *)
Definition NAME : string := "name".
Definition BACKEND : string := "backend".
Definition PROBLEM : string := "problem".
Definition ALGORITHM : string := "algorithm".
Definition OPTIMIZER : string := "optimizer".
Definition INPUT : string := "input".

Definition get_section (sections : Config) (section_name : string) : Dict :=
  match dict_get section_name sections with
  | Some props => props
  | None => []
  end.

(** Modelled from the spec: [InputParser.get_section_property], declared in
    the parser module, whose code is not embedded here.  It reads a
    property of a section of the property mapping and answers Python's [None]
    when the section or the property is missing; a JSON null is [None] too. *)
Definition get_section_property (sections : Config) (section_name property : string)
  : option json :=
  match dict_get section_name sections with
  | None => None
  | Some props =>
      match dict_get property props with
      | Some JNull => None
      | other => other
      end
  end.

(** A configuration as the JSON document that is serialised. *)
Definition config_json (cfg : Config) : json :=
  JObj (map (fun kv => (fst kv, JObj (snd kv))) cfg).

Definition config_of_json (v : json) : option Config :=
  match v with
  | JObj fields =>
      fold_right
        (fun kv acc =>
           match snd kv, acc with
           | JObj props, Some cfg => Some ((fst kv, props) :: cfg)
           | _, _ => None
           end)
        (Some []) fields
  | _ => None
  end.

(** ** Text form of a configuration

    [json.dump(obj, fp, sort_keys=True, indent=4)] and [json.load] of the
    Python standard library, on the values of [json].  A text is a list of
    characters; a character is a code point below 256. *)

Module Text.

Local Open Scope char_scope.
Local Open Scope list_scope.

Definition QUOTE : ascii := "034".
Definition BACKSLASH : ascii := "092".
Definition NEWLINE : ascii := "010".

Definition lit (s : string) : list ascii := list_ascii_of_string s.

(** *** Key order *)

Fixpoint insert_item {V : Type} (kv : string * V) (l : list (string * V))
  : list (string * V) :=
  match l with
  | [] => [kv]
  | kv' :: l' =>
      if String.leb (fst kv) (fst kv') then kv :: l
      else kv' :: insert_item kv l'
  end.

(** [sorted(dct.items())] for pairwise distinct keys. *)
Definition sort_items {V : Type} (l : list (string * V)) : list (string * V) :=
  fold_right insert_item [] l.

(** The value with the keys of every object in sorted order: what a reader of
    the serialised text gets back. *)
Fixpoint canon (v : json) : json :=
  match v with
  | JArr items => JArr (map canon items)
  | JObj fields =>
      JObj (sort_items (map (fun kv => (fst kv, canon (snd kv))) fields))
  | _ => v
  end.

(** A value as a number: a [bool] is an [int]. *)
Definition number_of (v : json) : option (Z + PyFloat.Float) :=
  match v with
  | JBool b => Some (inl (if b then 1%Z else 0%Z))
  | JInt z => Some (inl z)
  | JFloat x => Some (inr x)
  | _ => None
  end.

(** [==] on numbers: integers and floats compare by value. *)
Definition number_eqb (a b : Z + PyFloat.Float) : bool :=
  match a, b with
  | inl x, inl y => Z.eqb x y
  | inl z, inr x | inr x, inl z => PyFloat.eqb_Z x z
  | inr x, inr y => PyFloat.eqb x y
  end.

(** Python's [==] on two JSON values that share no object, as a value and
    the one read back from its text: numbers compare by value
    ([True == 1 == 1.0], a NaN equals nothing), lists item by item,
    dictionaries without regard to insertion order. *)
Fixpoint py_eqb (a b : json) : bool :=
  match a, b with
  | JNull, JNull => true
  | JStr x, JStr y => String.eqb x y
  | JArr xs, JArr ys =>
      (fix all2 (xs ys : list json) {struct xs} : bool :=
         match xs, ys with
         | [], [] => true
         | x :: xs', y :: ys' => py_eqb x y && all2 xs' ys'
         | _, _ => false
         end) xs ys
  | JObj xs, JObj ys =>
      Nat.eqb (List.length xs) (List.length ys)
      && (fix all_in (xs : list (string * json)) {struct xs} : bool :=
            match xs with
            | [] => true
            | (k, x) :: xs' =>
                match dict_get k ys with
                | Some y => py_eqb x y && all_in xs'
                | None => false
                end
            end) xs
  | _, _ =>
      match number_of a, number_of b with
      | Some x, Some y => number_eqb x y
      | _, _ => false
      end
  end.

(** The same value up to the order of the keys of its dictionaries: every
    number of the same type and written the same way. *)
Fixpoint same_but_order (a b : json) : bool :=
  match a, b with
  | JNull, JNull => true
  | JBool x, JBool y => Bool.eqb x y
  | JInt x, JInt y => Z.eqb x y
  | JFloat x, JFloat y => PyFloat.same x y
  | JStr x, JStr y => String.eqb x y
  | JArr xs, JArr ys =>
      (fix all2 (xs ys : list json) {struct xs} : bool :=
         match xs, ys with
         | [], [] => true
         | x :: xs', y :: ys' => same_but_order x y && all2 xs' ys'
         | _, _ => false
         end) xs ys
  | JObj xs, JObj ys =>
      Nat.eqb (List.length xs) (List.length ys)
      && (fix all_in (xs : list (string * json)) {struct xs} : bool :=
            match xs with
            | [] => true
            | (k, x) :: xs' =>
                match dict_get k ys with
                | Some y => same_but_order x y && all_in xs'
                | None => false
                end
            end) xs
  | _, _ => false
  end.

(** Whether a value holds no NaN. *)
Fixpoint nan_free (v : json) : bool :=
  match v with
  | JFloat x => negb (PyFloat.is_nan x)
  | JArr items => forallb nan_free items
  | JObj fields => forallb (fun kv => nan_free (snd kv)) fields
  | _ => true
  end.

(** A value all of whose dictionaries have pairwise distinct keys, and all
    of whose floats are written as literals. *)
Fixpoint wf (v : json) : Prop :=
  match v with
  | JFloat x => PyFloat.literal_wf x = true
  | JArr items =>
      (fix all (l : list json) : Prop :=
         match l with
         | [] => True
         | x :: l' => wf x /\ all l'
         end) items
  | JObj fields =>
      NoDup (map fst fields)
      /\ (fix all (l : list (string * json)) : Prop :=
            match l with
            | [] => True
            | (_, x) :: l' => wf x /\ all l'
            end) fields
  | _ => True
  end.

(** *** Encoder *)

Definition hex_digit (n : N) : ascii :=
  nth (N.to_nat n) (lit "0123456789abcdef") "0".

(** [py_encode_basestring_ascii]: one character. *)
Definition encode_char (c : ascii) : list ascii :=
  let n := N_of_ascii c in
  if (n =? 34)%N then [BACKSLASH; QUOTE]
  else if (n =? 92)%N then [BACKSLASH; BACKSLASH]
  else if (n =? 10)%N then [BACKSLASH; "n"]
  else if (n =? 13)%N then [BACKSLASH; "r"]
  else if (n =? 9)%N then [BACKSLASH; "t"]
  else if (n =? 12)%N then [BACKSLASH; "f"]
  else if (n =? 8)%N then [BACKSLASH; "b"]
  else if ((32 <=? n) && (n <=? 126))%N then [c]
  else [BACKSLASH; "u"; hex_digit (n / 4096); hex_digit ((n / 256) mod 16);
        hex_digit ((n / 16) mod 16); hex_digit (n mod 16)].

Definition encode_basestring_ascii (s : string) : list ascii :=
  QUOTE :: flat_map encode_char (list_ascii_of_string s) ++ [QUOTE].

Fixpoint uint_chars (d : Decimal.uint) : list ascii :=
  match d with
  | Decimal.Nil => []
  | Decimal.D0 d => "0" :: uint_chars d
  | Decimal.D1 d => "1" :: uint_chars d
  | Decimal.D2 d => "2" :: uint_chars d
  | Decimal.D3 d => "3" :: uint_chars d
  | Decimal.D4 d => "4" :: uint_chars d
  | Decimal.D5 d => "5" :: uint_chars d
  | Decimal.D6 d => "6" :: uint_chars d
  | Decimal.D7 d => "7" :: uint_chars d
  | Decimal.D8 d => "8" :: uint_chars d
  | Decimal.D9 d => "9" :: uint_chars d
  end.

(** [int.__repr__] *)
Definition encode_int (z : Z) : list ascii :=
  match z with
  | Z0 => ["0"]
  | Zpos p => uint_chars (Pos.to_uint p)
  | Zneg p => "-" :: uint_chars (Pos.to_uint p)
  end.

(** The exponent of a literal: [e], the sign and the digits. *)
Definition exp_chars (exp : option (bool * Decimal.uint)) : list ascii :=
  match exp with
  | Some (s, e) => "e" :: (if s then "-" else "+") :: uint_chars e
  | None => []
  end.

(** [float.__repr__], and the constants the encoder writes for the values
    that are not finite. *)
Definition encode_float (x : PyFloat.Float) : list ascii :=
  match x with
  | PyFloat.NaN => lit "NaN"
  | PyFloat.Infinity false => lit "Infinity"
  | PyFloat.Infinity true => lit "-Infinity"
  | PyFloat.Literal negative integer frac exp =>
      (if negative then ["-"] else [])
      ++ uint_chars (N.to_uint integer)
      ++ match frac with
         | Some f => "." :: uint_chars f
         | None => []
         end
      ++ exp_chars exp
  end.

Fixpoint join (sep : list ascii) (parts : list (list ascii)) : list ascii :=
  match parts with
  | [] => []
  | p :: ps =>
      match ps with
      | [] => p
      | _ => p ++ sep ++ join sep ps
      end
  end.

(** ['\n' + ' ' * (4 * level)] *)
Definition newline_indent (level : nat) : list ascii :=
  NEWLINE :: repeat " " (4 * level).

Definition item_separator (level : nat) : list ascii :=
  "," :: newline_indent level.

Definition encode_item (kt : string * list ascii) : list ascii :=
  encode_basestring_ascii (fst kt) ++ ":" :: " " :: snd kt.

(** [_iterencode] at nesting depth [level].  The values of a dictionary are
    encoded first and the encoded items are then put in key order, which is
    the order [sorted(dct.items())] visits them in. *)
Fixpoint encode (level : nat) (v : json) : list ascii :=
  match v with
  | JNull => lit "null"
  | JBool true => lit "true"
  | JBool false => lit "false"
  | JInt z => encode_int z
  | JFloat x => encode_float x
  | JStr s => encode_basestring_ascii s
  | JArr items =>
      match items with
      | [] => lit "[]"
      | _ =>
          "[" :: newline_indent (S level)
          ++ join (item_separator (S level)) (map (encode (S level)) items)
          ++ newline_indent level ++ ["]"]
      end
  | JObj fields =>
      match fields with
      | [] => lit "{}"
      | _ =>
          "{" :: newline_indent (S level)
          ++ join (item_separator (S level))
               (map encode_item
                  (sort_items
                     (map (fun kv => (fst kv, encode (S level) (snd kv))) fields)))
          ++ newline_indent level ++ ["}"]
      end
  end.

Definition dumps (v : json) : list ascii := encode 0 v.

(** *** Decoder *)

Definition is_ws (c : ascii) : bool :=
  Ascii.eqb c " " || Ascii.eqb c "009" || Ascii.eqb c NEWLINE || Ascii.eqb c "013".

Fixpoint skip_ws (s : list ascii) : list ascii :=
  match s with
  | [] => []
  | c :: rest => if is_ws c then skip_ws rest else s
  end.

Definition hex_value (c : ascii) : option N :=
  let n := N_of_ascii c in
  if ((48 <=? n) && (n <=? 57))%N then Some (n - 48)%N
  else if ((97 <=? n) && (n <=? 102))%N then Some (n - 87)%N
  else if ((65 <=? n) && (n <=? 70))%N then Some (n - 55)%N
  else None.

Definition hex4 (h1 h2 h3 h4 : ascii) : option N :=
  match hex_value h1, hex_value h2, hex_value h3, hex_value h4 with
  | Some a, Some b, Some c, Some d => Some (((a * 16 + b) * 16 + c) * 16 + d)%N
  | _, _, _, _ => None
  end.

(** The character a backslash escape stands for ([BACKSLASH] table of the
    decoder). *)
Definition unescape (e : ascii) : option ascii :=
  if Ascii.eqb e QUOTE then Some QUOTE
  else if Ascii.eqb e BACKSLASH then Some BACKSLASH
  else if Ascii.eqb e "/" then Some "/"
  else if Ascii.eqb e "b" then Some "008"
  else if Ascii.eqb e "f" then Some "012"
  else if Ascii.eqb e "n" then Some NEWLINE
  else if Ascii.eqb e "r" then Some "013"
  else if Ascii.eqb e "t" then Some "009"
  else None.

(** [py_scanstring] after the opening quote (strict mode).  An escape that
    names a code point of 256 or more has no value in this model. *)
Fixpoint scanstring (s : list ascii) : option (string * list ascii) :=
  match s with
  | [] => None
  | c :: rest =>
      if Ascii.eqb c QUOTE then Some (EmptyString, rest)
      else if Ascii.eqb c BACKSLASH then
        match rest with
        | [] => None
        | e :: rest' =>
            if Ascii.eqb e "u" then
              match rest' with
              | h1 :: h2 :: h3 :: h4 :: rest'' =>
                  match hex4 h1 h2 h3 h4 with
                  | Some n =>
                      if (n <? 256)%N then
                        match scanstring rest'' with
                        | Some (str, r) => Some (String (ascii_of_N n) str, r)
                        | None => None
                        end
                      else None
                  | None => None
                  end
              | _ => None
              end
            else
              match unescape e with
              | Some c' =>
                  match scanstring rest' with
                  | Some (str, r) => Some (String c' str, r)
                  | None => None
                  end
              | None => None
              end
        end
      else if (N_of_ascii c <? 32)%N then None
      else
        match scanstring rest with
        | Some (str, r) => Some (String c str, r)
        | None => None
        end
  end.

Definition digit_of_char (c : ascii) : option (Decimal.uint -> Decimal.uint) :=
  if Ascii.eqb c "0" then Some Decimal.D0
  else if Ascii.eqb c "1" then Some Decimal.D1
  else if Ascii.eqb c "2" then Some Decimal.D2
  else if Ascii.eqb c "3" then Some Decimal.D3
  else if Ascii.eqb c "4" then Some Decimal.D4
  else if Ascii.eqb c "5" then Some Decimal.D5
  else if Ascii.eqb c "6" then Some Decimal.D6
  else if Ascii.eqb c "7" then Some Decimal.D7
  else if Ascii.eqb c "8" then Some Decimal.D8
  else if Ascii.eqb c "9" then Some Decimal.D9
  else None.

Fixpoint scan_digits (s : list ascii) : Decimal.uint * list ascii :=
  match s with
  | [] => (Decimal.Nil, [])
  | c :: rest =>
      match digit_of_char c with
      | Some d => let (u, r) := scan_digits rest in (d u, r)
      | None => (Decimal.Nil, s)
      end
  end.

(** The integer part of [NUMBER_RE]: [0], or a non-zero digit and the digits
    after it. *)
Definition scan_int (s : list ascii) : option (N * list ascii) :=
  match s with
  | [] => None
  | c :: rest =>
      if Ascii.eqb c "0" then Some (0%N, rest)
      else
        match digit_of_char c with
        | Some d => let (u, r) := scan_digits rest in Some (N.of_uint (d u), r)
        | None => None
        end
  end.

Fixpoint strip_prefix (p s : list ascii) : option (list ascii) :=
  match p with
  | [] => Some s
  | c :: p' =>
      match s with
      | [] => None
      | c' :: s' => if Ascii.eqb c c' then strip_prefix p' s' else None
      end
  end.

(** The groups [(\.\d+)?] and [([eE][-+]?\d+)?] of [NUMBER_RE]: a group that
    does not match in full is not there. *)
Definition scan_frac (s : list ascii) : option Decimal.uint * list ascii :=
  match s with
  | c :: rest =>
      if Ascii.eqb c "." then
        match scan_digits rest with
        | (Decimal.Nil, _) => (None, s)
        | (f, r) => (Some f, r)
        end
      else (None, s)
  | [] => (None, s)
  end.

Definition scan_exp (s : list ascii) : option (bool * Decimal.uint) * list ascii :=
  match s with
  | c :: rest =>
      if Ascii.eqb c "e" || Ascii.eqb c "E" then
        let (negative, digits) :=
          match rest with
          | c' :: rest' =>
              if Ascii.eqb c' "-" then (true, rest')
              else if Ascii.eqb c' "+" then (false, rest')
              else (false, rest)
          | [] => (false, rest)
          end in
        match scan_digits digits with
        | (Decimal.Nil, _) => (None, s)
        | (e, r) => (Some (negative, e), r)
        end
      else (None, s)
  | [] => (None, s)
  end.

(** A match of [NUMBER_RE]: an [int] when neither a fraction nor an exponent
    is there, and the [float] of the literal otherwise. *)
Definition scan_number (s : list ascii) : option (json * list ascii) :=
  let (negative, digits) :=
    match s with
    | c :: rest => if Ascii.eqb c "-" then (true, rest) else (false, s)
    | [] => (false, s)
    end in
  match scan_int digits with
  | Some (n, r) =>
      let (frac, r1) := scan_frac r in
      let (exp, r2) := scan_exp r1 in
      match frac, exp with
      | None, None =>
          Some (JInt (if negative then Z.opp (Z.of_N n) else Z.of_N n), r2)
      | _, _ => Some (JFloat (PyFloat.Literal negative n frac exp), r2)
      end
  | None => None
  end.

(** The constants [NaN], [Infinity] and [-Infinity]. *)
Definition scan_constant (s : list ascii) : option (json * list ascii) :=
  match s with
  | c :: rest =>
      if Ascii.eqb c "N" then
        match strip_prefix (lit "aN") rest with
        | Some r => Some (JFloat PyFloat.NaN, r)
        | None => None
        end
      else if Ascii.eqb c "I" then
        match strip_prefix (lit "nfinity") rest with
        | Some r => Some (JFloat (PyFloat.Infinity false), r)
        | None => None
        end
      else if Ascii.eqb c "-" then
        match strip_prefix (lit "Infinity") rest with
        | Some r => Some (JFloat (PyFloat.Infinity true), r)
        | None => None
        end
      else None
  | [] => None
  end.

(** [dict(pairs)]: a repeated key keeps its first position and its last
    value. *)
Definition dict_of_pairs (pairs : list (string * json)) : list (string * json) :=
  fold_left (fun d kv => dict_set (fst kv) (snd kv) d) pairs [].

(** [scan_once], [JSONArray] and [JSONObject] of the decoder.  [fuel] bounds
    the nesting and the number of items.  [parse_array] starts at the first
    element, [parse_object] after the opening quote of a key; [acc] holds the
    items read so far, most recent first. *)
Fixpoint parse_value (fuel : nat) (s : list ascii) : option (json * list ascii) :=
  match fuel with
  | O => None
  | S fuel' =>
      match s with
      | [] => None
      | c :: rest =>
          if Ascii.eqb c QUOTE then
            match scanstring rest with
            | Some (str, r) => Some (JStr str, r)
            | None => None
            end
          else if Ascii.eqb c "{" then
            let rest := if Ascii.eqb (hd "x" rest) QUOTE then rest else skip_ws rest in
            match rest with
            | [] => None
            | c' :: rest' =>
                if Ascii.eqb c' "}" then Some (JObj [], rest')
                else if Ascii.eqb c' QUOTE then parse_object fuel' rest' []
                else None
            end
          else if Ascii.eqb c "[" then
            match skip_ws rest with
            | [] => None
            | c' :: rest' =>
                if Ascii.eqb c' "]" then Some (JArr [], rest')
                else parse_array fuel' (c' :: rest') []
            end
          else if Ascii.eqb c "n" then
            match strip_prefix (lit "ull") rest with
            | Some r => Some (JNull, r)
            | None => None
            end
          else if Ascii.eqb c "t" then
            match strip_prefix (lit "rue") rest with
            | Some r => Some (JBool true, r)
            | None => None
            end
          else if Ascii.eqb c "f" then
            match strip_prefix (lit "alse") rest with
            | Some r => Some (JBool false, r)
            | None => None
            end
          else
            match scan_number s with
            | Some (v, r) => Some (v, r)
            | None => scan_constant s
            end
      end
  end

with parse_array (fuel : nat) (s : list ascii) (acc : list json)
  : option (json * list ascii) :=
  match fuel with
  | O => None
  | S fuel' =>
      match parse_value fuel' s with
      | None => None
      | Some (v, r) =>
          match skip_ws r with
          | [] => None
          | c :: r' =>
              if Ascii.eqb c "]" then Some (JArr (rev (v :: acc)), r')
              else if Ascii.eqb c "," then parse_array fuel' (skip_ws r') (v :: acc)
              else None
          end
      end
  end

with parse_object (fuel : nat) (s : list ascii) (acc : list (string * json))
  : option (json * list ascii) :=
  match fuel with
  | O => None
  | S fuel' =>
      match scanstring s with
      | None => None
      | Some (key, r) =>
          match skip_ws r with
          | [] => None
          | c :: r' =>
              if Ascii.eqb c ":" then
                match parse_value fuel' (skip_ws r') with
                | None => None
                | Some (v, r'') =>
                    match skip_ws r'' with
                    | [] => None
                    | c' :: r3 =>
                        if Ascii.eqb c' "}" then
                          Some (JObj (dict_of_pairs (rev ((key, v) :: acc))), r3)
                        else if Ascii.eqb c' "," then
                          match skip_ws r3 with
                          | [] => None
                          | q :: r4 =>
                              if Ascii.eqb q QUOTE
                              then parse_object fuel' r4 ((key, v) :: acc)
                              else None
                          end
                        else None
                    end
                end
              else None
          end
      end
  end.

(** [json.loads]: one value, then nothing but white space. *)
Definition loads (s : list ascii) : option json :=
  match parse_value (S (List.length s)) (skip_ws s) with
  | Some (v, r) =>
      match skip_ws r with
      | [] => Some v
      | _ => None
      end
  | None => None
  end.

(** *** Notions for the decoder's correctness *)

(** Where a number ends: at the end of the text, a comma or a newline. *)
Definition stop (rest : list ascii) : bool :=
  match rest with
  | [] => true
  | c :: _ => Ascii.eqb c "," || Ascii.eqb c NEWLINE
  end.

(** What an encoded value begins with. *)
Definition value_head (c : ascii) : Prop :=
  is_ws c = false /\ Ascii.eqb c "]" = false /\ Ascii.eqb c "}" = false.

(** The decoder reads a value back, given fuel for its text. *)
Definition reads_back (v : json) : Prop :=
  forall level fuel rest,
    stop rest = true ->
    List.length (encode level v) <= fuel ->
    parse_value fuel (encode level v ++ rest) = Some (canon v, rest).

(** The text of one item of a dictionary at nesting depth [level]. *)
Definition item (level : nat) (kv : string * json) : list ascii :=
  encode_item (fst kv, encode (S level) (snd kv)).

End Text.

(** A configuration all of whose dictionaries have pairwise distinct keys. *)
Definition config_wf (cfg : Config) : Prop := Text.wf (config_json cfg).

(** Reading a persisted configuration back: [json.load], then the sections
    as property mappings. *)
Definition reparse (text : list ascii) : option Config :=
  match Text.loads text with
  | Some v => config_of_json v
  | None => None
  end.

(** ** The execution driver ([qiskit_aqua/_aqua.py]) *)

Module Driver.

(** An object handed over as the [backend] argument; [isinstance] against
    [BaseBackend] is its only observable attribute here. *)
Record PyObject : Type := mkPyObject {
  py_id : nat;
  py_is_BaseBackend : bool
}.

(** The external input artifact: its property form ([to_params()]) and the
    component name of its [configuration]. *)
Record AlgorithmInput : Type := mkAlgorithmInput {
  to_params : Dict;
  configuration_name : string
}.

(** A keyword argument of [setup_quantum_backend]: a configuration value or
    the backend object itself. *)
Inductive KwValue : Type :=
| KwJson (v : json)
| KwObject (o : PyObject).

Definition Kwargs : Type := list (string * KwValue).

(** Calls that leave the driver. *)
Inductive Event : Type :=
| EvFromParams (input_name : string) (input_params : Dict)
| EvInitParams (algo_name : string) (algo_params : Config)
    (algo_input : option AlgorithmInput)
| EvSetRandomSeed (seed : option json)
| EvSetupQuantumBackend (kwargs : Kwargs)
| EvRun
| EvConvertResult
| EvFileWrite (jsonfile : string) (text : list ascii).

(** Whether an event constructs or executes a component: anything but the
    write of the persisted file. *)
Definition is_execution (ev : Event) : bool :=
  match ev with
  | EvFileWrite _ _ => false
  | _ => true
  end.

(** The collaborators of the driver.  [Algorithm] is the constructed object,
    [Value] what its [run()] returns. *)
Record Externals : Type := mkExternals {
  Algorithm : Type;
  Value : Type;
  (** [InputParser(params).parse(); validate_merge_defaults(); get_sections()] *)
  resolve : Config -> Res Config;
  (** [local_pluggables(PluggableType.ALGORITHM)] *)
  local_algorithms : list string;
  (** [get_pluggable_class(PluggableType.INPUT, name).from_params(params)] *)
  from_params : string -> Dict -> Res AlgorithmInput;
  (** [get_pluggable_class(PluggableType.ALGORITHM, name).init_params(...)] *)
  init_params : string -> Config -> option AlgorithmInput -> Res Algorithm;
  set_random_seed : Algorithm -> option json -> Algorithm;
  setup_quantum_backend : Algorithm -> Kwargs -> Res Algorithm;
  run : Algorithm -> Res Value;
  value_is_dict : Value -> bool;
  (** [convert_dict_to_json] on a result, and on a property form *)
  convert_value_to_json : Value -> Value;
  convert_dict_to_json : Dict -> Dict;
  convert_json_to_dict : Dict -> Dict;
  (** whether [open(jsonfile, 'w')] and the write succeed *)
  file_write : string -> list ascii -> Res unit
}.

(** Computations of the driver: an exception or a value, and the events so
    far (most recent last). *)
Definition M (A : Type) : Type := list Event -> Res A * list Event.

Definition ret {A : Type} (a : A) : M A := fun tr => (Ok a, tr).

Definition raise {A : Type} (e : Error) : M A := fun tr => (Err e, tr).

Definition bind {A B : Type} (m : M A) (k : A -> M B) : M B :=
  fun tr =>
    match m tr with
    | (Ok a, tr') => k a tr'
    | (Err e, tr') => (Err e, tr')
    end.

Definition emit (ev : Event) : M unit := fun tr => (Ok tt, (tr ++ [ev])%list).

Definition lift {A : Type} (r : Res A) : M A := fun tr => (r, tr).

(** An external call: the event is recorded, then the collaborator answers. *)
Definition call {A : Type} (ev : Event) (r : Res A) : M A :=
  bind (emit ev) (fun _ => lift r).

Declare Scope driver_scope.
Delimit Scope driver_scope with driver.
Notation "x <- m ;; k" := (bind m (fun x => k))
  (at level 61, m at next level, right associativity) : driver_scope.
Notation "m ;;; k" := (bind m (fun _ => k))
  (at level 61, right associativity) : driver_scope.

Section WithExternals.

Context (E : Externals).

Local Open Scope driver_scope.

(** [{k: v for k, v in section.items() if k != 'name'}] *)
Definition without_name (section : Dict) : Kwargs :=
  map (fun kv => (fst kv, KwJson (snd kv)))
      (filter (fun kv => negb (String.eqb (fst kv) "name")) section).

(** [backend is not None and isinstance(backend, BaseBackend)] *)
Definition is_BaseBackend (backend : option PyObject) : option PyObject :=
  match backend with
  | Some b => if py_is_BaseBackend b then Some b else None
  | None => None
  end.

(** Lines 66-76: the keyword arguments for [setup_quantum_backend], or
    [None]. *)
Definition backend_cfg (sections : Config) (backend : option PyObject)
  : option Kwargs :=
  let backend_cfg : option Kwargs := None in
  let backend_name := get_section_property sections BACKEND NAME in
  let backend_cfg :=
    match backend_name with
    | Some n =>
        Some (dict_set "backend" (KwJson n)
                (without_name (get_section sections BACKEND)))
    | None => backend_cfg
    end in
  match is_BaseBackend backend with
  | Some b =>
      let cfg := match backend_cfg with None => [] | Some cfg => cfg end in
      Some (dict_set "backend" (KwObject b) cfg)
  | None => backend_cfg
  end.

(** Lines 78-84: the input artifact, built from the [input] section when none
    was supplied. *)
Definition resolve_algo_input (sections : Config)
    (algo_input : option AlgorithmInput) : M (option AlgorithmInput) :=
  match algo_input with
  | Some a => ret (Some a)
  | None =>
      match get_section_property sections INPUT NAME with
      | Some (JStr input_name) =>
          let input_params := get_section sections INPUT in
          let input_params := dict_del NAME input_params in
          let input_params := convert_json_to_dict E input_params in
          a <- call (EvFromParams input_name input_params)
                    (from_params E input_name input_params) ;;
          ret (Some a)
      | Some _ => raise (ComponentNotFoundError INPUT "")
      | None => ret None
      end
  end.

(** Lines 38-97.  [_discover_on_demand()] fills the registry from which the
    collaborators answer and records nothing here.  The [AquaError] of line 61
    is [MissingAlgorithmName], the one of line 64 the [ComponentNotFoundError]
    of the algorithm role.  [copy.deepcopy] is the identity on values. *)
Definition run_algorithm (params : Config) (algo_input : option AlgorithmInput)
    (json_output : bool) (backend : option PyObject) : M (Value E) :=
  sections <- lift (resolve E params) ;;
  match get_section_property sections ALGORITHM NAME with
  | None => raise MissingAlgorithmName
  | Some algo_name =>
      match algo_name with
      | JStr algo_name =>
          if existsb (String.eqb algo_name) (local_algorithms E) then
            let backend_cfg := backend_cfg sections backend in
            algo_input <- resolve_algo_input sections algo_input ;;
            let algo_params := sections in
            algorithm <- call (EvInitParams algo_name algo_params algo_input)
                              (init_params E algo_name algo_params algo_input) ;;
            let seed := get_section_property sections PROBLEM "random_seed" in
            emit (EvSetRandomSeed seed) ;;;
            let algorithm := set_random_seed E algorithm seed in
            algorithm <-
              match backend_cfg with
              | Some kwargs =>
                  call (EvSetupQuantumBackend kwargs)
                       (setup_quantum_backend E algorithm kwargs)
              | None => ret algorithm
              end ;;
            value <- call EvRun (run E algorithm) ;;
            if value_is_dict E value && json_output then
              emit EvConvertResult ;;;
              ret (convert_value_to_json E value)
            else ret value
          else raise (ComponentNotFoundError ALGORITHM algo_name)
      | _ => raise (ComponentNotFoundError ALGORITHM "")
      end
  end.

(** The mapping [run_algorithm_to_json] returns. *)
Definition jsonfile_result (jsonfile : string) : Dict :=
  [("jsonfile", JStr jsonfile)].

(** Lines 120-126: the document that is persisted. *)
Definition persisted_params (sections : Config)
    (algo_input : option AlgorithmInput) : Config :=
  let algo_params := sections in
  match algo_input with
  | Some a =>
      let input_params := to_params a in
      let input_params := convert_dict_to_json E input_params in
      let input_params := dict_set "name" (JStr (configuration_name a)) input_params in
      dict_set "input" input_params algo_params
  | None => algo_params
  end.

(** Lines 100-134. *)
Definition run_algorithm_to_json (params : Config)
    (algo_input : option AlgorithmInput) (jsonfile : string) : M Dict :=
  sections <- lift (resolve E params) ;;
  let algo_params := persisted_params sections algo_input in
  let text := Text.dumps (config_json algo_params) in
  call (EvFileWrite jsonfile text) (file_write E jsonfile text) ;;;
  ret (jsonfile_result jsonfile).

End WithExternals.

End Driver.

(** ** Component contracts and the configuration resolver *)

Module Resolver.

Local Open Scope res_scope.

Inductive JType : Type :=
| TString | TInteger | TNumber | TBoolean | TArray | TObject | TNull.

(** A configuration schema in the JSON-schema shape the components declare:
    [type] (a list of alternatives, empty when unconstrained), [default],
    [minimum], the admitted values ([enum]), the schema of array [items], the
    [properties] of an object and whether properties beyond those are
    admitted ([additionalProperties]). *)
#[warnings="-register-all"]
Inductive Schema : Type :=
| mkSchema (s_type : list JType) (s_default : option json)
    (s_minimum : option Z) (s_enum : option (list json))
    (s_items : option Schema) (s_properties : list (string * Schema))
    (s_additional : bool).

Definition s_type (s : Schema) : list JType :=
  match s with mkSchema t _ _ _ _ _ _ => t end.
Definition s_default (s : Schema) : option json :=
  match s with mkSchema _ d _ _ _ _ _ => d end.
Definition s_minimum (s : Schema) : option Z :=
  match s with mkSchema _ _ m _ _ _ _ => m end.
Definition s_enum (s : Schema) : option (list json) :=
  match s with mkSchema _ _ _ e _ _ _ => e end.
Definition s_items (s : Schema) : option Schema :=
  match s with mkSchema _ _ _ _ i _ _ => i end.
Definition s_properties (s : Schema) : list (string * Schema) :=
  match s with mkSchema _ _ _ _ _ p _ => p end.
Definition s_additional (s : Schema) : bool :=
  match s with mkSchema _ _ _ _ _ _ a => a end.

(** The property names of a schema are pairwise distinct, at every level. *)
Fixpoint schema_wf (s : Schema) : Prop :=
  match s with
  | mkSchema _ _ _ _ _ props _ =>
      NoDup (map fst props)
      /\ (fix all (ps : list (string * Schema)) : Prop :=
            match ps with
            | [] => True
            | (_, sk) :: ps' => schema_wf sk /\ all ps'
            end) props
  end.

(** A schema that only fixes the type. *)
Definition of_type (t : list JType) : Schema :=
  mkSchema t None None None None [] true.

Definition object_schema (properties : list (string * Schema))
    (additionalProperties : bool) : Schema :=
  mkSchema [TObject] None None None None properties additionalProperties.

(** A component variant as the registry sees it. *)
Record Descriptor : Type := mkDescriptor {
  d_name : string;
  d_role : string;
  d_schema : Schema;
  d_problems : list string;
  d_depends : list string;
  d_defaults : list (string * Dict);
  d_available : bool
}.

Record Framework : Type := mkFramework {
  registry : list Descriptor;
  (** schemas of the sections that belong to no role ([problem], [backend]) *)
  section_schemas : list (string * Schema)
}.

(** The schemas of a framework are dictionaries. *)
Definition framework_wf (fw : Framework) : Prop :=
  Forall (fun d => schema_wf (d_schema d)) (registry fw)
  /\ Forall (fun ks => schema_wf (snd ks)) (section_schemas fw).

(** The defaults a schema declares are such values, at every level. *)
Fixpoint schema_defaults_wf (s : Schema) : Prop :=
  match s with
  | mkSchema _ d _ _ _ props _ =>
      match d with Some v => Text.wf v | None => True end
      /\ (fix all (ps : list (string * Schema)) : Prop :=
            match ps with
            | [] => True
            | (_, sk) :: ps' => schema_defaults_wf sk /\ all ps'
            end) props
  end.

(** The defaults of a framework are such values: those of the schemas and
    those the components declare for the roles they depend on. *)
Definition framework_defaults_wf (fw : Framework) : Prop :=
  Forall (fun d => schema_defaults_wf (d_schema d)
                   /\ Forall (fun rd => Text.wf (JObj (snd rd))) (d_defaults d))
         (registry fw)
  /\ Forall (fun ks => schema_defaults_wf (snd ks)) (section_schemas fw).


(** [QAOA.CONFIGURATION] ([qaoa.py], lines 35-76).  The [oneOf] with its
    single [enum] alternative is the [enum] constraint. *)
Definition QAOA_input_schema : Schema :=
  object_schema
    [ ("operator_mode",
       mkSchema [TString] (Some (JStr "matrix")) None
         (Some [JStr "matrix"; JStr "paulis"; JStr "grouped_paulis"])
         None [] true);
      ("p", mkSchema [TInteger] (Some (JInt 1)) (Some 1%Z) None None [] true);
      ("initial_point",
       mkSchema [TArray; TNull] (Some JNull) None None
         (Some (of_type [TNumber])) [] true);
      ("batch_mode",
       mkSchema [TBoolean] (Some (JBool false)) None None None [] true) ]
    false.

Definition QAOA_CONFIGURATION : Descriptor :=
  {| d_name := "QAOA.Variational";
     d_role := ALGORITHM;
     d_schema := QAOA_input_schema;
     d_problems := ["ising"];
     d_depends := ["optimizer"];
     d_defaults := [("optimizer", [("name", JStr "COBYLA")])];
     d_available := true |}.

(** [ISRES.CONFIGURATION.input_schema] ([isres.py], lines 40-51). *)
Definition ISRES_input_schema : Schema :=
  object_schema
    [ ("max_evals", mkSchema [TInteger] (Some (JInt 1000)) None None None [] true) ]
    false.

(** *** Registry *)

(** Modelled from the spec: the closed set of roles (section 3), under the
    section names of the configuration. *)
Definition is_role (section_name : string) : bool :=
  existsb (String.eqb section_name)
    ["algorithm"; "optimizer"; "variational_form"; "input"].

(** Modelled from the spec: the registry's [lookup(role, name)], of the
    discovery module, whose code is not embedded here.  A variant that is
    absent, or whose availability predicate is false, is not found. *)
Definition lookup (reg : list Descriptor) (role name : string) : Res Descriptor :=
  match find (fun d => String.eqb (d_role d) role && String.eqb (d_name d) name
                       && d_available d) reg with
  | Some d => Ok d
  | None => Err (ComponentNotFoundError role name)
  end.

(** Modelled from the spec: the registry's [list(role)]. *)
Definition list_role (reg : list Descriptor) (role : string) : list string :=
  map d_name (filter (fun d => String.eqb (d_role d) role && d_available d) reg).

(** *** Merging defaults (step 2) *)

(** One property of a schema laid over the fields of an object: a field that
    is there is completed by [merge] from the schema of the property, a field
    that is missing is created from the declared default, if any. *)
Definition complete_property (merge : Schema -> json -> json) (k : string)
    (sk : Schema) (fields : Dict) : Dict :=
  match dict_get k fields with
  | Some x => dict_set k (merge sk x) fields
  | None =>
      match s_default sk with
      | Some d => dict_set k (merge sk d) fields
      | None => fields
      end
  end.

Fixpoint complete (merge : Schema -> json -> json)
    (props : list (string * Schema)) (fields : Dict) : Dict :=
  match props with
  | [] => fields
  | (k, sk) :: props' => complete merge props' (complete_property merge k sk fields)
  end.

(** A field is settled for a property when one more pass leaves it alone. *)
Definition settled (merge : Schema -> json -> json) (k : string) (sk : Schema)
    (fields : Dict) : Prop :=
  match dict_get k fields with
  | Some x => merge sk x = x
  | None => s_default sk = None
  end.

(** Modelled from the spec: the default merge of [validate_merge_defaults],
    of the parser module, whose code is not embedded here.  A property
    that is absent takes the declared default; a sub-object, supplied or
    defaulted, is completed from the schema of its property. *)
Fixpoint merge_defaults (s : Schema) (v : json) {struct s} : json :=
  match v with
  | JObj fields =>
      match s with
      | mkSchema _ _ _ _ _ props _ => JObj (complete merge_defaults props fields)
      end
  | _ => v
  end.

Definition merge_section (s : Schema) (props : Dict) : Dict :=
  match merge_defaults s (JObj props) with
  | JObj fields => fields
  | _ => props
  end.

(** The properties a schema supplies by itself. *)
Definition default_properties (s : Schema) : Dict := merge_section s [].

(** *** Validation (step 3) *)

Definition has_type (t : JType) (v : json) : bool :=
  match t, v with
  | TString, JStr _ => true
  | TInteger, JInt _ => true
  | TNumber, JInt _ => true
  | TNumber, JFloat _ => true
  | TBoolean, JBool _ => true
  | TArray, JArr _ => true
  | TObject, JObj _ => true
  | TNull, JNull => true
  | _, _ => false
  end.

Definition type_ok (ts : list JType) (v : json) : bool :=
  match ts with
  | [] => true
  | _ => existsb (fun t => has_type t v) ts
  end.

Definition minimum_ok (m : option Z) (v : json) : bool :=
  match m, v with
  | Some lo, JInt z => (lo <=? z)%Z
  | Some lo, JFloat x => negb (PyFloat.ltb_Z x lo)
  | _, _ => true
  end.

Definition enum_ok (e : option (list json)) (v : json) : bool :=
  match e with
  | Some values => existsb (Text.py_eqb v) values
  | None => true
  end.

(** Modelled from the spec: whether a value meets a schema (type, [minimum],
    [enum], array items, known properties). *)
Fixpoint valid (s : Schema) (v : json) {struct v} : bool :=
  type_ok (s_type s) v && minimum_ok (s_minimum s) v && enum_ok (s_enum s) v
  && match v with
     | JArr items =>
         match s_items s with
         | Some si => forallb (valid si) items
         | None => true
         end
     | JObj fields =>
         forallb
           (fun kv =>
              match dict_get (fst kv) (s_properties s) with
              | Some sk => valid sk (snd kv)
              | None => s_additional s
              end) fields
     | _ => true
     end.

(** Whether a property of a section meets the schema of the section: the
    schema of the property when it is declared, and otherwise whether further
    properties are admitted. *)
Definition property_ok (s : Schema) (k : string) (x : json) : bool :=
  match dict_get k (s_properties s) with
  | Some sk => valid sk x
  | None => s_additional s
  end.

(** Modelled from the spec: validation of one merged section; the first
    offending property, in the order of the section, is reported. *)
Fixpoint validate_properties (section_name : string) (s : Schema) (props : Dict)
  : Res unit :=
  match props with
  | [] => Ok tt
  | (k, x) :: props' =>
      if property_ok s k x
      then validate_properties section_name s props'
      else Err (ConfigurationError section_name k)
  end.

(** *** Dependencies (step 1) *)

Fixpoint fold_res {A B : Type} (f : A -> B -> Res A) (l : list B) (a : A)
  : Res A :=
  match l with
  | [] => Ok a
  | b :: l' =>
      match f a b with
      | Ok a' => fold_res f l' a'
      | Err e => Err e
      end
  end.

Fixpoint map_res {A B : Type} (f : A -> Res B) (l : list A) : Res (list B) :=
  match l with
  | [] => Ok []
  | a :: l' =>
      b <- f a ;;
      bs <- map_res f l' ;;
      Ok (b :: bs)
  end.

(** The component a section selects: its [name], when that is a string. *)
Definition component_name (cfg : Config) (role : string) : option string :=
  match get_section_property cfg role NAME with
  | Some (JStr n) => Some n
  | _ => None
  end.

(** A declared default laid under a section: a property of the default is
    taken where the section has none. *)
Definition apply_default (dflt section : Dict) : Dict :=
  fold_left
    (fun sec kv =>
       match dict_get (fst kv) sec with
       | Some JNull | None => dict_set (fst kv) (snd kv) sec
       | Some _ => sec
       end)
    dflt section.

(** The component a property mapping names. *)
Definition named (props : Dict) : option string :=
  match dict_get NAME props with
  | Some (JStr n) => Some n
  | _ => None
  end.

(** [extends c c']: [c'] has the sections of [c] in the same places, a named
    section unchanged, and possibly further sections behind them. *)
Inductive extends : Config -> Config -> Prop :=
| extends_nil c' : extends [] c'
| extends_cons k v v' c c' :
    v' = v \/ named v = None ->
    extends c c' ->
    extends ((k, v) :: c) ((k, v') :: c').

Section WithFramework.

Context (fw : Framework).

(** One dependency of the component [d]: [visit_dep] is what the resolver
    does for the role [dep], [rec] being the visit of a section one step
    further down the chain and [on_path] the roles from the top down to the
    depending section. *)
Definition visit_dep (rec : string -> Config -> Res Config) (d : Descriptor)
    (on_path : list string) (cfg : Config) (dep : string) : Res Config :=
  if existsb (String.eqb dep) on_path then Err DependencyCycleError
  else
    match component_name cfg dep with
    | Some _ => rec dep cfg
    | None =>
        match dict_get dep (d_defaults d) with
        | Some dflt =>
            rec dep (dict_set dep (apply_default dflt (get_section cfg dep)) cfg)
        | None => Err DependencyResolutionError
        end
    end.

(** Modelled from the spec: step 1 of the resolver for the section of [role],
    reached through the sections of [path].  Each role the selected component
    depends on is visited in turn; a section without a name is first
    synthesised from the declared default.  A role that is already on the
    path closes a cycle.  [fuel] bounds the length of a chain. *)
Fixpoint visit (fuel : nat) (path : list string) (role : string) (cfg : Config)
  : Res Config :=
  match fuel with
  | O => Err DependencyResolutionError
  | S fuel' =>
      match component_name cfg role with
      | None => Err (ConfigurationError role NAME)
      | Some n =>
          d <- lookup (registry fw) role n ;;
          fold_res (visit_dep (visit fuel' (role :: path)) d (role :: path))
            (d_depends d) cfg
      end
  end.

Definition chain_bound : nat := S (List.length (registry fw)).

(** Every section of a role names its component. *)
Fixpoint check_names (cfg all : Config) : Res unit :=
  match cfg with
  | [] => Ok tt
  | (section_name, _) :: cfg' =>
      if is_role section_name then
        match component_name all section_name with
        | Some _ => check_names cfg' all
        | None => Err (ConfigurationError section_name NAME)
        end
      else check_names cfg' all
  end.

Definition resolve_dependencies (cfg : Config) : Res Config :=
  cfg1 <- match dict_get ALGORITHM cfg with
          | Some _ => visit chain_bound [] ALGORITHM cfg
          | None => Ok cfg
          end ;;
  _ <- check_names cfg1 cfg1 ;;
  Ok cfg1.

(** The schema of the component a role section selects, with the [name]
    property the section carries; for any other section the schema the
    framework declares, if any. *)
Definition with_name (s : Schema) : Schema :=
  mkSchema (s_type s) (s_default s) (s_minimum s) (s_enum s) (s_items s)
    (dict_set NAME (of_type [TString]) (s_properties s)) (s_additional s).

Definition schema_for (cfg : Config) (section_name : string) : Res (option Schema) :=
  if is_role section_name then
    match component_name cfg section_name with
    | Some n =>
        d <- lookup (registry fw) section_name n ;;
        Ok (Some (with_name (d_schema d)))
    | None => Err (ConfigurationError section_name NAME)
    end
  else Ok (dict_get section_name (section_schemas fw)).

(** Steps 2 and 3 for one section. *)
Definition resolve_section (cfg : Config) (sec : string * Dict)
  : Res (string * Dict) :=
  s <- schema_for cfg (fst sec) ;;
  match s with
  | Some s =>
      let merged := merge_section s (snd sec) in
      _ <- validate_properties (fst sec) s merged ;;
      Ok (fst sec, merged)
  | None => Ok sec
  end.

(** Modelled from the spec: [InputParser(params).parse()] followed by
    [validate_merge_defaults()] (section 4.2): dependencies, default merge
    and validation, section by section. *)
Definition resolve (cfg : Config) : Res Config :=
  cfg1 <- resolve_dependencies cfg ;;
  map_res (resolve_section cfg1) cfg1.

(** Whether every section but that of [role] passes steps 2 and 3. *)
Definition others_resolve (role : string) (cfg : Config) : bool :=
  forallb (fun sec => String.eqb (fst sec) role || is_ok (resolve_section cfg sec))
    cfg.

(** Whether steps 2 and 3, going through the sections in order and through
    the properties of a merged section in order, reject nothing in front of
    [property] of the section [section_name]. *)
Definition reached_first (cfg : Config) (section_name property : string) : bool :=
  forallb (fun sec => is_ok (resolve_section cfg sec)) (before_key section_name cfg)
  && match dict_get section_name cfg, schema_for cfg section_name with
     | Some props, Ok (Some s) =>
         forallb (fun kx => property_ok s (fst kx) (snd kx))
           (before_key property (merge_section s props))
     | _, _ => false
     end.

End WithFramework.

End Resolver.

(** ** The ISRES optimizer ([optimizers/nlopts/isres.py]) *)

Module Optimizers.

(** [Optimizer.SupportLevel] *)
Inductive SupportLevel : Type :=
| ignored
| supported
| required.

Record SupportLevels : Type := mkSupportLevels {
  gradient : SupportLevel;
  bounds : SupportLevel;
  initial_point : SupportLevel
}.

(** [ISRES.CONFIGURATION] (lines 37-59). *)
Record OptimizerConfiguration : Type := mkOptimizerConfiguration {
  name : string;
  description : string;
  input_schema : Resolver.Schema;
  support_level : SupportLevels;
  options : list string;
  optimizer : list string
}.

Definition ISRES_CONFIGURATION : OptimizerConfiguration :=
  {| name := "ISRES";
     description := "GN_ISRES Optimizer";
     input_schema := Resolver.ISRES_input_schema;
     support_level :=
       {| gradient := ignored; bounds := supported; initial_point := required |};
     options := ["max_evals"];
     optimizer := ["global"] |}.

(** *** The Python environment of the module *)

(** How [import nlopt] ends and what [importlib.util.find_spec] answers for a
    module name. *)
Record PyEnv : Type := mkPyEnv {
  import_module : string -> Res unit;
  find_spec : string -> Res (option nat)
}.

(** Lines 18-26: loading the module.  An [ImportError] of [import nlopt] is
    turned into an [ImportWarning], which is raised. *)
Definition load_module (env : PyEnv) : Res unit :=
  match import_module env "nlopt" with
  | Ok _ => Ok tt
  | Err ImportError => Err (ImportWarning "nlopt cannot be imported")
  | Err e => Err e
  end.

(** Lines 64-74.  The bare [except] swallows whatever [find_spec] raises. *)
Definition check_pluggable_valid (env : PyEnv) : bool :=
  match find_spec env "nlopt" with
  | Ok (Some _) => true
  | Ok None => false
  | Err _ => false
  end.

(** The availability of the variant as the registry can obtain it: the
    module is loaded, then the check of its class is called. *)
Definition availability (env : PyEnv) : Res bool :=
  match load_module env with
  | Ok _ => Ok (check_pluggable_valid env)
  | Err e => Err e
  end.

(** *** Optimisation *)

Section WithNumbers.

(** The numeric domain of parameters and objective values, and what the
    numeric routine returns. *)
Context {R Result : Type}.

Definition Point : Type := list R.
Definition Objective : Type := Point -> R.
Definition Gradient : Type := Point -> list R.
Definition Bounds : Type := list (option R * option R).

Inductive NloptAlgorithm : Type :=
| GN_ISRES.

(** A computation that may evaluate the objective: the number of evaluations
    so far is threaded through. *)
Definition Opt (A : Type) : Type := nat -> Res A * nat.

(** [_nloptimizer.minimize(name, objective_function, variable_bounds,
    initial_point, **options)], whose code is not embedded here: any
    routine of this shape. *)
Definition Minimize : Type :=
  NloptAlgorithm -> Objective -> option Bounds -> option Point -> Dict -> Opt Result.

Definition is_required (l : SupportLevel) : bool :=
  match l with required => true | _ => false end.

Definition absent {A : Type} (x : option A) : bool :=
  match x with None => true | Some _ => false end.

(** Modelled from the spec: [Optimizer.optimize] of the base class, which is
    not embedded here.  The problem is checked against the
    declared support levels; a capability that is required and absent
    fails. *)
Definition Optimizer_optimize (levels : SupportLevels) (num_vars : nat)
    (objective_function : Objective) (gradient_function : option Gradient)
    (variable_bounds : option Bounds) (initial_point : option Point)
  : Res unit :=
  if is_required (gradient levels) && absent gradient_function
  then Err (OptimizerCapabilityError "gradient")
  else if is_required (bounds levels) && absent variable_bounds
  then Err (OptimizerCapabilityError "bounds")
  else if is_required (Optimizers.initial_point levels) && absent initial_point
  then Err (OptimizerCapabilityError "initial_point")
  else Ok tt.

(** An [ISRES] instance: the options set from its configuration. *)
Record ISRES : Type := mkISRES {
  _options : Dict
}.

(** Lines 76-80. *)
Definition optimize (minimize : Minimize) (self : ISRES) (num_vars : nat)
    (objective_function : Objective) (gradient_function : option Gradient)
    (variable_bounds : option Bounds) (initial_point : option Point)
  : Opt Result :=
  fun evaluations =>
    match Optimizer_optimize (support_level ISRES_CONFIGURATION) num_vars
            objective_function gradient_function variable_bounds initial_point
    with
    | Err e => (Err e, evaluations)
    | Ok _ =>
        minimize GN_ISRES objective_function variable_bounds initial_point
          (_options self) evaluations
    end.

End WithNumbers.

End Optimizers.

(** ** The QAOA algorithm ([algorithms/adaptive/qaoa/qaoa.py]) *)

Module QAOA.

(** What [init_params] and the constructor raise: the [AquaError] of line
    103, what Python raises on [None.get], [None[...]] and a missing key, and
    whatever a collaborator raises. *)
Inductive Exception : Type :=
| AquaError (message : string)
| AttributeError (attribute : string)
| TypeError
| KeyError (key : string)
| Raised (e : Error).

Inductive Outcome (A : Type) : Type :=
| Returns (a : A)
| Raises (exc : Exception).

Arguments Returns {A} a.
Arguments Raises {A} exc.

(** [d.get(k)]: Python's [None], which is JSON's null, for a missing key. *)
Definition py_get (k : string) (d : Dict) : json :=
  match dict_get k d with
  | Some v => v
  | None => JNull
  end.

Section WithCollaborators.

(** The qubit operator, the auxiliary operators, the optimizer, the
    variational form and the initialised [VQE] object. *)
Context {Operator AuxOps Optimizer VarForm Instance : Type}.

(** [EnergyInput]: the attributes that are read. *)
Record EnergyInput : Type := mkEnergyInput {
  qubit_op : Operator;
  aux_ops : AuxOps
}.

(** [locals()] at line 88: the arguments of the constructor. *)
Record Locals : Type := mkLocals {
  l_operator : Operator;
  l_optimizer : Optimizer;
  l_p : json;
  l_operator_mode : json;
  l_initial_point : json;
  l_batch_mode : json;
  l_aux_operators : AuxOps
}.

(** Calls that leave the class. *)
Inductive Call : Type :=
| EvOptimizerInitParams (name : json) (opt_params : Dict)
| EvValidate (args : Locals)
| EvQAOAVarForm (operator : Operator) (p : json)
| EvVQEInit (operator : Operator) (var_form : VarForm) (optimizer : Optimizer)
    (operator_mode initial_point : json).

Record Collaborators : Type := mkCollaborators {
  (** [get_pluggable_class(PluggableType.OPTIMIZER, name).init_params(opt_params)] *)
  optimizer_init_params : json -> Dict -> Res Optimizer;
  (** [self.validate(args)] *)
  validate : Locals -> Res unit;
  (** [QAOAVarForm(operator, p)] *)
  QAOAVarForm : Operator -> json -> Res VarForm;
  (** [VQE.__init__(operator, var_form, optimizer, operator_mode=...,
      initial_point=...)] *)
  VQE_init : Operator -> VarForm -> Optimizer -> json -> json -> Res Instance
}.

(** A construction in progress: what is returned or raised, and the calls so
    far (most recent last). *)
Definition Build (A : Type) : Type := list Call -> Outcome A * list Call.

Definition returning {A : Type} (a : A) : Build A := fun tr => (Returns a, tr).

Definition raising {A : Type} (exc : Exception) : Build A := fun tr => (Raises exc, tr).

Definition and_then {A B : Type} (m : Build A) (k : A -> Build B) : Build B :=
  fun tr =>
    match m tr with
    | (Returns a, tr') => k a tr'
    | (Raises exc, tr') => (Raises exc, tr')
    end.

(** An external call: it is recorded, then the collaborator answers. *)
Definition external {A : Type} (ev : Call) (r : Res A) : Build A :=
  fun tr =>
    (match r with Ok a => Returns a | Err e => Raises (Raised e) end,
     (tr ++ [ev])%list).

Declare Scope qaoa_scope.
Delimit Scope qaoa_scope with qaoa.
Notation "x <- m ;; k" := (and_then m (fun x => k))
  (at level 61, m at next level, right associativity) : qaoa_scope.
Notation "m ;;; k" := (and_then m (fun _ => k))
  (at level 61, right associativity) : qaoa_scope.

(** [QuantumAlgorithm.SECTION_KEY_ALGORITHM] and
    [QuantumAlgorithm.SECTION_KEY_OPTIMIZER]. *)
Context (SECTION_KEY_ALGORITHM SECTION_KEY_OPTIMIZER : string).

Context (C : Collaborators).

Local Open Scope qaoa_scope.

(** Lines 78-91. *)
Definition __init__ (operator : Operator) (optimizer : Optimizer)
    (p operator_mode initial_point batch_mode : json) (aux_operators : AuxOps)
  : Build Instance :=
  let args := mkLocals operator optimizer p operator_mode initial_point
                batch_mode aux_operators in
  external (EvValidate args) (validate C args) ;;;
  var_form <- external (EvQAOAVarForm operator p) (QAOAVarForm C operator p) ;;
  external (EvVQEInit operator var_form optimizer operator_mode initial_point)
       (VQE_init C operator var_form optimizer operator_mode initial_point).

(** Lines 93-120. *)
Definition init_params (params : Config) (algo_input : option EnergyInput)
  : Build Instance :=
  match algo_input with
  | None => raising (AquaError "EnergyInput instance is required.")
  | Some algo_input =>
      let operator := qubit_op algo_input in
      match dict_get SECTION_KEY_ALGORITHM params with
      | None => raising (AttributeError "get")
      | Some qaoa_params =>
          let operator_mode := py_get "operator_mode" qaoa_params in
          let p := py_get "p" qaoa_params in
          let initial_point := py_get "initial_point" qaoa_params in
          let batch_mode := py_get "batch_mode" qaoa_params in
          match dict_get SECTION_KEY_OPTIMIZER params with
          | None => raising TypeError
          | Some opt_params =>
              match dict_get "name" opt_params with
              | None => raising (KeyError "name")
              | Some name =>
                  optimizer <- external (EvOptimizerInitParams name opt_params)
                                    (optimizer_init_params C name opt_params) ;;
                  __init__ operator optimizer p operator_mode initial_point
                    batch_mode (aux_ops algo_input)
              end
          end
      end
  end.

End WithCollaborators.

End QAOA.

(** ** Records of calls *)

Module Traces.

(** A computation of the driver that only appends to the record of calls,
    and does the same whatever was recorded before. *)
Definition appends {A : Type} (m : Driver.M A) : Prop :=
  forall tr, m tr = (fst (m []), (tr ++ snd (m []))%list).

End Traces.

(** ** Characters of the persisted text *)

Module Charset.

(** A printable ASCII character or a line feed. *)
Definition plain (c : ascii) : bool :=
  let n := N_of_ascii c in
  ((n =? 10) || ((32 <=? n) && (n <=? 126)))%N.

End Charset.

(** ** Sample registrations, configurations and collaborators *)

Module Samples.

Import Resolver.

(** A registration of COBYLA.  Its schema is not embedded here;
    the theorems quantify over it and use this one as an instance. *)
Definition COBYLA : Descriptor :=
  {| d_name := "COBYLA";
     d_role := OPTIMIZER;
     d_schema :=
       object_schema
         [ ("maxiter", mkSchema [TInteger] (Some (JInt 1000)) None None None [] true);
           ("disp", mkSchema [TBoolean] (Some (JBool false)) None None None [] true);
           ("rhobeg", mkSchema [TNumber] (Some (JInt 1)) None None None [] true);
           ("tol", mkSchema [TNumber; TNull] (Some JNull) None None None [] true) ]
         false;
     d_problems := [];
     d_depends := [];
     d_defaults := [];
     d_available := true |}.

Definition problem_schema : Schema :=
  object_schema
    [ ("random_seed", mkSchema [TInteger; TNull] (Some JNull) None None None [] true) ]
    true.

Definition framework : Framework :=
  {| registry := [QAOA_CONFIGURATION; COBYLA];
     section_schemas := [(PROBLEM, problem_schema)] |}.

(** Collaborators that always succeed, on top of the resolver. *)
Definition externals : Driver.Externals :=
  {| Driver.Algorithm := unit;
     Driver.Value := Dict;
     Driver.resolve := resolve framework;
     Driver.local_algorithms := ["QAOA.Variational"];
     Driver.from_params := fun _ props => Ok (Driver.mkAlgorithmInput props "EnergyInput");
     Driver.init_params := fun _ _ _ => Ok tt;
     Driver.set_random_seed := fun a _ => a;
     Driver.setup_quantum_backend := fun a _ => Ok a;
     Driver.run := fun _ => Ok [("energy", JInt 0)];
     Driver.value_is_dict := fun _ => true;
     Driver.convert_value_to_json := fun v => v;
     Driver.convert_dict_to_json := fun d => d;
     Driver.convert_json_to_dict := fun d => d;
     Driver.file_write := fun _ _ => Ok tt |}.

Definition qaoa_only : Config :=
  [(ALGORITHM, [(NAME, JStr "QAOA.Variational")])].

Definition qaoa_p0 : Config :=
  [(ALGORITHM, [(NAME, JStr "QAOA.Variational"); ("p", JInt 0)])].

(** [p = 0] behind a problem section and behind an admitted operator mode,
    the name last. *)
Definition qaoa_late_p0 : Config :=
  [(PROBLEM, [("random_seed", JInt 7)]);
   (ALGORITHM,
    [("operator_mode", JStr "paulis"); ("p", JInt 0);
     (NAME, JStr "QAOA.Variational")])].

(** QAOA with a depth of its own and a problem section; no optimizer. *)
Definition qaoa_p3_seeded : Config :=
  [(ALGORITHM, [(NAME, JStr "QAOA.Variational"); ("p", JInt 3)]);
   (PROBLEM, [("random_seed", JInt 7)])].

Definition qaoa_bad_mode_p0 : Config :=
  [(ALGORITHM,
    [(NAME, JStr "QAOA.Variational"); ("operator_mode", JStr "dense"); ("p", JInt 0)])].




Definition qaoa_with_backend : Config :=
  [(ALGORITHM, [(NAME, JStr "QAOA.Variational")]);
   (BACKEND, [(NAME, JStr "qasm_simulator"); ("shots", JInt 100)])].

Definition qaoa_backend_clash : Config :=
  [(ALGORITHM, [(NAME, JStr "QAOA.Variational")]);
   (BACKEND, [(NAME, JStr "qasm_simulator"); ("backend", JStr "other")])].

Definition a_backend : Driver.PyObject := Driver.mkPyObject 1 true.

Definition an_input : Driver.AlgorithmInput :=
  Driver.mkAlgorithmInput [("qubit_op", JObj [("paulis", JArr [])])] "EnergyInput".

(** A numeric routine that evaluates the objective once, at the initial
    point. *)
Definition evaluate_once : @Optimizers.Minimize Z Z :=
  fun _ objective_function _ initial_point _ evaluations =>
    match initial_point with
    | Some x => (Ok (objective_function x), S evaluations)
    | None => (Err (ForeignError "nlopt"), evaluations)
    end.

(** An environment without nlopt. *)
Definition no_nlopt : Optimizers.PyEnv :=
  {| Optimizers.import_module := fun _ => Err ImportError;
     Optimizers.find_spec := fun _ => Ok None |}.

Definition with_nlopt : Optimizers.PyEnv :=
  {| Optimizers.import_module := fun _ => Ok tt;
     Optimizers.find_spec := fun _ => Ok (Some 0) |}.

End Samples.

(** ** Further collaborators and configurations *)

Module Scenarios.

(** Collaborators for configurations that are already resolved: the resolver
    returns them as they are, and the input artifact built from a section
    holds the properties it was given. *)
Definition resolved : Driver.Externals :=
  {| Driver.Algorithm := option Driver.AlgorithmInput;
     Driver.Value := Dict;
     Driver.resolve := fun cfg => Ok cfg;
     Driver.local_algorithms := ["QAOA.Variational"];
     Driver.from_params := fun n props => Ok (Driver.mkAlgorithmInput props n);
     Driver.init_params := fun _ _ algo_input => Ok algo_input;
     Driver.set_random_seed := fun a _ => a;
     Driver.setup_quantum_backend := fun a _ => Ok a;
     Driver.run := fun _ => Ok [("energy", JInt 0)];
     Driver.value_is_dict := fun _ => true;
     Driver.convert_value_to_json := fun v => v;
     Driver.convert_dict_to_json := fun d => d;
     Driver.convert_json_to_dict := fun d => d;
     Driver.file_write := fun _ _ => Ok tt |}.

Definition qaoa_resolved : Config :=
  [(ALGORITHM,
    [(NAME, JStr "QAOA.Variational"); ("operator_mode", JStr "matrix");
     ("p", JInt 1); ("initial_point", JNull); ("batch_mode", JBool false)]);
   (OPTIMIZER,
    [(NAME, JStr "COBYLA"); ("maxiter", JInt 1000); ("disp", JBool false);
     ("rhobeg", JInt 1); ("tol", JNull)])].

(** The same configuration with its sections and properties in another
    order. *)
Definition qaoa_reordered : Config :=
  [(OPTIMIZER,
    [("tol", JNull); ("rhobeg", JInt 1); (NAME, JStr "COBYLA");
     ("disp", JBool false); ("maxiter", JInt 1000)]);
   (ALGORITHM,
    [("p", JInt 1); ("batch_mode", JBool false); (NAME, JStr "QAOA.Variational");
     ("initial_point", JNull); ("operator_mode", JStr "matrix")])].

Definition qaoa_with_input : Config :=
  (qaoa_resolved
   ++ [(INPUT, [(NAME, JStr "EnergyInput"); ("qubit_op", JObj [("paulis", JArr [])])])])%list.

Definition qaoa_unnamed_backend : Config :=
  (qaoa_resolved ++ [(BACKEND, [("shots", JInt 100)])])%list.

Definition unregistered : Config :=
  [(ALGORITHM, [(NAME, JStr "VQE")])].

Definition not_a_backend : Driver.PyObject := Driver.mkPyObject 2 false.

(** Collaborators of QAOA over strings: every one succeeds and answers with
    a description of what it was given. *)
Definition builders : @QAOA.Collaborators string string string string string :=
  {| QAOA.optimizer_init_params :=
       fun name _ => Ok match name with JStr n => n | _ => "" end;
     QAOA.validate := fun _ => Ok tt;
     QAOA.QAOAVarForm := fun operator _ => Ok ("QAOAVarForm(" ++ operator ++ ")");
     QAOA.VQE_init :=
       fun operator var_form optimizer _ _ =>
         Ok ("VQE(" ++ operator ++ "," ++ var_form ++ "," ++ optimizer ++ ")") |}.

Definition an_energy_input : @QAOA.EnergyInput string string :=
  QAOA.mkEnergyInput "ZZ" "none".

(** A configuration with characters that are not printable ASCII. *)
Definition qaoa_with_note : Config :=
  (qaoa_resolved
   ++ [(PROBLEM, [(NAME, JStr (String "233" (String "009" "t")))])])%list.

(** An environment in which nlopt can be imported but [find_spec] fails. *)
Definition broken_finder : Optimizers.PyEnv :=
  {| Optimizers.import_module := fun _ => Ok tt;
     Optimizers.find_spec := fun _ => Err (ForeignError "ValueError") |}.

End Scenarios.

(** ** Statements under examination *)

Module Statements.

Import Driver.

(** Every pair of the backend section but [name] reaches
    [setup_quantum_backend] unchanged, and [backend] carries the selected
    name. *)
Definition forwards_all_but_name (E : Externals) (params : Config) : Prop :=
  forall algo_input json_output backend sections n kwargs,
    resolve E params = Ok sections ->
    get_section_property sections BACKEND NAME = Some n ->
    In (EvSetupQuantumBackend kwargs)
       (snd (run_algorithm E params algo_input json_output backend [])) ->
    (forall k v, k <> "name" ->
                 dict_get k (get_section sections BACKEND) = Some v ->
                 dict_get k kwargs = Some (KwJson v))
    /\ dict_get "backend" kwargs = Some (KwJson n).

(** Without nlopt the variant is reported unavailable, and nothing is
    raised. *)
Definition excluded_without_failure (env : Optimizers.PyEnv) : Prop :=
  Optimizers.import_module env "nlopt" = Err ImportError ->
  Optimizers.find_spec env "nlopt" = Ok None ->
  Optimizers.availability env = Ok false.

(** A configuration that selects QAOA and leaves the optimizer section out,
    or empty, resolves, and its optimizer section is COBYLA with the defaults
    of COBYLA's schema. *)
Definition qaoa_defaults_optimizer (fw : Resolver.Framework)
    (cobyla : Resolver.Descriptor)
    (cfg : Config) : Prop :=
  Resolver.component_name cfg ALGORITHM = Some "QAOA.Variational" ->
  dict_get OPTIMIZER cfg = None \/ dict_get OPTIMIZER cfg = Some [] ->
  exists r,
    Resolver.resolve fw cfg = Ok r
    /\ dict_get OPTIMIZER r
       = Some ((NAME, JStr "COBYLA") :: Resolver.default_properties (Resolver.d_schema cobyla)).


(** A configuration whose algorithm section selects QAOA and sets [p] to 0
    fails with the configuration error of section [algorithm], property
    [p]. *)
Definition p_zero_names_p (fw : Resolver.Framework) (cfg : Config) : Prop :=
  forall alg,
    dict_get ALGORITHM cfg = Some alg ->
    dict_get NAME alg = Some (JStr "QAOA.Variational") ->
    dict_get "p" alg = Some (JInt 0) ->
    Resolver.resolve fw cfg = Err (ConfigurationError ALGORITHM "p").

End Statements.

(** * Properties *)

(** ** Dictionaries *)

Section DictFacts.

Context {V : Type}.

Implicit Types (k : string) (d : list (string * V)).

Lemma dict_get_set_same k (v : V) d : dict_get k (dict_set k v d) = Some v.
Proof.
  induction d as [|[k' v'] d IH]; simpl.
  - now rewrite String.eqb_refl.
  - destruct (String.eqb k k') eqn:Hk; simpl; rewrite Hk; auto.
Qed.

Lemma dict_get_set_other k k' (v : V) d :
  k <> k' -> dict_get k (dict_set k' v d) = dict_get k d.
Proof.
  intros Hne. induction d as [|[k0 v0] d IH]; simpl.
  - apply String.eqb_neq in Hne. now rewrite Hne.
  - destruct (String.eqb k' k0) eqn:Hk; simpl.
    + apply String.eqb_eq in Hk; subst k0.
      apply String.eqb_neq in Hne. now rewrite Hne.
    + now rewrite IH.
Qed.

Lemma dict_set_get_same k (v : V) d :
  dict_get k d = Some v -> dict_set k v d = d.
Proof.
  induction d as [|[k' v'] d IH]; simpl; [discriminate|].
  destruct (String.eqb k k') eqn:Hk.
  - intros [= ->]. reflexivity.
  - intros H. now rewrite IH.
Qed.

Lemma dict_keys_set_present k (v : V) d :
  dict_get k d <> None -> dict_keys (dict_set k v d) = dict_keys d.
Proof.
  unfold dict_keys.
  induction d as [|[k' v'] d IH]; simpl; [congruence|].
  destruct (String.eqb k k') eqn:Hk; simpl; [reflexivity|].
  intros H. now rewrite IH.
Qed.

Lemma dict_get_None_not_In k d :
  dict_get k d = None <-> ~ In k (dict_keys d).
Proof.
  unfold dict_keys.
  induction d as [|[k' v'] d IH]; simpl; [tauto|].
  destruct (String.eqb k k') eqn:Hk.
  - apply String.eqb_eq in Hk; subst. split; [discriminate|]. intros H; exfalso; auto.
  - apply String.eqb_neq in Hk. rewrite IH. split; intros H; [intros [->|?]; tauto|tauto].
Qed.

Lemma dict_keys_set_absent k (v : V) d :
  dict_get k d = None -> dict_set k v d = (d ++ [(k, v)])%list.
Proof.
  induction d as [|[k' v'] d IH]; simpl; [reflexivity|].
  destruct (String.eqb k k') eqn:Hk; [discriminate|].
  intros H. now rewrite IH.
Qed.

End DictFacts.

Ltac break_match :=
  match goal with
  | H : context [match ?x with _ => _ end] |- _ => destruct x eqn:?
  | |- context [match ?x with _ => _ end] => destruct x eqn:?
  end.

(** ** The execution driver *)

Module DriverFacts.

Import Driver.

Section WithExternals.

Context (E : Externals).

Lemma dict_get_without_name k section :
  k <> "name" ->
  dict_get k (without_name section) = option_map KwJson (dict_get k section).
Proof.
  intros Hne. unfold without_name. remember "name" as nm.
  induction section as [|[k' v] section IH]; simpl; [reflexivity|].
  destruct (String.eqb k' nm) eqn:Hn; simpl.
  - apply String.eqb_eq in Hn; subst k'.
    apply String.eqb_neq in Hne. now rewrite Hne.
  - destruct (String.eqb k k'); [reflexivity|exact IH].
Qed.

Lemma dict_get_without_name_name section :
  dict_get "name" (without_name section) = None.
Proof.
  unfold without_name. remember "name" as nm.
  induction section as [|[k' v] section IH]; simpl; [reflexivity|].
  destruct (String.eqb k' nm) eqn:Hn; simpl; [exact IH|].
  rewrite String.eqb_sym, Hn. exact IH.
Qed.

(** A call of [setup_quantum_backend] carries the arguments of lines 66-76. *)
Lemma setup_event_backend_cfg params algo_input json_output backend kwargs :
  In (EvSetupQuantumBackend kwargs)
     (snd (run_algorithm E params algo_input json_output backend [])) ->
  exists sections,
    resolve E params = Ok sections /\ backend_cfg sections backend = Some kwargs.
Proof.
  unfold run_algorithm, resolve_algo_input, call, bind, lift, emit, ret, raise.
  intros H.
  destruct (resolve E params) as [sections|] eqn:Hr; simpl in H; [|tauto].
  exists sections; split; [reflexivity|].
  repeat (break_match; simpl in *; try tauto; try discriminate);
  repeat match goal with
         | H : (_, _) = (_, _) |- _ => inversion H; subst; clear H
         | H : Ok _ = Ok _ |- _ => inversion H; subst; clear H
         end; simpl in *;
  intuition (try discriminate; try congruence).
Qed.

(** A run that returns has called [setup_quantum_backend] whenever lines
    66-76 produced arguments. *)
Lemma setup_event_happens params algo_input json_output backend sections kwargs :
  resolve E params = Ok sections ->
  backend_cfg sections backend = Some kwargs ->
  is_ok (fst (run_algorithm E params algo_input json_output backend [])) = true ->
  In (EvSetupQuantumBackend kwargs)
     (snd (run_algorithm E params algo_input json_output backend [])).
Proof.
  unfold run_algorithm, resolve_algo_input, call, bind, lift, emit, ret, raise.
  intros Hr Hcfg. rewrite Hr; simpl. rewrite Hcfg.
  repeat (break_match; simpl in *; try tauto; try discriminate);
  repeat match goal with
         | H : (_, _) = (_, _) |- _ => inversion H; subst; clear H
         | H : Ok _ = Ok _ |- _ => inversion H; subst; clear H
         end; simpl in *;
  intros _; rewrite ?in_app_iff; simpl; auto 10.
Qed.

(** When resolution fails nothing is called. *)
Lemma resolution_failure_stops params algo_input json_output backend e :
  resolve E params = Err e ->
  run_algorithm E params algo_input json_output backend [] = (Err e, []).
Proof.
  intros Hr. unfold run_algorithm, bind, lift. now rewrite Hr.
Qed.

Lemma backend_cfg_named sections backend n :
  get_section_property sections BACKEND NAME = Some n ->
  backend_cfg sections backend
  = Some (dict_set "backend"
            match is_BaseBackend backend with
            | Some b => KwObject b
            | None => KwJson n
            end
            (without_name (get_section sections BACKEND))).
Proof.
  intros Hn. unfold backend_cfg. rewrite Hn.
  destruct (is_BaseBackend backend) as [b|]; [|reflexivity].
  f_equal.
  generalize (without_name (get_section sections BACKEND)) as d.
  remember "backend" as bk.
  induction d as [|[k v] d IH]; simpl.
  - now rewrite String.eqb_refl.
  - destruct (String.eqb bk k) eqn:Hk; simpl; rewrite Hk; [reflexivity|].
    now rewrite IH.
Qed.

Lemma backend_cfg_unnamed sections backend :
  get_section_property sections BACKEND NAME = None ->
  backend_cfg sections backend
  = match is_BaseBackend backend with
    | Some b => Some [("backend", KwObject b)]
    | None => None
    end.
Proof.
  intros Hn. unfold backend_cfg. rewrite Hn.
  destruct (is_BaseBackend backend); reflexivity.
Qed.

End WithExternals.

End DriverFacts.


(** ** Claims on the execution driver *)

Module DriverClaims.

Import Driver DriverFacts.

(** C7, as amended.  When the resolved configuration names a backend, a call
    of [setup_quantum_backend] receives every pair of the resolved backend
    section whose key is neither [name] nor [backend], unchanged, and nothing
    else besides the key [backend]; [backend] carries the selected name, or
    the [BaseBackend] instance when one was supplied.  A run that returns has
    made that call. *)
Theorem backend_section_forwarded
    (E : Externals) (params : Config) (algo_input : option AlgorithmInput)
    (json_output : bool) (backend : option PyObject) (sections : Config)
    (n : json) :
  resolve E params = Ok sections ->
  get_section_property sections BACKEND NAME = Some n ->
  let out := run_algorithm E params algo_input json_output backend [] in
  (is_ok (fst out) = true -> exists kwargs, In (EvSetupQuantumBackend kwargs) (snd out))
  /\ forall kwargs,
      In (EvSetupQuantumBackend kwargs) (snd out) ->
      (forall k v, k <> "name" -> k <> "backend" ->
                   dict_get k (get_section sections BACKEND) = Some v ->
                   dict_get k kwargs = Some (KwJson v))
      /\ (forall k, dict_get k kwargs <> None ->
                    k = "backend"
                    \/ (k <> "name" /\ dict_get k (get_section sections BACKEND) <> None))
      /\ dict_get "backend" kwargs
         = Some match is_BaseBackend backend with
                | Some b => KwObject b
                | None => KwJson n
                end.
Proof.
  intros Hr Hn out. subst out. split.
  - intros Hok. pose proof (backend_cfg_named sections backend n Hn) as Hcfg.
    eexists. eapply setup_event_happens; [exact Hr|exact Hcfg|exact Hok].
  - intros kwargs Hin.
    apply setup_event_backend_cfg in Hin as (sections' & Hr' & Hcfg).
    rewrite Hr in Hr'. injection Hr' as <-.
    rewrite (backend_cfg_named _ _ _ Hn) in Hcfg. injection Hcfg as <-.
    repeat split.
    + intros k v Hk1 Hk2 Hget.
      rewrite dict_get_set_other by exact Hk2.
      rewrite dict_get_without_name by exact Hk1. now rewrite Hget.
    + intros k Hk. destruct (String.eqb k "backend") eqn:Hb.
      * left. now apply String.eqb_eq.
      * right. apply String.eqb_neq in Hb.
        rewrite dict_get_set_other in Hk by exact Hb.
        destruct (String.eqb k "name") eqn:Hnm.
        -- apply String.eqb_eq in Hnm; subst k.
           now rewrite dict_get_without_name_name in Hk.
        -- apply String.eqb_neq in Hnm. split; [exact Hnm|].
           rewrite dict_get_without_name in Hk by exact Hnm.
           destruct (dict_get k (get_section sections BACKEND)); simpl in Hk; congruence.
    + apply dict_get_set_same.
Qed.

Lemma backend_section_forwarded_witness :
  exists kwargs,
    In (EvSetupQuantumBackend kwargs)
       (snd (run_algorithm Samples.externals Samples.qaoa_with_backend None false None []))
    /\ dict_get "shots" kwargs = Some (KwJson (JInt 100))
    /\ dict_get "backend" kwargs = Some (KwJson (JStr "qasm_simulator")).
Proof.
  destruct (backend_section_forwarded Samples.externals Samples.qaoa_with_backend
              None false None
              [(ALGORITHM,
                [(NAME, JStr "QAOA.Variational"); ("operator_mode", JStr "matrix");
                 ("p", JInt 1); ("initial_point", JNull); ("batch_mode", JBool false)]);
               (BACKEND, [(NAME, JStr "qasm_simulator"); ("shots", JInt 100)]);
               (OPTIMIZER,
                [(NAME, JStr "COBYLA"); ("maxiter", JInt 1000); ("disp", JBool false);
                 ("rhobeg", JInt 1); ("tol", JNull)])]
              (JStr "qasm_simulator"))
    as [Hlive Hsafe].
  - vm_compute. reflexivity.
  - vm_compute. reflexivity.
  - destruct Hlive as [kwargs Hin]; [vm_compute; reflexivity|].
    exists kwargs. split; [exact Hin|].
    destruct (Hsafe kwargs Hin) as (Hfwd & _ & Hb). split.
    + apply Hfwd; [discriminate|discriminate|reflexivity].
    + exact Hb.
Defined.

(** C7, as stated, fails for a backend section that itself has a key
    [backend]: line 70 replaces its value by the selected name. *)
Lemma backend_key_is_overwritten :
  ~ Statements.forwards_all_but_name Samples.externals Samples.qaoa_backend_clash.
Proof.
  intros H.
  destruct (H None false None
              [(ALGORITHM,
                [(NAME, JStr "QAOA.Variational"); ("operator_mode", JStr "matrix");
                 ("p", JInt 1); ("initial_point", JNull); ("batch_mode", JBool false)]);
               (BACKEND, [(NAME, JStr "qasm_simulator"); ("backend", JStr "other")]);
               (OPTIMIZER,
                [(NAME, JStr "COBYLA"); ("maxiter", JInt 1000); ("disp", JBool false);
                 ("rhobeg", JInt 1); ("tol", JNull)])]
              (JStr "qasm_simulator")
              [("backend", KwJson (JStr "qasm_simulator"))])
    as [Hfwd _].
  - vm_compute. reflexivity.
  - vm_compute. reflexivity.
  - vm_compute. auto 10.
  - specialize (Hfwd "backend" (JStr "other")).
    assert (Hc : dict_get "backend" [("backend", KwJson (JStr "qasm_simulator"))]
                 = Some (KwJson (JStr "other"))).
    { apply Hfwd; [discriminate|reflexivity]. }
    discriminate Hc.
Qed.

(** C10.  With a [BaseBackend] instance as [backend] argument, a call of
    [setup_quantum_backend] has that instance under [backend], whatever name
    the configuration selects; the other pairs of a named backend section are
    still forwarded; and when the configuration names no backend the
    arguments are the instance alone.  A run that returns has made the
    call. *)
Theorem backend_object_overrides
    (E : Externals) (params : Config) (algo_input : option AlgorithmInput)
    (json_output : bool) (b : PyObject) (sections : Config) :
  py_is_BaseBackend b = true ->
  resolve E params = Ok sections ->
  let out := run_algorithm E params algo_input json_output (Some b) [] in
  (is_ok (fst out) = true -> exists kwargs, In (EvSetupQuantumBackend kwargs) (snd out))
  /\ forall kwargs,
      In (EvSetupQuantumBackend kwargs) (snd out) ->
      dict_get "backend" kwargs = Some (KwObject b)
      /\ (forall n k v,
             get_section_property sections BACKEND NAME = Some n ->
             k <> "name" -> k <> "backend" ->
             dict_get k (get_section sections BACKEND) = Some v ->
             dict_get k kwargs = Some (KwJson v))
      /\ (get_section_property sections BACKEND NAME = None ->
          kwargs = [("backend", KwObject b)]).
Proof.
  intros Hb Hr out. subst out.
  assert (His : is_BaseBackend (Some b) = Some b) by (simpl; now rewrite Hb).
  split.
  - intros Hok.
    destruct (get_section_property sections BACKEND NAME) as [n|] eqn:Hn.
    + pose proof (backend_cfg_named sections (Some b) n Hn) as Hcfg.
      eexists. eapply setup_event_happens; [exact Hr|exact Hcfg|exact Hok].
    + pose proof (backend_cfg_unnamed sections (Some b) Hn) as Hcfg.
      rewrite His in Hcfg.
      eexists. eapply setup_event_happens; [exact Hr|exact Hcfg|exact Hok].
  - intros kwargs Hin.
    apply setup_event_backend_cfg in Hin as (sections' & Hr' & Hcfg).
    rewrite Hr in Hr'. injection Hr' as <-.
    destruct (get_section_property sections BACKEND NAME) as [n|] eqn:Hn.
    + rewrite (backend_cfg_named _ _ _ Hn), His in Hcfg. injection Hcfg as <-.
      repeat split.
      * apply dict_get_set_same.
      * intros n' k v _ Hk1 Hk2 Hget.
        rewrite dict_get_set_other by exact Hk2.
        rewrite dict_get_without_name by exact Hk1. now rewrite Hget.
      * discriminate.
    + rewrite backend_cfg_unnamed, His in Hcfg by exact Hn. injection Hcfg as <-.
      repeat split.
      intros n' k v Hn'. discriminate.
Qed.

Lemma backend_object_overrides_witness :
  exists kwargs,
    In (EvSetupQuantumBackend kwargs)
       (snd (run_algorithm Samples.externals Samples.qaoa_with_backend None false
               (Some Samples.a_backend) []))
    /\ dict_get "backend" kwargs = Some (KwObject Samples.a_backend)
    /\ dict_get "shots" kwargs = Some (KwJson (JInt 100)).
Proof.
  destruct (backend_object_overrides Samples.externals Samples.qaoa_with_backend
              None false Samples.a_backend
              [(ALGORITHM,
                [(NAME, JStr "QAOA.Variational"); ("operator_mode", JStr "matrix");
                 ("p", JInt 1); ("initial_point", JNull); ("batch_mode", JBool false)]);
               (BACKEND, [(NAME, JStr "qasm_simulator"); ("shots", JInt 100)]);
               (OPTIMIZER,
                [(NAME, JStr "COBYLA"); ("maxiter", JInt 1000); ("disp", JBool false);
                 ("rhobeg", JInt 1); ("tol", JNull)])])
    as [Hlive Hsafe].
  - reflexivity.
  - vm_compute. reflexivity.
  - destruct Hlive as [kwargs Hin]; [vm_compute; reflexivity|].
    exists kwargs. split; [exact Hin|].
    destruct (Hsafe kwargs Hin) as (Hobj & Hfwd & _). split; [exact Hobj|].
    apply (Hfwd (JStr "qasm_simulator")); [reflexivity|discriminate|discriminate|reflexivity].
Defined.

(** C9.  With an input artifact, [run_algorithm_to_json] executes nothing:
    when resolution fails it raises at once, and otherwise its only call
    writes the serialised document whose [input] section is the artifact's
    converted property form with the component name under [name], the other
    sections being the resolved ones; when the write succeeds it returns the
    mapping that holds the file name. *)
Theorem persisted_input_section
    (E : Externals) (params : Config) (a : AlgorithmInput) (jsonfile : string) :
  let out := run_algorithm_to_json E params (Some a) jsonfile [] in
  (forall ev, In ev (snd out) -> is_execution ev = false)
  /\ match resolve E params with
     | Err e => out = (Err e, [])
     | Ok sections =>
         exists document,
           snd out = [EvFileWrite jsonfile (Text.dumps (config_json document))]
           /\ dict_get "input" document
              = Some (dict_set "name" (JStr (configuration_name a))
                        (convert_dict_to_json E (to_params a)))
           /\ (forall k, k <> "input" -> dict_get k document = dict_get k sections)
           /\ fst out
              = match file_write E jsonfile (Text.dumps (config_json document)) with
                | Ok _ => Ok [("jsonfile", JStr jsonfile)]
                | Err e => Err e
                end
     end.
Proof.
  intros out. subst out.
  unfold run_algorithm_to_json, call, bind, lift, emit, ret, raise, jsonfile_result.
  destruct (resolve E params) as [sections|e]; simpl.
  - split.
    + intros ev Hin.
      destruct (file_write E jsonfile _); simpl in Hin;
        destruct Hin as [<-|[]]; reflexivity.
    + exists (persisted_params E sections (Some a)).
      repeat split.
      * destruct (file_write E jsonfile _); reflexivity.
      * simpl. apply dict_get_set_same.
      * intros k Hk. simpl. now apply dict_get_set_other.
      * destruct (file_write E jsonfile _) as [[]|]; reflexivity.
  - split; [intros ev []|reflexivity].
Qed.

End DriverClaims.

(** ** Claims on the ISRES optimizer *)

Module OptimizerClaims.

Import Optimizers.

Section WithNumbers.

Context {R Result : Type}.

Implicit Types (minimize : @Minimize R Result) (self : ISRES).

(** What the base-class check answers for ISRES: only a missing initial
    point is refused. *)
Lemma ISRES_capabilities (num_vars : nat) (f : @Objective R)
    (g : option (@Gradient R)) (b : option (@Bounds R)) (p : option (@Point R)) :
  Optimizer_optimize (support_level ISRES_CONFIGURATION) num_vars f g b p
  = match p with
    | Some _ => Ok tt
    | None => Err (OptimizerCapabilityError "initial_point")
    end.
Proof. destruct g, b, p; reflexivity. Qed.

(** C5.  Without an initial point [ISRES.optimize] fails with the
    capability error of [initial_point], whatever the numeric routine is, and
    the count of objective evaluations is the one it started with. *)
Theorem isres_requires_initial_point minimize self (num_vars : nat)
    (f : @Objective R) (g : option (@Gradient R)) (b : option (@Bounds R))
    (evaluations : nat) :
  optimize minimize self num_vars f g b None evaluations
  = (Err (OptimizerCapabilityError "initial_point"), evaluations).
Proof.
  unfold optimize. now rewrite ISRES_capabilities.
Qed.

(** C6.  [ISRES.optimize] does not depend on the gradient function: with an
    initial point it is the call of the numeric routine on the algorithm
    identifier, the objective, the bounds, the initial point and the options,
    and any two gradient arguments give the same outcome. *)
Theorem isres_ignores_gradient minimize self (num_vars : nat)
    (f : @Objective R) (b : option (@Bounds R)) (evaluations : nat) :
  (forall g (p : @Point R),
      optimize minimize self num_vars f g b (Some p) evaluations
      = minimize GN_ISRES f b (Some p) (_options self) evaluations)
  /\ (forall g g' p,
         optimize minimize self num_vars f g b p evaluations
         = optimize minimize self num_vars f g' b p evaluations).
Proof.
  split.
  - intros g p. unfold optimize. now rewrite ISRES_capabilities.
  - intros g g' p. unfold optimize. now rewrite !ISRES_capabilities.
Qed.

End WithNumbers.

(** With an initial point the numeric routine runs and the objective is
    evaluated; without one it is never reached. *)
Example isres_sample_runs :
  optimize Samples.evaluate_once (mkISRES [("max_evals", JInt 1000)]) 1
    (fun x => (hd 0 x + 1)%Z) None None (Some [41%Z]) 0
  = (Ok 42%Z, 1)
  /\ optimize Samples.evaluate_once (mkISRES [("max_evals", JInt 1000)]) 1
       (fun x => (hd 0 x + 1)%Z) None None None 0
     = (Err (OptimizerCapabilityError "initial_point"), 0).
Proof. split; reflexivity. Qed.

(** C8, as stated, fails: without nlopt, loading the module raises before
    the check of the class can be asked. *)
Lemma isres_module_fails_to_load :
  ~ Statements.excluded_without_failure Samples.no_nlopt.
Proof.
  intros H. specialize (H eq_refl eq_refl). discriminate H.
Qed.

(** C8, as amended.  When nlopt cannot be imported, and [find_spec] finds
    nothing or itself raises, the check of the class answers [false]; loading
    the module, however, raises [ImportWarning], and that is how the variant
    becomes unavailable. *)
Theorem isres_unavailable_without_nlopt (env : PyEnv) :
  import_module env "nlopt" = Err ImportError ->
  find_spec env "nlopt" = Ok None \/ (exists e, find_spec env "nlopt" = Err e) ->
  check_pluggable_valid env = false
  /\ load_module env = Err (ImportWarning "nlopt cannot be imported")
  /\ availability env = Err (ImportWarning "nlopt cannot be imported").
Proof.
  intros Himp Hspec. unfold availability, load_module, check_pluggable_valid.
  rewrite Himp. repeat split.
  destruct Hspec as [->|[e ->]]; reflexivity.
Qed.

Lemma isres_unavailable_without_nlopt_witness :
  check_pluggable_valid Samples.no_nlopt = false
  /\ load_module Samples.no_nlopt = Err (ImportWarning "nlopt cannot be imported")
  /\ availability Samples.no_nlopt = Err (ImportWarning "nlopt cannot be imported").
Proof.
  apply (isres_unavailable_without_nlopt Samples.no_nlopt).
  - reflexivity.
  - left. reflexivity.
Defined.

End OptimizerClaims.

(** ** The resolver: schemas and the default merge *)

Module MergeFacts.

Import Resolver.

Lemma Schema_induction (P : Schema -> Prop) :
  (forall t d m e items props a,
      (forall k sk, In (k, sk) props -> P sk) ->
      P (mkSchema t d m e items props a)) ->
  forall s, P s.
Proof.
  intros H. fix IH 1. intros [t d m e items props a]. apply H.
  - induction props as [|[k sk] props IHp]; intros k' sk' Hin.
    + destruct Hin.
    + destruct Hin as [Heq|Hin].
      * injection Heq as _ <-. apply IH.
      * exact (IHp k' sk' Hin).
Qed.

Lemma schema_wf_properties s :
  schema_wf s ->
  NoDup (map fst (s_properties s))
  /\ forall k sk, In (k, sk) (s_properties s) -> schema_wf sk.
Proof.
  destruct s as [t d m e items props a]; simpl. intros [Hnd Hall].
  split; [exact Hnd|]. clear Hnd.
  induction props as [|[k sk] props IHp]; intros k' sk' Hin; [destruct Hin|].
  destruct Hall as [Hsk Hall]. destruct Hin as [Heq|Hin].
  - now injection Heq as _ <-.
  - exact (IHp Hall k' sk' Hin).
Qed.

Lemma schema_wf_intro t d m e items props a :
  NoDup (map fst props) ->
  (forall k sk, In (k, sk) props -> schema_wf sk) ->
  schema_wf (mkSchema t d m e items props a).
Proof.
  intros Hnd Hall. simpl. split; [exact Hnd|]. clear Hnd.
  induction props as [|[k sk] props IHp]; [exact I|].
  split.
  - apply (Hall k sk). now left.
  - apply IHp. intros k' sk' Hin. apply (Hall k' sk'). now right.
Qed.

Lemma merge_defaults_object s fields :
  merge_defaults s (JObj fields)
  = JObj (complete merge_defaults (s_properties s) fields).
Proof. destruct s; reflexivity. Qed.

Lemma merge_section_eq s props :
  merge_section s props = complete merge_defaults (s_properties s) props.
Proof. unfold merge_section. now rewrite merge_defaults_object. Qed.

Section Complete.

Context (merge : Schema -> json -> json).

Lemma complete_property_other k k' sk fields :
  k' <> k ->
  dict_get k' (complete_property merge k sk fields) = dict_get k' fields.
Proof.
  intros Hne. unfold complete_property.
  destruct (dict_get k fields); [now apply dict_get_set_other|].
  destruct (s_default sk); [now apply dict_get_set_other|reflexivity].
Qed.

Lemma complete_other props k' fields :
  ~ In k' (map fst props) ->
  dict_get k' (complete merge props fields) = dict_get k' fields.
Proof.
  revert fields. induction props as [|[k sk] props IH]; intros fields Hin; simpl.
  - reflexivity.
  - simpl in Hin. rewrite IH by tauto.
    apply complete_property_other. intros ->. tauto.
Qed.

Lemma complete_property_settles k sk fields :
  (forall x, merge sk (merge sk x) = merge sk x) ->
  settled merge k sk (complete_property merge k sk fields).
Proof.
  intros Hidem. unfold settled, complete_property.
  destruct (dict_get k fields) as [x|] eqn:Hget.
  - rewrite dict_get_set_same. apply Hidem.
  - destruct (s_default sk) as [d|] eqn:Hd.
    + rewrite dict_get_set_same. apply Hidem.
    + now rewrite Hget.
Qed.

Lemma complete_property_fixed k sk fields :
  settled merge k sk fields -> complete_property merge k sk fields = fields.
Proof.
  unfold settled, complete_property.
  destruct (dict_get k fields) as [x|] eqn:Hget.
  - intros ->. now apply dict_set_get_same.
  - now intros ->.
Qed.

Lemma complete_fixed props fields :
  (forall k sk, In (k, sk) props -> settled merge k sk fields) ->
  complete merge props fields = fields.
Proof.
  induction props as [|[k sk] props IH]; intros Hall; simpl; [reflexivity|].
  rewrite complete_property_fixed by (apply Hall; now left).
  apply IH. intros k' sk' Hin. apply Hall. now right.
Qed.

Lemma complete_settles props fields :
  NoDup (map fst props) ->
  (forall k sk, In (k, sk) props -> forall x, merge sk (merge sk x) = merge sk x) ->
  forall k sk, In (k, sk) props -> settled merge k sk (complete merge props fields).
Proof.
  revert fields.
  induction props as [|[k0 s0] props IH]; intros fields Hnd Hidem k sk Hin.
  - destruct Hin.
  - simpl in Hnd. inversion Hnd as [|? ? Hnotin Hnd']; subst. simpl.
    destruct Hin as [Heq|Hin].
    + injection Heq as <- <-. unfold settled.
      rewrite complete_other by exact Hnotin.
      apply complete_property_settles. apply (Hidem k0 s0). now left.
    + apply IH; [exact Hnd'| |exact Hin].
      intros k' sk' Hin'. apply (Hidem k' sk'). now right.
Qed.

Lemma complete_idempotent props fields :
  NoDup (map fst props) ->
  (forall k sk, In (k, sk) props -> forall x, merge sk (merge sk x) = merge sk x) ->
  complete merge props (complete merge props fields) = complete merge props fields.
Proof.
  intros Hnd Hidem. apply complete_fixed.
  intros k sk Hin. now apply complete_settles.
Qed.

(** A field whose value no pass changes keeps its binding. *)
Lemma complete_keeps props fields k x :
  dict_get k fields = Some x ->
  (forall sk, merge sk x = x) ->
  dict_get k (complete merge props fields) = Some x.
Proof.
  revert fields. induction props as [|[k0 s0] props IH]; intros fields Hget Hfix; simpl.
  - exact Hget.
  - apply IH; [|exact Hfix].
    destruct (String.eqb k k0) eqn:Hk.
    + apply String.eqb_eq in Hk; subst k0.
      unfold complete_property. rewrite Hget, Hfix. now rewrite dict_get_set_same.
    + apply String.eqb_neq in Hk. now rewrite complete_property_other.
Qed.

Lemma complete_app props props' fields :
  complete merge (props ++ props') fields
  = complete merge props' (complete merge props fields).
Proof.
  revert fields. induction props as [|[k sk] props IH]; intros fields; simpl.
  - reflexivity.
  - apply IH.
Qed.

(** A leading field that the properties do not mention stays in front. *)
Lemma complete_cons_other props k x fields :
  ~ In k (map fst props) ->
  complete merge props ((k, x) :: fields) = (k, x) :: complete merge props fields.
Proof.
  revert fields. induction props as [|[k0 s0] props IH]; intros fields Hin; simpl.
  - reflexivity.
  - simpl in Hin. rewrite <- IH by tauto. f_equal.
    unfold complete_property. simpl.
    assert (Hne : String.eqb k0 k = false) by (apply String.eqb_neq; intros ->; tauto).
    rewrite Hne. destruct (dict_get k0 fields); [reflexivity|].
    destruct (s_default s0); reflexivity.
Qed.

End Complete.

Lemma merge_defaults_scalar s v :
  (forall fields, v <> JObj fields) -> merge_defaults s v = v.
Proof.
  intros H. destruct s, v; try reflexivity. now destruct (H fields).
Qed.

(** The default merge is a closure: a second pass changes nothing. *)
Lemma merge_defaults_idempotent s :
  schema_wf s ->
  forall v, merge_defaults s (merge_defaults s v) = merge_defaults s v.
Proof.
  induction s as [t d m e items props a IHp] using Schema_induction.
  intros Hwf v.
  apply schema_wf_properties in Hwf as [Hnd Hall]. simpl in Hnd, Hall.
  destruct v; try reflexivity.
  rewrite !merge_defaults_object. simpl. f_equal.
  apply complete_idempotent; [exact Hnd|].
  intros k sk Hin x. apply (IHp k sk Hin). now apply (Hall k sk).
Qed.

Lemma merge_section_idempotent s props :
  schema_wf s -> merge_section s (merge_section s props) = merge_section s props.
Proof.
  intros Hwf. rewrite !merge_section_eq.
  apply schema_wf_properties in Hwf as [Hnd Hall].
  apply complete_idempotent; [exact Hnd|].
  intros k sk Hin x. apply merge_defaults_idempotent. now apply (Hall k sk).
Qed.

Lemma merge_section_keeps_string s props k n :
  dict_get k props = Some (JStr n) ->
  dict_get k (merge_section s props) = Some (JStr n).
Proof.
  intros Hget. rewrite merge_section_eq.
  apply complete_keeps; [exact Hget|]. intros sk. now destruct sk.
Qed.

Lemma merge_section_keeps_int s props k z :
  dict_get k props = Some (JInt z) ->
  dict_get k (merge_section s props) = Some (JInt z).
Proof.
  intros Hget. rewrite merge_section_eq.
  apply complete_keeps; [exact Hget|]. intros sk. now destruct sk.
Qed.

End MergeFacts.

(** ** The resolver: dependencies *)

Module ResolverFacts.

Import Resolver MergeFacts.

Local Open Scope res_scope.

Lemma component_name_eq cfg role :
  component_name cfg role
  = match dict_get role cfg with
    | Some props => named props
    | None => None
    end.
Proof.
  unfold component_name, get_section_property, named.
  destruct (dict_get role cfg) as [props|]; [|reflexivity].
  destruct (dict_get NAME props) as [[]|]; reflexivity.
Qed.

Lemma extends_refl c : extends c c.
Proof. induction c as [|[k v] c IH]; constructor; auto. Qed.

Lemma extends_trans c1 c2 c3 : extends c1 c2 -> extends c2 c3 -> extends c1 c3.
Proof.
  intros H12. revert c3. induction H12 as [|k v v' c c' Hv H12 IH]; intros c3 H23.
  - constructor.
  - inversion H23 as [|k0 v0 v'' c0 c3' Hv' H23']; subst.
    constructor; [|now apply IH].
    destruct Hv as [->|Hv]; [exact Hv'|now right].
Qed.

Lemma extends_get c c' sec v n :
  extends c c' -> dict_get sec c = Some v -> named v = Some n ->
  dict_get sec c' = Some v.
Proof.
  induction 1 as [|k v0 v' c c' Hv H IH]; simpl; [discriminate|].
  destruct (String.eqb sec k).
  - intros [= ->] Hn. destruct Hv as [->|Hv]; [reflexivity|congruence].
  - exact IH.
Qed.

Lemma extends_get_none c c' sec :
  extends c c' -> dict_get sec c' = None -> dict_get sec c = None.
Proof.
  induction 1 as [|k v0 v' c c' Hv H IH]; simpl; [reflexivity|].
  destruct (String.eqb sec k); [discriminate|exact IH].
Qed.

Lemma extends_component_name c c' role n :
  extends c c' -> component_name c role = Some n -> component_name c' role = Some n.
Proof.
  intros He. rewrite !component_name_eq.
  destruct (dict_get role c) as [v|] eqn:Hget; [|discriminate].
  intros Hn. now rewrite (extends_get _ _ _ _ _ He Hget Hn).
Qed.

Lemma extends_set c dep props :
  component_name c dep = None -> extends c (dict_set dep props c).
Proof.
  rewrite component_name_eq.
  induction c as [|[k v] c IH]; simpl.
  - constructor.
  - destruct (String.eqb dep k) eqn:Hk.
    + intros Hn. constructor; [now right|apply extends_refl].
    + intros Hn. constructor; [now left|now apply IH].
Qed.

Section WithFramework.

Context (fw : Framework).

Section Step.

(** What is known of the visit one step further down the chain. *)
Context (rec : string -> Config -> Res Config) (d : Descriptor)
        (on_path : list string).

Hypothesis rec_extends : forall dep c c', rec dep c = Ok c' -> extends c c'.
Hypothesis rec_named :
  forall dep c c', rec dep c = Ok c' -> component_name c' dep <> None.
Hypothesis rec_again :
  forall dep c c', rec dep c = Ok c' ->
    forall r, (forall role n, component_name c' role = Some n ->
                              component_name r role = Some n) ->
              rec dep r = Ok r.

Lemma visit_dep_extends c dep c' :
  visit_dep rec d on_path c dep = Ok c' -> extends c c'.
Proof.
  unfold visit_dep.
  destruct (existsb (String.eqb dep) on_path); [discriminate|].
  destruct (component_name c dep) eqn:Hn; [apply rec_extends|].
  destruct (dict_get dep (d_defaults d)) as [dflt|]; [|discriminate].
  intros H. eapply extends_trans; [apply extends_set; exact Hn|].
  eapply rec_extends; exact H.
Qed.

Lemma visit_dep_named c dep c' :
  visit_dep rec d on_path c dep = Ok c' -> component_name c' dep <> None.
Proof.
  unfold visit_dep.
  destruct (existsb (String.eqb dep) on_path); [discriminate|].
  destruct (component_name c dep) eqn:Hn; [apply rec_named|].
  destruct (dict_get dep (d_defaults d)) as [dflt|]; [|discriminate].
  apply rec_named.
Qed.

Lemma fold_visit_dep_extends deps c c' :
  fold_res (visit_dep rec d on_path) deps c = Ok c' -> extends c c'.
Proof.
  revert c. induction deps as [|dep deps IH]; intros c; simpl.
  - intros [= ->]. apply extends_refl.
  - destruct (visit_dep rec d on_path c dep) as [c1|] eqn:Hstep; [|discriminate].
    intros H. eapply extends_trans; [eapply visit_dep_extends; eauto|now apply IH].
Qed.

Lemma fold_visit_dep_again deps c c' :
  fold_res (visit_dep rec d on_path) deps c = Ok c' ->
  forall r, (forall role n, component_name c' role = Some n ->
                            component_name r role = Some n) ->
            fold_res (visit_dep rec d on_path) deps r = Ok r.
Proof.
  revert c. induction deps as [|dep deps IH]; intros c; simpl; [reflexivity|].
  destruct (visit_dep rec d on_path c dep) as [c1|] eqn:Hstep; [|discriminate].
  intros Hfold r Hle.
  pose proof (fold_visit_dep_extends _ _ _ Hfold) as Hext.
  pose proof (visit_dep_named _ _ _ Hstep) as Hnamed.
  destruct (component_name c1 dep) as [n|] eqn:Hn1; [clear Hnamed|congruence].
  assert (Hr : component_name r dep = Some n).
  { apply Hle. eapply extends_component_name; eauto. }
  assert (Hstep' : visit_dep rec d on_path r dep = Ok r).
  { unfold visit_dep in Hstep |- *.
    destruct (existsb (String.eqb dep) on_path); [discriminate|].
    rewrite Hr.
    assert (Hsub : forall role m, component_name c1 role = Some m ->
                                  component_name r role = Some m).
    { intros role m Hm. apply Hle. eapply extends_component_name; eauto. }
    destruct (component_name c dep).
    - eapply rec_again; eauto.
    - destruct (dict_get dep (d_defaults d)); [|discriminate].
      eapply rec_again; eauto. }
  rewrite Hstep'. eapply IH; eauto.
Qed.

End Step.

Lemma visit_extends fuel : forall path role cfg cfg',
  visit fw fuel path role cfg = Ok cfg' -> extends cfg cfg'.
Proof.
  induction fuel as [|fuel IH]; intros path role cfg cfg'; simpl; [discriminate|].
  destruct (component_name cfg role); [|discriminate].
  destruct (lookup (registry fw) role s) as [d|]; simpl; [|discriminate].
  apply fold_visit_dep_extends. intros dep c c'. apply IH.
Qed.

Lemma visit_named fuel path role cfg cfg' :
  visit fw fuel path role cfg = Ok cfg' -> component_name cfg' role <> None.
Proof.
  intros H. pose proof (visit_extends _ _ _ _ _ H) as Hext.
  destruct fuel as [|fuel]; simpl in H; [discriminate|].
  destruct (component_name cfg role) as [n|] eqn:Hn; [|discriminate].
  rewrite (extends_component_name _ _ _ _ Hext Hn). discriminate.
Qed.

(** A second visit of a configuration that kept the names of the first has
    nothing left to do. *)
Lemma visit_again fuel : forall path role cfg cfg',
  visit fw fuel path role cfg = Ok cfg' ->
  forall r, (forall role n, component_name cfg' role = Some n ->
                            component_name r role = Some n) ->
            visit fw fuel path role r = Ok r.
Proof.
  induction fuel as [|fuel IH]; intros path role cfg cfg' H r Hle; [discriminate|].
  pose proof (visit_extends _ _ _ _ _ H) as Hext.
  simpl in H |- *.
  destruct (component_name cfg role) as [n|] eqn:Hn; [|discriminate].
  rewrite (Hle _ _ (extends_component_name _ _ _ _ Hext Hn)).
  destruct (lookup (registry fw) role n) as [d|]; simpl in H |- *; [|discriminate].
  eapply fold_visit_dep_again; eauto.
  - intros dep c c'. apply visit_extends.
  - intros dep c c'. apply visit_named.
Qed.

Lemma check_names_ok cfg all :
  check_names cfg all = Ok tt <->
  forall sec, In sec (map fst cfg) -> is_role sec = true ->
              component_name all sec <> None.
Proof.
  induction cfg as [|[k v] cfg IH]; simpl.
  - split; [intros _ sec []|reflexivity].
  - destruct (is_role k) eqn:Hrole.
    + destruct (component_name all k) eqn:Hn.
      * rewrite IH. split.
        -- intros H sec [<-|Hin] Hr; [congruence|now apply H].
        -- intros H sec Hin. apply H. now right.
      * split; [discriminate|]. intros H. exfalso. apply (H k); auto.
    + rewrite IH. split.
      * intros H sec [<-|Hin] Hr; [congruence|now apply H].
      * intros H sec Hin. apply H. now right.
Qed.

(** *** Merge and validation, section by section *)

Lemma resolve_section_fst cfg sec sec' :
  resolve_section fw cfg sec = Ok sec' -> fst sec' = fst sec.
Proof.
  unfold resolve_section.
  destruct (schema_for fw cfg (fst sec)) as [[s|]|]; simpl; try discriminate.
  - destruct (validate_properties _ _ _); simpl; [|discriminate].
    now intros [= <-].
  - now intros [= <-].
Qed.

Lemma map_res_get cfg l l' :
  map_res (resolve_section fw cfg) l = Ok l' ->
  forall k v, dict_get k l = Some v ->
    exists v', resolve_section fw cfg (k, v) = Ok (k, v') /\ dict_get k l' = Some v'.
Proof.
  revert l'. induction l as [|[k0 v0] l IH]; intros l'; simpl; [discriminate|].
  destruct (resolve_section fw cfg (k0, v0)) as [[k1 v1]|] eqn:Hsec; simpl; [|discriminate].
  destruct (map_res (resolve_section fw cfg) l) as [l1|] eqn:Hl; simpl; [|discriminate].
  intros [= <-] k v. simpl.
  apply resolve_section_fst in Hsec as Hfst. simpl in Hfst. subst k1.
  destruct (String.eqb k k0) eqn:Hk.
  - apply String.eqb_eq in Hk; subst k0. intros [= <-]. eauto.
  - now apply IH.
Qed.

Lemma map_res_keys cfg l l' :
  map_res (resolve_section fw cfg) l = Ok l' -> map fst l' = map fst l.
Proof.
  revert l'. induction l as [|[k0 v0] l IH]; intros l'; simpl.
  - now intros [= <-].
  - destruct (resolve_section fw cfg (k0, v0)) as [[k1 v1]|] eqn:Hsec; simpl; [|discriminate].
    destruct (map_res (resolve_section fw cfg) l) as [l1|] eqn:Hl; simpl; [|discriminate].
    intros [= <-]. simpl. apply resolve_section_fst in Hsec. simpl in Hsec.
    subst. f_equal. now apply IH.
Qed.

Lemma resolve_section_named cfg k v v' n :
  resolve_section fw cfg (k, v) = Ok (k, v') -> named v = Some n -> named v' = Some n.
Proof.
  unfold resolve_section, named. simpl.
  destruct (schema_for fw cfg k) as [[s|]|]; simpl; try discriminate.
  - destruct (validate_properties _ _ _); simpl; [|discriminate].
    intros [= <-]. destruct (dict_get NAME v) as [[]|] eqn:Hget; try discriminate.
    intros [= ->]. now rewrite (merge_section_keeps_string _ _ _ _ Hget).
  - now intros [= <-].
Qed.

Lemma map_res_component_name cfg l l' role n :
  map_res (resolve_section fw cfg) l = Ok l' ->
  component_name l role = Some n -> component_name l' role = Some n.
Proof.
  intros Hmap. rewrite !component_name_eq.
  destruct (dict_get role l) as [v|] eqn:Hget; [|discriminate].
  destruct (map_res_get _ _ _ Hmap _ _ Hget) as (v' & Hsec & ->).
  intros Hn. exact (resolve_section_named _ _ _ _ _ Hsec Hn).
Qed.

Lemma lookup_In reg role n d : lookup reg role n = Ok d -> In d reg.
Proof.
  unfold lookup.
  destruct (find _ reg) as [d'|] eqn:Hfind; [|discriminate].
  intros [= <-]. now apply find_some in Hfind.
Qed.

Lemma dict_get_In {V : Type} k (v : V) d : dict_get k d = Some v -> In (k, v) d.
Proof.
  induction d as [|[k' v'] d IH]; simpl; [discriminate|].
  destruct (String.eqb k k') eqn:Hk.
  - apply String.eqb_eq in Hk; subst. intros [= ->]. now left.
  - intros H. right. now apply IH.
Qed.

Lemma In_dict_get {V : Type} k (v : V) d :
  NoDup (map fst d) -> In (k, v) d -> dict_get k d = Some v.
Proof.
  induction d as [|[k' v'] d IH]; simpl; [intros _ []|].
  intros Hnd. inversion Hnd as [|? ? Hnotin Hnd']; subst.
  intros [[= -> ->]|Hin].
  - now rewrite String.eqb_refl.
  - destruct (String.eqb_spec k k') as [->|_]; [|now apply IH].
    exfalso. apply Hnotin. now apply (in_map fst) in Hin.
Qed.

Lemma dict_set_In {V : Type} k (v : V) d k' v' :
  In (k', v') (dict_set k v d) -> (k', v') = (k, v) \/ In (k', v') d.
Proof.
  induction d as [|[k0 v0] d IH]; simpl.
  - intros [H|[]]. now left.
  - destruct (String.eqb k k0) eqn:Hk.
    + apply String.eqb_eq in Hk; subst. intros [H|H]; auto.
    + intros [H|H]; auto. destruct (IH H); auto.
Qed.

Lemma dict_set_NoDup {V : Type} k (v : V) d :
  NoDup (map fst d) -> NoDup (map fst (dict_set k v d)).
Proof.
  destruct (dict_get k d) eqn:Hget.
  - fold (dict_keys d). fold (dict_keys (dict_set k v d)).
    rewrite dict_keys_set_present by congruence. auto.
  - rewrite dict_keys_set_absent by exact Hget.
    rewrite map_app. simpl. intros Hnd.
    apply dict_get_None_not_In in Hget. unfold dict_keys in Hget.
    apply NoDup_app; auto.
    + constructor; [intros []|constructor].
    + intros x Hx [<-|[]]. tauto.
Qed.

Lemma with_name_wf s : schema_wf s -> schema_wf (with_name s).
Proof.
  intros Hwf. apply schema_wf_properties in Hwf as [Hnd Hall].
  unfold with_name. apply schema_wf_intro.
  - now apply dict_set_NoDup.
  - intros k sk Hin. apply dict_set_In in Hin as [[= -> ->]|Hin].
    + simpl. split; [constructor|exact I].
    + eapply Hall; eauto.
Qed.

Lemma schema_for_wf cfg sec s :
  framework_wf fw -> schema_for fw cfg sec = Ok (Some s) -> schema_wf s.
Proof.
  intros [Hreg Hsec]. unfold schema_for.
  destruct (is_role sec).
  - destruct (component_name cfg sec) as [n|]; [|discriminate].
    destruct (lookup (registry fw) sec n) as [d|] eqn:Hl; simpl; [|discriminate].
    intros [= <-]. apply with_name_wf.
    apply lookup_In in Hl. rewrite Forall_forall in Hreg. now apply Hreg.
  - intros [= Hget]. apply dict_get_In in Hget.
    rewrite Forall_forall in Hsec. now apply (Hsec (sec, s)).
Qed.

Lemma schema_for_stable cfg r sec :
  (forall role n, component_name cfg role = Some n -> component_name r role = Some n) ->
  is_ok (schema_for fw cfg sec) = true ->
  schema_for fw r sec = schema_for fw cfg sec.
Proof.
  intros Hle. unfold schema_for.
  destruct (is_role sec); [|reflexivity].
  destruct (component_name cfg sec) as [n|] eqn:Hn; [|discriminate].
  now rewrite (Hle _ _ Hn).
Qed.

Lemma resolve_section_again cfg r sec sec' :
  framework_wf fw ->
  (forall role n, component_name cfg role = Some n -> component_name r role = Some n) ->
  resolve_section fw cfg sec = Ok sec' ->
  resolve_section fw r sec' = Ok sec'.
Proof.
  intros Hwf Hle H.
  pose proof (resolve_section_fst _ _ _ H) as Hfst.
  unfold resolve_section in H |- *. rewrite Hfst.
  destruct (schema_for fw cfg (fst sec)) as [so|] eqn:Hs; simpl in H; [|discriminate].
  rewrite (schema_for_stable cfg r) by (auto; now rewrite Hs).
  rewrite Hs. simpl.
  destruct so as [s|].
  - destruct (validate_properties (fst sec) s (merge_section s (snd sec))) as [[]|] eqn:Hv;
      simpl in H; [|discriminate].
    injection H as <-. simpl.
    rewrite merge_section_idempotent by (eapply schema_for_wf; eauto).
    now rewrite Hv.
  - now injection H as <-.
Qed.

Lemma map_res_again cfg r l l' :
  framework_wf fw ->
  (forall role n, component_name cfg role = Some n -> component_name r role = Some n) ->
  map_res (resolve_section fw cfg) l = Ok l' ->
  map_res (resolve_section fw r) l' = Ok l'.
Proof.
  intros Hwf Hle. revert l'. induction l as [|sec l IH]; intros l'; simpl.
  - now intros [= <-].
  - destruct (resolve_section fw cfg sec) as [sec'|] eqn:Hsec; simpl; [|discriminate].
    destruct (map_res (resolve_section fw cfg) l) as [l1|] eqn:Hl; simpl; [|discriminate].
    intros [= <-]. simpl.
    rewrite (resolve_section_again _ _ _ _ Hwf Hle Hsec). simpl.
    now rewrite (IH l1 eq_refl).
Qed.

(** Resolution is a fixed point of itself. *)
Lemma resolve_again cfg r :
  framework_wf fw -> resolve fw cfg = Ok r -> resolve fw r = Ok r.
Proof.
  intros Hwf. unfold resolve.
  destruct (resolve_dependencies fw cfg) as [cfg1|] eqn:Hdep; simpl; [|discriminate].
  intros Hmap.
  assert (Hle : forall role n, component_name cfg1 role = Some n ->
                               component_name r role = Some n).
  { intros role n. exact (map_res_component_name _ _ _ _ _ Hmap). }
  assert (Hdep' : resolve_dependencies fw r = Ok r).
  { unfold resolve_dependencies in Hdep |- *.
    assert (Hvisit : match dict_get ALGORITHM r with
                     | Some _ => visit fw (chain_bound fw) [] ALGORITHM r
                     | None => Ok r
                     end = Ok r).
    { destruct (dict_get ALGORITHM r) eqn:Hr; [|reflexivity].
      destruct (dict_get ALGORITHM cfg) eqn:Hc.
      - destruct (visit fw (chain_bound fw) [] ALGORITHM cfg) as [c1|] eqn:Hv;
          simpl in Hdep; [|discriminate].
        destruct (check_names c1 c1); simpl in Hdep; [|discriminate].
        injection Hdep as ->. eapply visit_again; eauto.
      - simpl in Hdep. destruct (check_names cfg cfg); simpl in Hdep; [|discriminate].
        injection Hdep as Heq. subst cfg1.
        exfalso. apply dict_get_None_not_In in Hc. apply Hc.
        unfold dict_keys. rewrite <- (map_res_keys _ _ _ Hmap).
        apply dict_get_In in Hr. apply (in_map fst) in Hr. exact Hr. }
    rewrite Hvisit. simpl.
    assert (Hchk : check_names r r = Ok tt).
    { apply check_names_ok. intros sec Hin Hrole.
      rewrite (map_res_keys _ _ _ Hmap) in Hin.
      assert (Hc1 : check_names cfg1 cfg1 = Ok tt).
      { destruct (match dict_get ALGORITHM cfg with
                  | Some _ => visit fw (chain_bound fw) [] ALGORITHM cfg
                  | None => Ok cfg
                  end) as [c1|]; simpl in Hdep; [|discriminate].
        destruct (check_names c1 c1) as [[]|] eqn:Hc; simpl in Hdep; [|discriminate].
        now injection Hdep as <-. }
      rewrite check_names_ok in Hc1. specialize (Hc1 sec Hin Hrole).
      destruct (component_name cfg1 sec) as [n|] eqn:Hn; [|congruence].
      rewrite (Hle _ _ Hn). discriminate. }
    now rewrite Hchk. }
  rewrite Hdep'. simpl. eapply map_res_again; eauto.
Qed.

End WithFramework.

End ResolverFacts.

(** ** The resolver: validation and the scenarios *)

Module ScenarioFacts.

Import Resolver MergeFacts ResolverFacts.

Local Open Scope res_scope.

Lemma validate_properties_cons section_name s k x props :
  validate_properties section_name s ((k, x) :: props)
  = if property_ok s k x then validate_properties section_name s props
    else Err (ConfigurationError section_name k).
Proof. reflexivity. Qed.

Lemma validate_properties_ok section_name s props :
  validate_properties section_name s props = Ok tt ->
  forall k x, In (k, x) props -> property_ok s k x = true.
Proof.
  induction props as [|[k0 x0] props IH]; [intros _ k x []|].
  rewrite validate_properties_cons.
  destruct (property_ok s k0 x0) eqn:Hok; [|discriminate].
  intros H k x [[= <- <-]|Hin]; [exact Hok|now apply IH].
Qed.

Lemma valid_below_minimum sp :
  s_minimum sp = Some 1%Z -> valid sp (JInt 0) = false.
Proof.
  intros Hmin. simpl. rewrite Hmin. simpl.
  now rewrite andb_false_r.
Qed.

Lemma with_name_properties_other s k :
  k <> NAME ->
  dict_get k (s_properties (with_name s)) = dict_get k (s_properties s).
Proof. intros Hne. unfold with_name. simpl. now apply dict_get_set_other. Qed.

Lemma with_name_properties_name s :
  dict_get NAME (s_properties (with_name s)) = Some (of_type [TString]).
Proof. unfold with_name. simpl. apply dict_get_set_same. Qed.

Lemma property_ok_p_zero s sp :
  dict_get "p" (s_properties s) = Some sp ->
  s_minimum sp = Some 1%Z ->
  property_ok (with_name s) "p" (JInt 0) = false.
Proof.
  intros Hp Hmin. unfold property_ok.
  rewrite with_name_properties_other by discriminate.
  rewrite Hp. now apply valid_below_minimum.
Qed.

Lemma property_ok_name s n : property_ok (with_name s) NAME (JStr n) = true.
Proof. unfold property_ok. now rewrite with_name_properties_name. Qed.

Lemma dict_set_app_absent {V : Type} k (v : V) pre d :
  dict_get k pre = None -> dict_set k v (pre ++ d)%list = (pre ++ dict_set k v d)%list.
Proof.
  induction pre as [|[k' v'] pre IH]; simpl; [reflexivity|].
  destruct (String.eqb k k'); [discriminate|].
  intros H. now rewrite IH.
Qed.

Lemma dict_get_app {V : Type} k (pre d : list (string * V)) :
  dict_get k (pre ++ d)%list
  = match dict_get k pre with Some v => Some v | None => dict_get k d end.
Proof.
  induction pre as [|[k' v'] pre IH]; simpl; [reflexivity|].
  destruct (String.eqb k k'); [reflexivity|exact IH].
Qed.

(** Leading fields that no pass changes stay where they are. *)
Lemma complete_scalar_prefix merge props pre fields :
  Forall (fun kv => forall sk, merge sk (snd kv) = snd kv) pre ->
  exists fields', complete merge props (pre ++ fields)%list = (pre ++ fields')%list.
Proof.
  intros Hpre. revert fields.
  induction props as [|[k sk] props IH]; intros fields; simpl; [eauto|].
  assert (Hstep : exists f1, complete_property merge k sk (pre ++ fields)%list
                             = (pre ++ f1)%list).
  { unfold complete_property. rewrite dict_get_app.
    destruct (dict_get k pre) as [x|] eqn:Hget.
    - exists fields. apply dict_get_In in Hget as Hin.
      rewrite Forall_forall in Hpre. pose proof (Hpre _ Hin sk) as Hfix.
      simpl in Hfix. rewrite Hfix.
      apply dict_set_get_same. rewrite dict_get_app. now rewrite Hget.
    - destruct (dict_get k fields).
      + eexists. now apply dict_set_app_absent.
      + destruct (s_default sk); [|eauto].
        eexists. now apply dict_set_app_absent. }
  destruct Hstep as [f1 ->]. apply IH.
Qed.

Lemma merge_section_with_name s n fields :
  dict_get NAME (s_properties s) = None ->
  merge_section (with_name s) ((NAME, JStr n) :: fields)
  = (NAME, JStr n) :: merge_section s fields.
Proof.
  intros Hname. rewrite !merge_section_eq. unfold with_name. simpl.
  rewrite dict_keys_set_absent by exact Hname.
  rewrite complete_app.
  rewrite complete_cons_other by (now apply dict_get_None_not_In).
  simpl. unfold complete_property. simpl. reflexivity.
Qed.

Section WithFramework.

Context (fw : Framework).

Lemma visit_S fuel path role cfg :
  visit fw (S fuel) path role cfg
  = match component_name cfg role with
    | None => Err (ConfigurationError role NAME)
    | Some n =>
        d <- lookup (registry fw) role n ;;
        fold_res (visit_dep (visit fw fuel (role :: path)) d (role :: path))
          (d_depends d) cfg
    end.
Proof. reflexivity. Qed.

Lemma resolve_dependencies_extends cfg cfg1 :
  resolve_dependencies fw cfg = Ok cfg1 -> extends cfg cfg1.
Proof.
  unfold resolve_dependencies.
  destruct (dict_get ALGORITHM cfg).
  - destruct (visit fw (chain_bound fw) [] ALGORITHM cfg) as [c1|] eqn:Hv; simpl;
      [|discriminate].
    destruct (check_names c1 c1); simpl; [|discriminate].
    intros [= <-]. eapply visit_extends; eauto.
  - simpl. destruct (check_names cfg cfg); simpl; [|discriminate].
    intros [= <-]. apply extends_refl.
Qed.

Lemma resolve_section_role cfg sec props n d :
  is_role sec = true ->
  component_name cfg sec = Some n ->
  lookup (registry fw) sec n = Ok d ->
  resolve_section fw cfg (sec, props)
  = (_ <- validate_properties sec (with_name (d_schema d))
            (merge_section (with_name (d_schema d)) props) ;;
     Ok (sec, merge_section (with_name (d_schema d)) props)).
Proof.
  intros Hrole Hn Hl. unfold resolve_section, schema_for.
  cbn [fst snd]. now rewrite Hrole, Hn, Hl.
Qed.

Lemma map_res_err_head cfg sec l e :
  resolve_section fw cfg sec = Err e ->
  map_res (resolve_section fw cfg) (sec :: l) = Err e.
Proof. intros H. simpl. now rewrite H. Qed.

(** The algorithm section with [p = 0] does not pass its validation. *)
Lemma algorithm_section_rejected cfg alg n d sp :
  component_name cfg ALGORITHM = Some n ->
  dict_get "p" alg = Some (JInt 0) ->
  lookup (registry fw) ALGORITHM n = Ok d ->
  dict_get "p" (s_properties (d_schema d)) = Some sp ->
  s_minimum sp = Some 1%Z ->
  is_ok (resolve_section fw cfg (ALGORITHM, alg)) = false.
Proof.
  intros Hn Hp Hl Hsp Hmin.
  rewrite (resolve_section_role _ _ _ n d) by (reflexivity || assumption).
  destruct (validate_properties ALGORITHM (with_name (d_schema d))
              (merge_section (with_name (d_schema d)) alg)) as [[]|] eqn:Hv;
    [|reflexivity].
  exfalso.
  pose proof (merge_section_keeps_int (with_name (d_schema d)) _ _ _ Hp) as Hp'.
  apply dict_get_In in Hp'.
  pose proof (validate_properties_ok _ _ _ Hv _ _ Hp') as Hok.
  rewrite (property_ok_p_zero _ _ Hsp Hmin) in Hok. discriminate.
Qed.

Lemma p_zero_never_resolves cfg alg n d sp :
  dict_get ALGORITHM cfg = Some alg ->
  dict_get NAME alg = Some (JStr n) ->
  dict_get "p" alg = Some (JInt 0) ->
  lookup (registry fw) ALGORITHM n = Ok d ->
  dict_get "p" (s_properties (d_schema d)) = Some sp ->
  s_minimum sp = Some 1%Z ->
  is_ok (resolve fw cfg) = false.
Proof.
  intros Halg Hname Hp Hl Hsp Hmin.
  destruct (resolve fw cfg) as [r|] eqn:Hres; [exfalso|reflexivity].
  unfold resolve in Hres.
  destruct (resolve_dependencies fw cfg) as [cfg1|] eqn:Hdep; simpl in Hres;
    [|discriminate].
  apply resolve_dependencies_extends in Hdep.
  assert (Hnamed : named alg = Some n) by (unfold named; now rewrite Hname).
  pose proof (extends_get _ _ _ _ _ Hdep Halg Hnamed) as Halg1.
  destruct (map_res_get _ _ _ _ Hres _ _ Halg1) as (v' & Hsec & _).
  assert (Hcn : component_name cfg1 ALGORITHM = Some n).
  { rewrite component_name_eq. now rewrite Halg1. }
  pose proof (algorithm_section_rejected _ _ _ _ _ Hcn Hp Hl Hsp Hmin) as Hrej.
  change (resolve_section fw cfg1 (ALGORITHM, alg) = Ok (ALGORITHM, v')) in Hsec.
  rewrite Hsec in Hrej. discriminate.
Qed.

Lemma p_zero_reported_first cfg n d sp post rest :
  cfg = (ALGORITHM, (NAME, JStr n) :: ("p", JInt 0) :: post) :: rest ->
  lookup (registry fw) ALGORITHM n = Ok d ->
  dict_get "p" (s_properties (d_schema d)) = Some sp ->
  s_minimum sp = Some 1%Z ->
  is_ok (resolve_dependencies fw cfg) = true ->
  resolve fw cfg = Err (ConfigurationError ALGORITHM "p").
Proof.
  intros -> Hl Hsp Hmin Hdep. unfold resolve.
  destruct (resolve_dependencies fw _) as [cfg1|] eqn:Hd; [clear Hdep|discriminate].
  simpl. apply resolve_dependencies_extends in Hd.
  inversion Hd as [|k v v' c c' Hv Hext]; subst.
  destruct Hv as [->|Hv]; [|discriminate Hv].
  apply map_res_err_head.
  rewrite (resolve_section_role _ _ _ n d) by (reflexivity || exact Hl).
  rewrite merge_section_eq.
  destruct (complete_scalar_prefix merge_defaults
              (s_properties (with_name (d_schema d)))
              [(NAME, JStr n); ("p", JInt 0)] post) as [post' Hpre].
  { repeat constructor; intros sk; now destruct sk. }
  cbn [app] in Hpre. rewrite Hpre.
  rewrite !validate_properties_cons.
  rewrite property_ok_name, (property_ok_p_zero _ _ Hsp Hmin). reflexivity.
Qed.

(** The optimizer section QAOA's default gives rise to. *)
Lemma qaoa_optimizer_section cfg cobyla r :
  component_name cfg ALGORITHM = Some "QAOA.Variational" ->
  component_name cfg OPTIMIZER = None ->
  get_section cfg OPTIMIZER = [] ->
  lookup (registry fw) ALGORITHM "QAOA.Variational" = Ok QAOA_CONFIGURATION ->
  lookup (registry fw) OPTIMIZER "COBYLA" = Ok cobyla ->
  dict_get NAME (s_properties (d_schema cobyla)) = None ->
  resolve fw cfg = Ok r ->
  dict_get OPTIMIZER r
  = Some ((NAME, JStr "COBYLA") :: default_properties (d_schema cobyla)).
Proof.
  intros Halg Hopt Hsec Hq Hc Hname Hres. unfold resolve in Hres.
  destruct (resolve_dependencies fw cfg) as [cfg1|] eqn:Hdep; simpl in Hres;
    [|discriminate].
  assert (Hopt1 : dict_get OPTIMIZER cfg1 = Some [(NAME, JStr "COBYLA")]).
  { unfold resolve_dependencies in Hdep.
    destruct (dict_get ALGORITHM cfg) eqn:Ha.
    2:{ rewrite component_name_eq, Ha in Halg. discriminate. }
    destruct (visit fw (chain_bound fw) [] ALGORITHM cfg) as [c1|] eqn:Hv;
      simpl in Hdep; [|discriminate].
    destruct (check_names c1 c1); simpl in Hdep; [|discriminate].
    injection Hdep as ->.
    unfold chain_bound in Hv. rewrite visit_S, Halg, Hq in Hv. simpl in Hv.
    destruct (visit_dep _ _ _ cfg "optimizer") as [c2|] eqn:Hstep; [|discriminate].
    injection Hv as ->.
    unfold visit_dep in Hstep. simpl in Hstep.
    change "optimizer" with OPTIMIZER in Hstep.
    rewrite Hopt, Hsec in Hstep. simpl in Hstep.
    apply visit_extends in Hstep.
    eapply (extends_get _ _ _ _ "COBYLA" Hstep).
    - apply dict_get_set_same.
    - reflexivity. }
  destruct (map_res_get _ _ _ _ Hres _ _ Hopt1) as (v' & Hs & ->).
  assert (Hcn : component_name cfg1 OPTIMIZER = Some "COBYLA").
  { rewrite component_name_eq. now rewrite Hopt1. }
  rewrite (resolve_section_role cfg1 OPTIMIZER _ _ _ eq_refl Hcn Hc) in Hs.
  destruct (validate_properties _ _ _); simpl in Hs; [|discriminate].
  injection Hs as <-. f_equal.
  now apply merge_section_with_name.
Qed.

Lemma registry_nonempty role n d :
  lookup (registry fw) role n = Ok d ->
  exists m, List.length (registry fw) = S m.
Proof.
  intros Hl. apply lookup_In in Hl.
  destruct (registry fw); [destruct Hl|]. simpl. eauto.
Qed.

(** The configuration that selects QAOA and nothing else, with or without an
    empty optimizer section, resolves. *)
Lemma qaoa_scenario_resolves cfg cobyla :
  cfg = [(ALGORITHM, [(NAME, JStr "QAOA.Variational")])]
  \/ cfg = [(ALGORITHM, [(NAME, JStr "QAOA.Variational")]); (OPTIMIZER, [])] ->
  lookup (registry fw) ALGORITHM "QAOA.Variational" = Ok QAOA_CONFIGURATION ->
  lookup (registry fw) OPTIMIZER "COBYLA" = Ok cobyla ->
  dict_get NAME (s_properties (d_schema cobyla)) = None ->
  d_depends cobyla = [] ->
  validate_properties OPTIMIZER (with_name (d_schema cobyla))
    ((NAME, JStr "COBYLA") :: default_properties (d_schema cobyla)) = Ok tt ->
  resolve fw cfg
  = Ok [(ALGORITHM,
         [(NAME, JStr "QAOA.Variational"); ("operator_mode", JStr "matrix");
          ("p", JInt 1); ("initial_point", JNull); ("batch_mode", JBool false)]);
        (OPTIMIZER, (NAME, JStr "COBYLA") :: default_properties (d_schema cobyla))].
Proof.
  intros Hcfg Hq Hc Hname Hdeps Hvalid.
  destruct (registry_nonempty _ _ _ Hq) as [m Hlen].
  assert (Hdep : resolve_dependencies fw cfg
                 = Ok [(ALGORITHM, [(NAME, JStr "QAOA.Variational")]);
                       (OPTIMIZER, [(NAME, JStr "COBYLA")])]).
  { unfold resolve_dependencies, chain_bound. rewrite Hlen.
    destruct Hcfg as [-> | ->]; simpl dict_get; cbv iota;
      rewrite visit_S.
    all: match goal with
       | |- context [component_name ?c ALGORITHM] =>
           change (component_name c ALGORITHM) with (Some "QAOA.Variational")
       end.
    all: cbv iota.
    all: rewrite Hq; cbn [res_bind d_depends QAOA_CONFIGURATION fold_res];
      unfold visit_dep; cbn [existsb String.eqb Ascii.eqb Bool.eqb orb];
      cbn [component_name get_section_property dict_get String.eqb Ascii.eqb Bool.eqb
           OPTIMIZER ALGORITHM NAME d_defaults QAOA_CONFIGURATION get_section
           apply_default fold_left fst snd dict_set];
      rewrite visit_S.
    all: match goal with
       | |- context [component_name ?c "optimizer"] =>
           change (component_name c "optimizer") with (Some "COBYLA")
       end.
    all: cbv iota; change "optimizer" with OPTIMIZER; rewrite Hc;
      cbn [res_bind]; rewrite Hdeps; reflexivity. }
  unfold resolve. rewrite Hdep. cbn [res_bind map_res].
  set (c1 := [(ALGORITHM, [(NAME, JStr "QAOA.Variational")]);
              (OPTIMIZER, [(NAME, JStr "COBYLA")])]).
  rewrite (resolve_section_role c1 ALGORITHM _ "QAOA.Variational" _ eq_refl eq_refl Hq).
  rewrite (resolve_section_role c1 OPTIMIZER _ "COBYLA" _ eq_refl eq_refl Hc).
  rewrite (merge_section_with_name (d_schema cobyla)) by exact Hname.
  fold (default_properties (d_schema cobyla)).
  rewrite Hvalid. reflexivity.
Qed.

(** *** A section set from a default leaves the others as they are *)

Lemma component_name_set_other cfg k v sec :
  sec <> k -> component_name (dict_set k v cfg) sec = component_name cfg sec.
Proof.
  intros Hne. rewrite !component_name_eq. now rewrite dict_get_set_other.
Qed.

Lemma resolve_section_set_other cfg k v sec :
  fst sec <> k ->
  resolve_section fw (dict_set k v cfg) sec = resolve_section fw cfg sec.
Proof.
  intros Hne. unfold resolve_section, schema_for.
  now rewrite component_name_set_other.
Qed.

Lemma resolve_section_names cfg sec :
  is_ok (resolve_section fw cfg sec) = true ->
  is_role (fst sec) = true ->
  component_name cfg (fst sec) <> None.
Proof.
  unfold resolve_section, schema_for. intros Hok Hrole. rewrite Hrole in Hok.
  destruct (component_name cfg (fst sec)); [discriminate|discriminate Hok].
Qed.

Lemma map_res_all_ok {A B : Type} (f : A -> Res B) (l : list A) :
  (forall a, In a l -> is_ok (f a) = true) -> exists l', map_res f l = Ok l'.
Proof.
  induction l as [|a l IH]; intros Hall; [now exists []|].
  destruct IH as [l' Hl']; [intros b Hb; apply Hall; now right|].
  pose proof (Hall a (or_introl eq_refl)) as Ha.
  destruct (f a) as [b|] eqn:Hfa; [|discriminate Ha].
  exists (b :: l'). cbn [map_res]. rewrite Hfa. cbn [res_bind]. now rewrite Hl'.
Qed.

(** The first section that fails is the one that is reported. *)
Lemma map_res_first_failure {A B : Type} (f : A -> Res B) pre a post e :
  forallb (fun x => is_ok (f x)) pre = true ->
  f a = Err e ->
  map_res f (pre ++ a :: post)%list = Err e.
Proof.
  induction pre as [|x pre IH]; cbn [forallb app map_res]; intros Hpre Ha.
  - now rewrite Ha.
  - apply andb_prop in Hpre as [Hx Hpre].
    destruct (f x); [|discriminate Hx]. cbn [res_bind]. now rewrite IH.
Qed.

(** The first property that fails is the one that is named. *)
Lemma validate_properties_first_failure section_name s pre k x post :
  forallb (fun kx => property_ok s (fst kx) (snd kx)) pre = true ->
  property_ok s k x = false ->
  validate_properties section_name s (pre ++ (k, x) :: post)%list
  = Err (ConfigurationError section_name k).
Proof.
  induction pre as [|[k0 x0] pre IH]; cbn [forallb app fst snd]; intros Hpre Hk.
  - rewrite validate_properties_cons. now rewrite Hk.
  - apply andb_prop in Hpre as [Hx Hpre].
    rewrite validate_properties_cons, Hx. now apply IH.
Qed.

Lemma before_key_split {V : Type} k (v : V) d :
  dict_get k d = Some v ->
  exists post, d = (before_key k d ++ (k, v) :: post)%list.
Proof.
  induction d as [|[k' v'] d IH]; simpl; [discriminate|].
  destruct (String.eqb_spec k k') as [->|Hne].
  - intros [= ->]. now exists d.
  - intros Hget. destruct (IH Hget) as [post Hpost].
    exists post. cbn [app]. now rewrite <- Hpost.
Qed.

Lemma dict_set_In_other {V : Type} k (v : V) d k' v' :
  NoDup (map fst d) ->
  In (k', v') (dict_set k v d) -> (k', v') = (k, v) \/ (k' <> k /\ In (k', v') d).
Proof.
  induction d as [|[k0 v0] d IH]; simpl; intros Hnd.
  - intros [H|[]]. now left.
  - inversion Hnd as [|? ? Hnotin Hnd']; subst.
    destruct (String.eqb_spec k k0) as [->|Hne].
    + intros [H|H]; [left; congruence|].
      right. split; [|now right].
      intros ->. apply Hnotin. now apply (in_map fst) in H.
    + intros [H|H].
      * injection H as <- <-. right. split; [congruence|now left].
      * destruct (IH Hnd' H) as [Heq|[Hne' Hin]]; [now left|].
        right. split; [exact Hne'|now right].
Qed.

(** Step 1 for a configuration that selects QAOA and leaves the optimizer
    to its default: the optimizer section is set to the declared default. *)
Lemma qaoa_dependencies cfg cobyla :
  component_name cfg ALGORITHM = Some "QAOA.Variational" ->
  dict_get OPTIMIZER cfg = None \/ dict_get OPTIMIZER cfg = Some [] ->
  lookup (registry fw) ALGORITHM "QAOA.Variational" = Ok QAOA_CONFIGURATION ->
  lookup (registry fw) OPTIMIZER "COBYLA" = Ok cobyla ->
  d_depends cobyla = [] ->
  visit fw (chain_bound fw) [] ALGORITHM cfg
  = Ok (dict_set OPTIMIZER [(NAME, JStr "COBYLA")] cfg).
Proof.
  intros Halg Hopt Hq Hc Hdeps.
  destruct (registry_nonempty _ _ _ Hq) as [m Hlen].
  unfold chain_bound. rewrite Hlen, visit_S, Halg, Hq.
  cbn [res_bind d_depends QAOA_CONFIGURATION fold_res].
  assert (Hstep : visit_dep (visit fw (S m) [ALGORITHM]) QAOA_CONFIGURATION
                    [ALGORITHM] cfg "optimizer"
                  = Ok (dict_set OPTIMIZER [(NAME, JStr "COBYLA")] cfg)).
  { unfold visit_dep.
    replace (existsb (String.eqb "optimizer") [ALGORITHM]) with false by reflexivity.
    change "optimizer" with OPTIMIZER.
    assert (Hnone : component_name cfg OPTIMIZER = None).
    { rewrite component_name_eq. destruct Hopt as [-> | ->]; reflexivity. }
    assert (Hsec : get_section cfg OPTIMIZER = []).
    { unfold get_section. destruct Hopt as [-> | ->]; reflexivity. }
    rewrite Hnone, Hsec.
    replace (dict_get OPTIMIZER (d_defaults QAOA_CONFIGURATION))
      with (Some [(NAME, JStr "COBYLA")]) by reflexivity.
    replace (apply_default [(NAME, JStr "COBYLA")] [])
      with [(NAME, JStr "COBYLA")] by reflexivity.
    rewrite visit_S.
    rewrite component_name_eq, dict_get_set_same.
    replace (named [(NAME, JStr "COBYLA")]) with (Some "COBYLA") by reflexivity.
    rewrite Hc. cbn [res_bind]. now rewrite Hdeps. }
  now rewrite Hstep.
Qed.

(** Such a configuration resolves when its other sections pass steps 2
    and 3. *)
Lemma qaoa_defaulting_resolves cfg cobyla :
  NoDup (map fst cfg) ->
  component_name cfg ALGORITHM = Some "QAOA.Variational" ->
  dict_get OPTIMIZER cfg = None \/ dict_get OPTIMIZER cfg = Some [] ->
  lookup (registry fw) ALGORITHM "QAOA.Variational" = Ok QAOA_CONFIGURATION ->
  lookup (registry fw) OPTIMIZER "COBYLA" = Ok cobyla ->
  dict_get NAME (s_properties (d_schema cobyla)) = None ->
  d_depends cobyla = [] ->
  validate_properties OPTIMIZER (with_name (d_schema cobyla))
    ((NAME, JStr "COBYLA") :: default_properties (d_schema cobyla)) = Ok tt ->
  others_resolve fw OPTIMIZER cfg = true ->
  exists r, resolve fw cfg = Ok r.
Proof.
  intros Hnd Halg Hopt Hq Hc Hname Hdeps Hvalid Hothers.
  set (cfg1 := dict_set OPTIMIZER [(NAME, JStr "COBYLA")] cfg).
  assert (Hcn : component_name cfg1 OPTIMIZER = Some "COBYLA").
  { unfold cfg1. rewrite component_name_eq, dict_get_set_same. reflexivity. }
  unfold others_resolve in Hothers. rewrite forallb_forall in Hothers.
  assert (Hsections : forall sec, In sec cfg1 ->
                                  is_ok (resolve_section fw cfg1 sec) = true).
  { intros [k v] Hin. unfold cfg1 in Hin.
    apply (dict_set_In_other _ _ _ _ _ Hnd) in Hin as [[= -> ->]|[Hne Hin]].
    - rewrite (resolve_section_role cfg1 OPTIMIZER _ _ _ eq_refl Hcn Hc).
      rewrite (merge_section_with_name (d_schema cobyla)) by exact Hname.
      fold (default_properties (d_schema cobyla)). now rewrite Hvalid.
    - unfold cfg1. rewrite resolve_section_set_other by exact Hne.
      pose proof (Hothers _ Hin) as Hsec. cbn [fst] in Hsec.
      apply String.eqb_neq in Hne. now rewrite Hne in Hsec. }
  assert (Hdep : resolve_dependencies fw cfg = Ok cfg1).
  { unfold resolve_dependencies.
    destruct (dict_get ALGORITHM cfg) eqn:Ha.
    2:{ rewrite component_name_eq, Ha in Halg. discriminate. }
    rewrite (qaoa_dependencies cfg cobyla Halg Hopt Hq Hc Hdeps).
    fold cfg1. cbn [res_bind].
    replace (check_names cfg1 cfg1) with (Ok tt); [reflexivity|].
    symmetry. apply check_names_ok. intros k Hin Hrole.
    apply in_map_iff in Hin as (sec & <- & Hin).
    apply resolve_section_names; [now apply Hsections|exact Hrole]. }
  unfold resolve. rewrite Hdep. cbn [res_bind].
  now apply map_res_all_ok.
Qed.

(** The first violation: [p = 0] is named when nothing in front of it is
    rejected. *)
Lemma p_zero_reached_first cfg cfg1 alg n d sp :
  dict_get ALGORITHM cfg = Some alg ->
  dict_get NAME alg = Some (JStr n) ->
  dict_get "p" alg = Some (JInt 0) ->
  lookup (registry fw) ALGORITHM n = Ok d ->
  dict_get "p" (s_properties (d_schema d)) = Some sp ->
  s_minimum sp = Some 1%Z ->
  resolve_dependencies fw cfg = Ok cfg1 ->
  reached_first fw cfg1 ALGORITHM "p" = true ->
  resolve fw cfg = Err (ConfigurationError ALGORITHM "p").
Proof.
  intros Halg Hname Hp Hl Hsp Hmin Hdep Hfirst.
  unfold resolve. rewrite Hdep. cbn [res_bind].
  apply resolve_dependencies_extends in Hdep.
  assert (Hnamed : named alg = Some n) by (unfold named; now rewrite Hname).
  pose proof (extends_get _ _ _ _ _ Hdep Halg Hnamed) as Halg1.
  assert (Hcn : component_name cfg1 ALGORITHM = Some n).
  { rewrite component_name_eq. now rewrite Halg1. }
  unfold reached_first in Hfirst. apply andb_prop in Hfirst as [Hsecs Hprops].
  rewrite Halg1 in Hprops. unfold schema_for in Hprops.
  replace (is_role ALGORITHM) with true in Hprops by reflexivity.
  rewrite Hcn, Hl in Hprops. cbn [res_bind] in Hprops.
  destruct (before_key_split _ _ _ Halg1) as [rest Hsplit].
  rewrite Hsplit at 2. apply map_res_first_failure.
  - exact Hsecs.
  - rewrite (resolve_section_role cfg1 ALGORITHM alg n d eq_refl Hcn Hl).
    pose proof (merge_section_keeps_int (with_name (d_schema d)) _ _ _ Hp) as Hp'.
    destruct (before_key_split _ _ _ Hp') as [post Hmerged].
    rewrite Hmerged at 1.
    rewrite (validate_properties_first_failure ALGORITHM _ _ "p" (JInt 0) post Hprops
               (property_ok_p_zero _ _ Hsp Hmin)).
    reflexivity.
Qed.

End WithFramework.

End ScenarioFacts.

(** ** Text form: the decoder reads back what the encoder writes *)

Module TextFacts.

Import Text.

Local Open Scope char_scope.
Local Open Scope list_scope.

(** *** Strings *)

Lemma scanstring_encode_char (c : ascii) (tail : list ascii) :
  scanstring (encode_char c ++ tail)
  = match scanstring tail with
    | Some (str, r) => Some (String c str, r)
    | None => None
    end.
Proof.
  destruct c as [[] [] [] [] [] [] [] []]; reflexivity.
Qed.

Lemma scanstring_body (s : string) (rest : list ascii) :
  scanstring (flat_map encode_char (list_ascii_of_string s) ++ QUOTE :: rest)
  = Some (s, rest).
Proof.
  induction s as [|c s IH]; [reflexivity|].
  cbn [list_ascii_of_string flat_map]. rewrite <- app_assoc.
  now rewrite scanstring_encode_char, IH.
Qed.

Lemma encode_basestring_ascii_app (s : string) (rest : list ascii) :
  encode_basestring_ascii s ++ rest
  = QUOTE :: flat_map encode_char (list_ascii_of_string s) ++ QUOTE :: rest.
Proof.
  unfold encode_basestring_ascii. cbn [app]. now rewrite <- app_assoc.
Qed.

(** *** Integers *)

Lemma stop_no_digit rest : stop rest = true -> scan_digits rest = (Decimal.Nil, rest).
Proof.
  destruct rest as [|c rest]; [reflexivity|]. simpl.
  intros H. apply orb_true_iff in H as [H|H]; apply Ascii.eqb_eq in H; subst c;
    reflexivity.
Qed.

Lemma stop_no_frac rest : stop rest = true -> scan_frac rest = (None, rest).
Proof.
  destruct rest as [|c rest]; [reflexivity|]. simpl.
  intros H. apply orb_true_iff in H as [H|H]; apply Ascii.eqb_eq in H; subst c;
    reflexivity.
Qed.

Lemma stop_no_exp rest : stop rest = true -> scan_exp rest = (None, rest).
Proof.
  destruct rest as [|c rest]; [reflexivity|]. simpl.
  intros H. apply orb_true_iff in H as [H|H]; apply Ascii.eqb_eq in H; subst c;
    reflexivity.
Qed.

Lemma scan_digits_uint_upto (d : Decimal.uint) rest :
  scan_digits rest = (Decimal.Nil, rest) -> scan_digits (uint_chars d ++ rest) = (d, rest).
Proof.
  intros Hrest.
  induction d; cbn [uint_chars app]; [exact Hrest|..];
    cbn [scan_digits]; cbn; rewrite IHd; reflexivity.
Qed.

Lemma scan_digits_uint (d : Decimal.uint) rest :
  stop rest = true -> scan_digits (uint_chars d ++ rest) = (d, rest).
Proof.
  intros Hstop. apply scan_digits_uint_upto. now apply stop_no_digit.
Qed.

Lemma nzhead_not_D0 (d d' : Decimal.uint) : Decimal.nzhead d <> Decimal.D0 d'.
Proof. induction d; simpl; try discriminate. exact IHd. Qed.

Lemma to_uint_not_D0 (p : positive) (d : Decimal.uint) :
  Pos.to_uint p <> Decimal.D0 d.
Proof.
  intros H.
  pose proof (DecimalPos.Unsigned.to_of (Pos.to_uint p)) as Hn.
  rewrite DecimalPos.Unsigned.of_to in Hn. simpl in Hn. rewrite H in Hn.
  unfold Decimal.unorm in Hn. simpl in Hn.
  destruct (Decimal.nzhead d) eqn:Hz.
  - injection Hn as ->. now apply (DecimalPos.Unsigned.to_uint_nonzero p).
  - symmetry in Hn. revert Hn. rewrite <- Hz. apply nzhead_not_D0.
  - discriminate. - discriminate. - discriminate. - discriminate.
  - discriminate. - discriminate. - discriminate. - discriminate.
  - discriminate.
Qed.

Lemma scan_int_digit c dk t :
  Ascii.eqb c "0" = false ->
  digit_of_char c = Some dk ->
  scan_int (c :: t)
  = let (u, r) := scan_digits t in Some (N.of_uint (dk u), r).
Proof. intros H0 Hd. unfold scan_int. now rewrite H0, Hd. Qed.

Lemma scan_int_pos_upto (p : positive) rest :
  scan_digits rest = (Decimal.Nil, rest) ->
  scan_int (uint_chars (Pos.to_uint p) ++ rest) = Some (Npos p, rest).
Proof.
  intros Hrest.
  pose proof (DecimalPos.Unsigned.of_to p) as Hof.
  destruct (Pos.to_uint p) as [|d|d|d|d|d|d|d|d|d|d] eqn:Hd;
    [now destruct (DecimalPos.Unsigned.to_uint_nonnil p)
    |now destruct (to_uint_not_D0 p d)|..];
    cbn [uint_chars app];
    erewrite scan_int_digit by reflexivity;
    rewrite scan_digits_uint_upto by exact Hrest;
    unfold N.of_uint; now rewrite Hof.
Qed.

Lemma scan_int_pos (p : positive) rest :
  stop rest = true ->
  scan_int (uint_chars (Pos.to_uint p) ++ rest) = Some (Npos p, rest).
Proof.
  intros Hstop. apply scan_int_pos_upto. now apply stop_no_digit.
Qed.

Lemma scan_int_N (n : N) rest :
  scan_digits rest = (Decimal.Nil, rest) ->
  scan_int (uint_chars (N.to_uint n) ++ rest) = Some (n, rest).
Proof.
  intros Hrest. destruct n as [|p]; [reflexivity|]. now apply scan_int_pos_upto.
Qed.

Lemma uint_chars_head (p : positive) :
  exists c t, uint_chars (Pos.to_uint p) = c :: t
              /\ Ascii.eqb c "-" = false
              /\ exists dk, digit_of_char c = Some dk.
Proof.
  destruct (Pos.to_uint p) eqn:Hd;
    [now destruct (DecimalPos.Unsigned.to_uint_nonnil p)|..];
    cbn [uint_chars]; eexists _, _; (split; [reflexivity|]);
    (split; [reflexivity|]); eexists; reflexivity.
Qed.

Lemma digit_head c dk :
  digit_of_char c = Some dk ->
  Ascii.eqb c QUOTE = false /\ Ascii.eqb c "{" = false /\ Ascii.eqb c "[" = false
  /\ Ascii.eqb c "n" = false /\ Ascii.eqb c "t" = false /\ Ascii.eqb c "f" = false
  /\ is_ws c = false /\ Ascii.eqb c "]" = false.
Proof.
  unfold digit_of_char.
  repeat match goal with
         | |- context [Ascii.eqb c ?x] =>
             lazymatch x with
             | "0" => idtac | "1" => idtac | "2" => idtac | "3" => idtac
             | "4" => idtac | "5" => idtac | "6" => idtac | "7" => idtac
             | "8" => idtac | "9" => idtac
             end;
             destruct (Ascii.eqb_spec c x) as [->|_]; [intros _; repeat split|]
         end.
  discriminate.
Qed.

Lemma scan_number_int (z : Z) rest :
  stop rest = true -> scan_number (encode_int z ++ rest) = Some (JInt z, rest).
Proof.
  intros Hstop.
  pose proof (stop_no_frac _ Hstop) as Hf. pose proof (stop_no_exp _ Hstop) as He.
  destruct z as [|p|p]; cbn [encode_int app].
  - unfold scan_number. cbn. now rewrite Hf, He.
  - destruct (uint_chars_head p) as (c & t & Heq & Hminus & dk & Hdk).
    pose proof (scan_int_pos p rest Hstop) as Hint.
    rewrite Heq in Hint |- *. cbn [app] in Hint |- *.
    unfold scan_number. rewrite Hminus, Hint, Hf, He. reflexivity.
  - unfold scan_number. cbn [Ascii.eqb Bool.eqb]. cbv iota.
    rewrite (scan_int_pos p rest Hstop), Hf, He. reflexivity.
Qed.

(** The first character of an encoded integer and what the decoder makes of
    it. *)
Lemma parse_value_int fuel (z : Z) rest :
  stop rest = true ->
  parse_value (S fuel) (encode_int z ++ rest) = Some (JInt z, rest).
Proof.
  intros Hstop. pose proof (scan_number_int z rest Hstop) as Hnum.
  destruct z as [|p|p]; cbn [encode_int app] in Hnum |- *.
  - cbn [parse_value]. cbn [Ascii.eqb Bool.eqb QUOTE]. cbv iota.
    now rewrite Hnum.
  - destruct (uint_chars_head p) as (c & t & Heq & Hminus & dk & Hdk).
    rewrite Heq in Hnum |- *. cbn [app] in Hnum |- *.
    destruct (digit_head _ _ Hdk) as (H1 & H2 & H3 & H4 & H5 & H6 & _).
    cbn [parse_value]. now rewrite H1, H2, H3, H4, H5, H6, Hnum.
  - cbn [parse_value]. cbn [Ascii.eqb Bool.eqb QUOTE]. cbv iota.
    now rewrite Hnum.
Qed.

(** *** Floats *)

(** The text of a fraction and of an exponent. *)
Lemma scan_frac_chars (f : Decimal.uint) tail :
  PyFloat.nonempty f = true ->
  scan_digits tail = (Decimal.Nil, tail) ->
  scan_frac ("." :: uint_chars f ++ tail) = (Some f, tail).
Proof.
  intros Hf Htail. unfold scan_frac. cbn [Ascii.eqb Bool.eqb]. cbv iota.
  rewrite (scan_digits_uint_upto f tail Htail).
  destruct f; [discriminate Hf|..]; reflexivity.
Qed.

Lemma scan_exp_chars (negative : bool) (e : Decimal.uint) rest :
  PyFloat.nonempty e = true ->
  stop rest = true ->
  scan_exp ("e" :: (if negative then "-" else "+") :: uint_chars e ++ rest)
  = (Some (negative, e), rest).
Proof.
  intros He Hstop. unfold scan_exp. cbn [Ascii.eqb Bool.eqb orb]. cbv iota.
  destruct negative; cbn [Ascii.eqb Bool.eqb]; cbv iota;
    rewrite (scan_digits_uint e rest Hstop);
    (destruct e; [discriminate He|..]; reflexivity).
Qed.

Lemma exp_chars_no_digit exp rest :
  stop rest = true ->
  scan_digits (exp_chars exp ++ rest) = (Decimal.Nil, exp_chars exp ++ rest).
Proof.
  intros Hstop. destruct exp as [[s e]|]; [reflexivity|]. now apply stop_no_digit.
Qed.

Lemma exp_chars_no_frac exp rest :
  stop rest = true ->
  scan_frac (exp_chars exp ++ rest) = (None, exp_chars exp ++ rest).
Proof.
  intros Hstop. destruct exp as [[s e]|]; [reflexivity|]. now apply stop_no_frac.
Qed.

Lemma scan_exp_exp_chars exp rest :
  match exp with Some (_, e) => PyFloat.nonempty e = true | None => True end ->
  stop rest = true ->
  scan_exp (exp_chars exp ++ rest) = (exp, rest).
Proof.
  intros He Hstop. destruct exp as [[s e]|].
  - cbn [exp_chars app]. now apply scan_exp_chars.
  - now apply stop_no_exp.
Qed.

(** The digits of a literal after its sign. *)
Lemma scan_literal (n : N) frac exp rest :
  PyFloat.literal_wf (PyFloat.Literal false n frac exp) = true ->
  stop rest = true ->
  exists tail,
    uint_chars (N.to_uint n)
    ++ match frac with Some f => "." :: uint_chars f | None => [] end
    ++ exp_chars exp ++ rest
    = uint_chars (N.to_uint n) ++ tail
    /\ scan_int (uint_chars (N.to_uint n) ++ tail) = Some (n, tail)
    /\ exists tail',
        scan_frac tail = (frac, tail') /\ scan_exp tail' = (exp, rest).
Proof.
  intros Hwf Hstop. cbn [PyFloat.literal_wf] in Hwf.
  apply andb_prop in Hwf as [Hwf _]. apply andb_prop in Hwf as [Hf He].
  eexists. split; [reflexivity|].
  assert (Hexp : scan_exp (exp_chars exp ++ rest) = (exp, rest)).
  { apply scan_exp_exp_chars; [|exact Hstop]. destruct exp as [[s e]|]; auto. }
  destruct frac as [f|].
  - split; [apply scan_int_N; reflexivity|].
    exists (exp_chars exp ++ rest). split; [|exact Hexp].
    cbn [app]. apply scan_frac_chars; [exact Hf|now apply exp_chars_no_digit].
  - cbn [app]. split; [apply scan_int_N; now apply exp_chars_no_digit|].
    exists (exp_chars exp ++ rest). split; [now apply exp_chars_no_frac|exact Hexp].
Qed.

Lemma N_chars_head (n : N) :
  exists c t, uint_chars (N.to_uint n) = c :: t
              /\ Ascii.eqb c "-" = false
              /\ exists dk, digit_of_char c = Some dk.
Proof.
  destruct n as [|p]; [|apply uint_chars_head].
  exists "0", []. repeat split. eexists. reflexivity.
Qed.

Lemma scan_number_float (x : PyFloat.Float) negative n frac exp rest :
  x = PyFloat.Literal negative n frac exp ->
  PyFloat.literal_wf x = true ->
  stop rest = true ->
  scan_number (encode_float x ++ rest) = Some (JFloat x, rest).
Proof.
  intros -> Hwf Hstop.
  destruct (scan_literal n frac exp rest Hwf Hstop)
    as (tail & Heq & Hint & tail' & Hfrac & Hexp).
  assert (Hboth : match frac, exp with None, None => False | _, _ => True end).
  { cbn [PyFloat.literal_wf] in Hwf. apply andb_prop in Hwf as [_ Hwf].
    destruct frac, exp; try exact I. discriminate Hwf. }
  cbn [encode_float]. rewrite <- !app_assoc. rewrite Heq.
  unfold scan_number. destruct negative.
  - cbn [app Ascii.eqb Bool.eqb]. cbv iota. rewrite Hint, Hfrac, Hexp.
    destruct frac, exp; try reflexivity. destruct Hboth.
  - cbn [app].
    destruct (N_chars_head n) as (c & t & Hc & Hminus & _).
    rewrite Hc in Hint |- *. cbn [app] in Hint |- *.
    rewrite Hminus, Hint, Hfrac, Hexp.
    destruct frac, exp; try reflexivity. destruct Hboth.
Qed.

(** The first character of an encoded float and what the decoder makes of
    it. *)
Lemma parse_value_float fuel (x : PyFloat.Float) rest :
  PyFloat.literal_wf x = true ->
  stop rest = true ->
  parse_value (S fuel) (encode_float x ++ rest) = Some (JFloat x, rest).
Proof.
  intros Hwf Hstop. destruct x as [|[]|negative n frac exp].
  - reflexivity.
  - reflexivity.
  - reflexivity.
  - pose proof (scan_number_float _ negative n frac exp rest eq_refl Hwf Hstop) as Hnum.
    cbn [encode_float] in Hnum |- *. destruct negative.
    + cbn [app] in Hnum |- *. cbn [parse_value].
      cbn [Ascii.eqb Bool.eqb QUOTE]. cbv iota. now rewrite Hnum.
    + cbn [app] in Hnum |- *.
      destruct (N_chars_head n) as (c & t & Hc & _ & dk & Hdk).
      rewrite <- !app_assoc in Hnum |- *.
      rewrite Hc in Hnum |- *. cbn [app] in Hnum |- *.
      destruct (digit_head _ _ Hdk) as (H1 & H2 & H3 & H4 & H5 & H6 & _).
      cbn [parse_value]. now rewrite H1, H2, H3, H4, H5, H6, Hnum.
Qed.

(** *** Values *)

Lemma json_induction (P : json -> Prop) :
  P JNull ->
  (forall b, P (JBool b)) ->
  (forall z, P (JInt z)) ->
  (forall x, P (JFloat x)) ->
  (forall s, P (JStr s)) ->
  (forall items, (forall x, In x items -> P x) -> P (JArr items)) ->
  (forall fields, (forall k x, In (k, x) fields -> P x) -> P (JObj fields)) ->
  forall v, P v.
Proof.
  intros Hnull Hbool Hint Hfloat Hstr Harr Hobj. fix IH 1.
  intros [|b|z|x|s|items|fields].
  - exact Hnull.
  - apply Hbool.
  - apply Hint.
  - apply Hfloat.
  - apply Hstr.
  - apply Harr. induction items as [|y items IHi]; intros x Hin.
    + destruct Hin.
    + destruct Hin as [<-|Hin]; [apply IH|exact (IHi x Hin)].
  - apply Hobj. induction fields as [|[k0 y] fields IHf]; intros k x Hin.
    + destruct Hin.
    + destruct Hin as [Heq|Hin]; [injection Heq as _ <-; apply IH|exact (IHf k x Hin)].
Qed.

Lemma wf_array items : wf (JArr items) <-> forall x, In x items -> wf x.
Proof.
  simpl. induction items as [|y items IH]; [split; [intros _ x []|auto]|].
  rewrite IH. split.
  - intros [Hy Hall] x [<-|Hin]; auto.
  - intros H. split; [apply H; now left|]. intros x Hin. apply H. now right.
Qed.

Lemma wf_object fields :
  wf (JObj fields)
  <-> NoDup (map fst fields) /\ forall k x, In (k, x) fields -> wf x.
Proof.
  simpl. apply and_iff_compat_l.
  induction fields as [|[k0 y] fields IH]; [split; [intros _ k x []|auto]|].
  rewrite IH. split.
  - intros [Hy Hall] k x [[= <- <-]|Hin]; eauto.
  - intros H. split; [apply (H k0); now left|]. intros k x Hin. apply (H k). now right.
Qed.

(** *** Key order *)

Lemma insert_item_perm {V : Type} (kv : string * V) l :
  Permutation (insert_item kv l) (kv :: l).
Proof.
  induction l as [|kv' l IH]; simpl; [reflexivity|].
  destruct (String.leb (fst kv) (fst kv')); [reflexivity|].
  rewrite IH. apply perm_swap.
Qed.

Lemma sort_items_perm {V : Type} (l : list (string * V)) :
  Permutation (sort_items l) l.
Proof.
  induction l as [|kv l IH]; simpl; [reflexivity|].
  rewrite insert_item_perm. now constructor.
Qed.

Lemma insert_item_map {V W : Type} (f : V -> W) (kv : string * V) l :
  insert_item (fst kv, f (snd kv)) (map (fun kv => (fst kv, f (snd kv))) l)
  = map (fun kv => (fst kv, f (snd kv))) (insert_item kv l).
Proof.
  induction l as [|kv' l IH]; simpl; [reflexivity|].
  destruct (String.leb (fst kv) (fst kv')); simpl; [reflexivity|].
  now rewrite IH.
Qed.

Lemma sort_items_map {V W : Type} (f : V -> W) (l : list (string * V)) :
  sort_items (map (fun kv => (fst kv, f (snd kv))) l)
  = map (fun kv => (fst kv, f (snd kv))) (sort_items l).
Proof.
  induction l as [|kv l IH]; simpl; [reflexivity|].
  rewrite IH. apply insert_item_map.
Qed.

Lemma sort_items_nil {V : Type} (l : list (string * V)) :
  sort_items l = [] -> l = [].
Proof.
  intros H. pose proof (sort_items_perm l) as Hp. rewrite H in Hp.
  now apply Permutation_nil in Hp.
Qed.

Lemma sort_items_keys_NoDup {V : Type} (l : list (string * V)) :
  NoDup (map fst l) -> NoDup (map fst (sort_items l)).
Proof.
  intros Hnd. eapply Permutation_NoDup; [|exact Hnd].
  apply Permutation_map. symmetry. apply sort_items_perm.
Qed.

Lemma dict_of_pairs_acc (l acc : list (string * json)) :
  NoDup (map fst (acc ++ l)) ->
  fold_left (fun d kv => dict_set (fst kv) (snd kv) d) l acc = acc ++ l.
Proof.
  revert acc. induction l as [|[k v] l IH]; intros acc Hnd; simpl.
  - now rewrite app_nil_r.
  - assert (Habs : dict_get k acc = None).
    { apply dict_get_None_not_In. unfold dict_keys.
      rewrite map_app in Hnd. apply NoDup_remove_2 in Hnd.
      intros Hin. apply Hnd. apply in_or_app. now left. }
    rewrite dict_keys_set_absent by exact Habs.
    rewrite IH; rewrite <- app_assoc; [reflexivity|exact Hnd].
Qed.

Lemma dict_of_pairs_NoDup (l : list (string * json)) :
  NoDup (map fst l) -> dict_of_pairs l = l.
Proof. intros Hnd. unfold dict_of_pairs. now rewrite dict_of_pairs_acc. Qed.

(** *** White space and separators *)

Lemma skip_ws_spaces n tail : skip_ws (repeat " " n ++ tail) = skip_ws tail.
Proof. induction n as [|n IH]; [reflexivity|exact IH]. Qed.

Lemma skip_ws_newline_indent level tail :
  skip_ws (newline_indent level ++ tail) = skip_ws tail.
Proof. unfold newline_indent. cbn [app skip_ws is_ws]. cbn. apply skip_ws_spaces. Qed.

Lemma skip_ws_separator level tail :
  skip_ws (item_separator level ++ tail) = "," :: newline_indent level ++ tail.
Proof. reflexivity. Qed.

Lemma skip_ws_colon t : skip_ws (":" :: t) = ":" :: t.
Proof. reflexivity. Qed.

Lemma skip_ws_space t : skip_ws (" " :: t) = skip_ws t.
Proof. reflexivity. Qed.

Lemma skip_ws_quote t : skip_ws (QUOTE :: t) = QUOTE :: t.
Proof. reflexivity. Qed.

Lemma object_open level tail :
  (if Ascii.eqb (hd "x" (newline_indent level ++ tail)) QUOTE
   then newline_indent level ++ tail
   else skip_ws (newline_indent level ++ tail))
  = skip_ws tail.
Proof. rewrite skip_ws_newline_indent. reflexivity. Qed.

Lemma skip_ws_head c t : is_ws c = false -> skip_ws (c :: t) = c :: t.
Proof. intros H. simpl. now rewrite H. Qed.

Lemma join_cons_app sep p ps tail :
  join sep (p :: ps) ++ tail
  = p ++ match ps with
         | [] => tail
         | _ :: _ => sep ++ join sep ps ++ tail
         end.
Proof.
  destruct ps as [|q ps]; [reflexivity|].
  cbn [join]. now rewrite <- !app_assoc.
Qed.

Lemma join_single_app sep p tail : join sep [p] ++ tail = p ++ tail.
Proof. reflexivity. Qed.

Lemma join_more_app sep p q ps tail :
  join sep (p :: q :: ps) ++ tail = p ++ sep ++ join sep (q :: ps) ++ tail.
Proof. cbn [join]. now rewrite <- !app_assoc. Qed.

Lemma encode_head level v :
  exists c t, encode level v = c :: t /\ value_head c.
Proof.
  destruct v as [|[]|[|p|p]|[|[]|[] n frac exp]|s|[|x items]|[|kv fields]];
    try (eexists _, _; split; [reflexivity|repeat split]).
  - destruct (uint_chars_head p) as (c & t & Heq & _ & dk & Hdk).
    exists c, t. split; [exact Heq|].
    destruct (digit_head _ _ Hdk) as (_ & _ & _ & _ & _ & _ & Hws & Hb).
    repeat split; auto.
    unfold digit_of_char in Hdk.
    destruct (Ascii.eqb_spec c "}") as [->|]; [discriminate|reflexivity].
  - destruct (N_chars_head n) as (c & t & Heq & _ & dk & Hdk).
    cbn [encode encode_float app]. rewrite Heq. cbn [app].
    eexists _, _. split; [reflexivity|].
    destruct (digit_head _ _ Hdk) as (_ & _ & _ & _ & _ & _ & Hws & Hb).
    repeat split; auto.
    unfold digit_of_char in Hdk.
    destruct (Ascii.eqb_spec c "}") as [->|]; [discriminate|reflexivity].
Qed.

Lemma encode_length level v : 1 <= List.length (encode level v).
Proof.
  destruct (encode_head level v) as (c & t & -> & _). simpl. lia.
Qed.

Lemma stop_newline_indent level tail : stop (newline_indent level ++ tail) = true.
Proof. reflexivity. Qed.

Lemma stop_item_separator level tail : stop (item_separator level ++ tail) = true.
Proof. reflexivity. Qed.

(** *** Arrays and objects *)

Lemma encode_array_app level x items rest :
  encode level (JArr (x :: items)) ++ rest
  = "[" :: newline_indent (S level)
    ++ (join (item_separator (S level)) (map (encode (S level)) (x :: items))
        ++ newline_indent level ++ "]" :: rest).
Proof.
  cbn [encode app]. rewrite <- !app_assoc. reflexivity.
Qed.

Lemma encode_object_app level kv fields rest :
  encode level (JObj (kv :: fields)) ++ rest
  = "{" :: newline_indent (S level)
    ++ (join (item_separator (S level)) (map (item level) (sort_items (kv :: fields)))
        ++ newline_indent level ++ "}" :: rest).
Proof.
  cbn [encode app]. rewrite <- !app_assoc.
  rewrite (sort_items_map (encode (S level)) (kv :: fields)), map_map.
  reflexivity.
Qed.

Lemma join_values_head level x items tail :
  exists c t,
    join (item_separator (S level)) (map (encode (S level)) (x :: items)) ++ tail = c :: t
    /\ value_head c.
Proof.
  cbn [map]. rewrite join_cons_app.
  destruct (encode_head (S level) x) as (c & t & -> & Hc).
  cbn [app]. eauto.
Qed.

Lemma join_items_head level kv l tail :
  join (item_separator (S level)) (map (item level) (kv :: l)) ++ tail
  = QUOTE :: tl (join (item_separator (S level)) (map (item level) (kv :: l)) ++ tail).
Proof.
  assert (H : exists X,
             join (item_separator (S level)) (map (item level) (kv :: l)) ++ tail
             = QUOTE :: X).
  { cbn [map]. rewrite join_cons_app. unfold item at 1, encode_item. cbn [fst snd].
    rewrite <- app_assoc, encode_basestring_ascii_app. eauto. }
  destruct H as [X ->]. reflexivity.
Qed.

Lemma parse_array_items level items :
  (forall x, In x items -> reads_back x) ->
  items <> [] ->
  forall fuel acc rest,
    List.length (join (item_separator (S level)) (map (encode (S level)) items)) < fuel ->
    parse_array fuel
      (join (item_separator (S level)) (map (encode (S level)) items)
       ++ newline_indent level ++ "]" :: rest) acc
    = Some (JArr (rev acc ++ map canon items), rest).
Proof.
  induction items as [|x items IH]; intros Hall Hne fuel acc rest Hfuel; [congruence|].
  destruct fuel as [|fuel]; [lia|].
  pose proof (encode_length (S level) x) as Hlen.
  assert (Hx : reads_back x) by (apply Hall; now left).
  destruct items as [|y items].
  - cbn [map] in Hfuel |- *. rewrite join_single_app.
    cbn [join] in Hfuel. cbn [parse_array].
    rewrite Hx by (reflexivity || lia).
    rewrite skip_ws_newline_indent. cbn.
    reflexivity.
  - assert (Hfuel' : List.length (join (item_separator (S level))
                                    (map (encode (S level)) (y :: items))) < fuel
                     /\ List.length (encode (S level) x) <= fuel).
    { cbn [map] in Hfuel |- *.
      pose proof (join_more_app (item_separator (S level)) (encode (S level) x)
                    (encode (S level) y) (map (encode (S level)) items) []) as Heq.
      rewrite !app_nil_r in Heq. rewrite Heq in Hfuel.
      rewrite !length_app in Hfuel. lia. }
    destruct Hfuel' as [Hfuel' Hfx].
    change (map (encode (S level)) (x :: y :: items))
      with (encode (S level) x :: encode (S level) y :: map (encode (S level)) items).
    rewrite join_more_app.
    change (encode (S level) y :: map (encode (S level)) items)
      with (map (encode (S level)) (y :: items)).
    cbn [parse_array].
    rewrite Hx by (reflexivity || exact Hfx).
    rewrite skip_ws_separator. cbn [Ascii.eqb Bool.eqb]. cbv iota.
    rewrite skip_ws_newline_indent.
    destruct (join_values_head level y items (newline_indent level ++ "]" :: rest))
      as (c & t & Heq & Hws & _).
    rewrite Heq, (skip_ws_head _ _ Hws), <- Heq.
    rewrite IH.
    + cbn [rev map]. now rewrite <- app_assoc.
    + intros z Hz. apply Hall. now right.
    + discriminate.
    + exact Hfuel'.
Qed.

Lemma item_app level k x tail :
  item level (k, x) ++ tail
  = QUOTE :: flat_map encode_char (list_ascii_of_string k)
    ++ QUOTE :: ":" :: " " :: encode (S level) x ++ tail.
Proof.
  unfold item, encode_item. cbn [fst snd].
  rewrite <- app_assoc, encode_basestring_ascii_app. reflexivity.
Qed.

Lemma parse_object_items level l :
  (forall k x, In (k, x) l -> reads_back x) ->
  l <> [] ->
  forall fuel acc rest,
    List.length (join (item_separator (S level)) (map (item level) l)) < fuel ->
    parse_object fuel
      (tl (join (item_separator (S level)) (map (item level) l)
           ++ newline_indent level ++ "}" :: rest)) acc
    = Some (JObj (dict_of_pairs
                    (rev acc ++ map (fun kv => (fst kv, canon (snd kv))) l)), rest).
Proof.
  induction l as [|[k x] l IH]; intros Hall Hne fuel acc rest Hfuel; [congruence|].
  destruct fuel as [|fuel]; [lia|].
  pose proof (encode_length (S level) x) as Hlen.
  assert (Hx : reads_back x) by (apply (Hall k); now left).
  destruct (encode_head (S level) x) as (c & t & Heq & Hws & _).
  assert (Hitem : List.length (encode (S level) x) < List.length (item level (k, x))).
  { unfold item, encode_item. cbn [fst snd]. rewrite length_app. cbn [List.length]. lia. }
  destruct l as [|kv l].
  - cbn [map] in Hfuel |- *. rewrite join_single_app.
    cbn [join] in Hfuel. rewrite item_app. cbn [tl].
    cbn [parse_object]. rewrite scanstring_body.
    rewrite skip_ws_colon. cbn [Ascii.eqb Bool.eqb]. cbv iota.
    rewrite skip_ws_space.
    rewrite Heq at 1. cbn [app]. rewrite (skip_ws_head _ _ Hws).
    change (c :: t ++ ?r) with ((c :: t) ++ r). rewrite <- Heq.
    rewrite Hx by (reflexivity || lia).
    rewrite skip_ws_newline_indent. cbn.
    reflexivity.
  - assert (Hfuel' : List.length (join (item_separator (S level))
                                    (map (item level) (kv :: l))) < fuel).
    { cbn [map] in Hfuel |- *.
      pose proof (join_more_app (item_separator (S level)) (item level (k, x))
                    (item level kv) (map (item level) l) []) as Hj.
      rewrite !app_nil_r in Hj. rewrite Hj in Hfuel.
      rewrite !length_app in Hfuel. lia. }
    assert (Hfx : List.length (encode (S level) x) <= fuel).
    { cbn [map] in Hfuel.
      pose proof (join_more_app (item_separator (S level)) (item level (k, x))
                    (item level kv) (map (item level) l) []) as Hj.
      rewrite !app_nil_r in Hj. rewrite Hj in Hfuel.
      rewrite !length_app in Hfuel. lia. }
    change (map (item level) ((k, x) :: kv :: l))
      with (item level (k, x) :: item level kv :: map (item level) l).
    rewrite join_more_app.
    change (item level kv :: map (item level) l) with (map (item level) (kv :: l)).
    rewrite item_app. cbn [tl].
    cbn [parse_object]. rewrite scanstring_body.
    rewrite skip_ws_colon. cbn [Ascii.eqb Bool.eqb]. cbv iota.
    rewrite skip_ws_space.
    rewrite Heq at 1. cbn [app]. rewrite (skip_ws_head _ _ Hws).
    change (c :: t ++ ?r) with ((c :: t) ++ r). rewrite <- Heq.
    rewrite Hx by (reflexivity || exact Hfx).
    rewrite skip_ws_separator. cbn [Ascii.eqb Bool.eqb]. cbv iota.
    rewrite skip_ws_newline_indent.
    rewrite join_items_head, skip_ws_quote.
    cbn [Ascii.eqb Bool.eqb QUOTE]. cbv iota.
    rewrite IH.
    + cbn [rev map fst snd]. now rewrite <- app_assoc.
    + intros k' z Hz. apply (Hall k'). now right.
    + discriminate.
    + exact Hfuel'.
Qed.

(** The decoder inverts the encoder, up to the order of keys. *)
Lemma parse_value_encode (v : json) : wf v -> reads_back v.
Proof.
  induction v as [|b|z|x|s|items IH|fields IH] using json_induction;
    intros Hwf level fuel rest Hstop Hfuel.
  - destruct fuel as [|fuel]; [cbn in Hfuel; lia|]. reflexivity.
  - destruct fuel as [|fuel]; [destruct b; cbn in Hfuel; lia|]. destruct b; reflexivity.
  - destruct fuel as [|fuel]; [pose proof (encode_length level (JInt z)); lia|].
    now apply parse_value_int.
  - destruct fuel as [|fuel]; [pose proof (encode_length level (JFloat x)); lia|].
    now apply parse_value_float.
  - destruct fuel as [|fuel]; [pose proof (encode_length level (JStr s)); lia|].
    cbn [encode canon]. rewrite encode_basestring_ascii_app.
    cbn [parse_value]. cbn [Ascii.eqb Bool.eqb QUOTE]. cbv iota.
    now rewrite scanstring_body.
  - destruct fuel as [|fuel]; [pose proof (encode_length level (JArr items)); lia|].
    destruct items as [|x items]; [reflexivity|].
    rewrite wf_array in Hwf.
    assert (Hlen : List.length (join (item_separator (S level))
                                 (map (encode (S level)) (x :: items))) < fuel).
    { pose proof (encode_array_app level x items []) as Heq.
      rewrite app_nil_r in Heq. rewrite Heq in Hfuel.
      cbn [List.length] in Hfuel. rewrite !length_app in Hfuel.
      cbn [List.length newline_indent] in Hfuel. lia. }
    rewrite encode_array_app. cbn [parse_value].
    cbn [Ascii.eqb Bool.eqb QUOTE]. cbv iota.
    rewrite skip_ws_newline_indent.
    destruct (join_values_head level x items (newline_indent level ++ "]" :: rest))
      as (c & t & Heq & Hws & Hb & _).
    rewrite Heq, (skip_ws_head _ _ Hws), Hb, <- Heq.
    rewrite parse_array_items; [reflexivity| |discriminate|exact Hlen].
    intros y Hy. apply IH; [exact Hy|now apply Hwf].
  - destruct fuel as [|fuel]; [pose proof (encode_length level (JObj fields)); lia|].
    destruct fields as [|kv fields]; [reflexivity|].
    rewrite wf_object in Hwf. destruct Hwf as [Hnd Hwf].
    destruct (sort_items (kv :: fields)) as [|kv' sorted] eqn:Hsort;
      [apply sort_items_nil in Hsort; discriminate|].
    assert (Hlen : List.length (join (item_separator (S level))
                                 (map (item level) (kv' :: sorted))) < fuel).
    { pose proof (encode_object_app level kv fields []) as Heq.
      rewrite app_nil_r, Hsort in Heq. rewrite Heq in Hfuel.
      cbn [List.length] in Hfuel. rewrite !length_app in Hfuel.
      cbn [List.length newline_indent] in Hfuel. lia. }
    rewrite encode_object_app, Hsort. cbn [parse_value].
    cbn [Ascii.eqb Bool.eqb QUOTE]. cbv iota.
    rewrite object_open.
    rewrite join_items_head, skip_ws_quote.
    cbn [Ascii.eqb Bool.eqb QUOTE]. cbv iota.
    rewrite parse_object_items; [|intros k y Hy|discriminate|exact Hlen].
    + cbn [rev app canon].
      rewrite sort_items_map, Hsort.
      rewrite dict_of_pairs_NoDup; [reflexivity|].
      rewrite map_map. cbn [fst]. rewrite <- Hsort.
      change (fun x => fst x) with (@fst string json).
      now apply sort_items_keys_NoDup.
    + assert (Hin : In (k, y) (kv :: fields)).
      { eapply Permutation_in; [|rewrite <- Hsort in Hy; exact Hy].
        apply sort_items_perm. }
      apply (IH k y Hin). now apply (Hwf k).
Qed.

(** [json.loads(json.dumps(v, sort_keys=True, indent=4))] is [v] with its
    keys in order. *)
Lemma loads_dumps (v : json) : wf v -> loads (dumps v) = Some (canon v).
Proof.
  intros Hwf. unfold loads, dumps.
  destruct (encode_head 0 v) as (c & t & Heq & Hws & _).
  rewrite Heq, (skip_ws_head _ _ Hws), <- Heq.
  pose proof (parse_value_encode v Hwf 0 (S (List.length (encode 0 v))) [] eq_refl) as H.
  rewrite app_nil_r in H. rewrite H by lia. reflexivity.
Qed.

End TextFacts.

(** ** Text form: equality of what is read back *)

Module RoundTripFacts.

Import Text TextFacts Resolver MergeFacts ResolverFacts.

Lemma py_eqb_object xs ys :
  py_eqb (JObj xs) (JObj ys)
  = Nat.eqb (List.length xs) (List.length ys)
    && forallb (fun kx => match dict_get (fst kx) ys with
                          | Some y => py_eqb (snd kx) y
                          | None => false
                          end) xs.
Proof.
  cbn [py_eqb]. f_equal.
  induction xs as [|[k x] xs IH]; [reflexivity|].
  cbn [forallb fst snd]. destruct (dict_get k ys); [now rewrite IH|reflexivity].
Qed.

Lemma py_eqb_array_map (f : json -> json) items :
  (forall x, In x items -> py_eqb (f x) x = true) ->
  py_eqb (JArr (map f items)) (JArr items) = true.
Proof.
  intros Hall. cbn [py_eqb].
  induction items as [|x items IH]; [reflexivity|].
  cbn [map]. rewrite (Hall x) by now left. cbn [andb].
  apply IH. intros y Hy. apply Hall. now right.
Qed.

Lemma same_but_order_object xs ys :
  same_but_order (JObj xs) (JObj ys)
  = Nat.eqb (List.length xs) (List.length ys)
    && forallb (fun kx => match dict_get (fst kx) ys with
                          | Some y => same_but_order (snd kx) y
                          | None => false
                          end) xs.
Proof.
  cbn [same_but_order]. f_equal.
  induction xs as [|[k x] xs IH]; [reflexivity|].
  cbn [forallb fst snd]. destruct (dict_get k ys); [now rewrite IH|reflexivity].
Qed.

Lemma same_but_order_array_map (f : json -> json) items :
  (forall x, In x items -> same_but_order (f x) x = true) ->
  same_but_order (JArr (map f items)) (JArr items) = true.
Proof.
  intros Hall. cbn [same_but_order].
  induction items as [|x items IH]; [reflexivity|].
  cbn [map]. rewrite (Hall x) by now left. cbn [andb].
  apply IH. intros y Hy. apply Hall. now right.
Qed.

Lemma uint_eqb_eq d d' : PyFloat.uint_eqb d d' = true <-> d = d'.
Proof.
  unfold PyFloat.uint_eqb. destruct (Decimal.uint_eq_dec d d'); split; intros H;
    congruence.
Qed.

(** Two floats are written the same way when they are the same literal. *)
Lemma float_same_eq x y : PyFloat.same x y = true <-> x = y.
Proof.
  split.
  - destruct x as [|a|a i f e], y as [|b|b i' f' e']; simpl; try discriminate.
    + reflexivity.
    + intros H. apply Bool.eqb_prop in H. now subst.
    + intros H. apply andb_prop in H as [H He]. apply andb_prop in H as [H Hf].
      apply andb_prop in H as [Ha Hi].
      apply Bool.eqb_prop in Ha. apply N.eqb_eq in Hi. subst b i'.
      assert (f = f') as <-.
      { destruct f, f'; try discriminate; [|reflexivity].
        apply uint_eqb_eq in Hf. now subst. }
      assert (e = e') as <-; [|reflexivity].
      destruct e as [[s d]|], e' as [[s' d']|]; try discriminate; [|reflexivity].
      apply andb_prop in He as [Hs Hd].
      apply Bool.eqb_prop in Hs. apply uint_eqb_eq in Hd. now subst.
  - intros <-. destruct x as [|a|a i f e]; simpl.
    + reflexivity.
    + apply Bool.eqb_reflx.
    + rewrite Bool.eqb_reflx, N.eqb_refl. simpl.
      assert (Hu : forall d, PyFloat.uint_eqb d d = true) by (intros d; now apply uint_eqb_eq).
      destruct f; [rewrite Hu|]; simpl;
        (destruct e as [[s d]|]; [now rewrite Bool.eqb_reflx, Hu|reflexivity]).
Qed.

(** A value is the value with its keys in order, up to that order. *)
Lemma same_but_order_canon (v : json) :
  wf v -> same_but_order (canon v) v = true.
Proof.
  induction v as [|b|z|x|s|items IH|fields IH] using json_induction;
    intros Hwf.
  - reflexivity.
  - simpl. now destruct b.
  - simpl. apply Z.eqb_refl.
  - simpl. now apply float_same_eq.
  - simpl. apply String.eqb_refl.
  - cbn [canon]. rewrite wf_array in Hwf.
    apply same_but_order_array_map.
    intros x Hx. apply IH; auto.
  - cbn [canon]. rewrite wf_object in Hwf. destruct Hwf as [Hnd Hwf].
    rewrite same_but_order_object. apply andb_true_intro. split.
    + apply Nat.eqb_eq.
      rewrite (Permutation_length (sort_items_perm _)). apply length_map.
    + apply forallb_forall. intros [k x'] Hin. cbn [fst snd].
      apply (Permutation_in _ (sort_items_perm _)) in Hin.
      apply in_map_iff in Hin as ([k0 x] & Heq & Hin).
      cbn [fst snd] in Heq. injection Heq as -> <-.
      rewrite (In_dict_get _ _ _ Hnd Hin).
      apply (IH k x Hin). now apply (Hwf k).
Qed.

(** Rounding gives a number. *)
Lemma round_ratio_number negative num den :
  PyFloat.round_ratio negative num den <> PyFloat.B64_nan.
Proof.
  unfold PyFloat.round_ratio.
  repeat match goal with
         | |- context [if ?c then _ else _] => destruct c
         | |- context [match ?c with _ => _ end] => destruct c
         end; discriminate.
Qed.

(** A float that is not a NaN equals itself. *)
Lemma float_eqb_refl (x : PyFloat.Float) :
  PyFloat.is_nan x = false -> PyFloat.eqb x x = true.
Proof.
  intros Hnan. unfold PyFloat.eqb.
  assert (Hv : PyFloat.value x <> PyFloat.B64_nan).
  { destruct x as [|s|s n frac exp]; [discriminate Hnan|discriminate|].
    cbn [PyFloat.value].
    repeat match goal with
           | |- context [if ?c then _ else _] => destruct c
           | |- context [match ?c with _ => _ end] => destruct c
           end; try discriminate; apply round_ratio_number. }
  destruct (PyFloat.value x) as [|s|s|s m e]; [now destruct Hv|..]; simpl.
  - apply Bool.eqb_reflx.
  - reflexivity.
  - now rewrite Bool.eqb_reflx, Pos.eqb_refl, Z.eqb_refl.
Qed.

Lemma nan_free_array items :
  nan_free (JArr items) = true <-> forall x, In x items -> nan_free x = true.
Proof. cbn [nan_free]. apply forallb_forall. Qed.

Lemma nan_free_object fields :
  nan_free (JObj fields) = true <-> forall k x, In (k, x) fields -> nan_free x = true.
Proof.
  cbn [nan_free]. rewrite forallb_forall. split.
  - intros H k x Hin. exact (H (k, x) Hin).
  - intros H [k x] Hin. exact (H k x Hin).
Qed.

(** A value without NaN equals, in Python's sense, the value with its keys
    in order. *)
Lemma py_eqb_canon (v : json) :
  wf v -> nan_free v = true -> py_eqb (canon v) v = true.
Proof.
  induction v as [|b|z|x|s|items IH|fields IH] using json_induction;
    intros Hwf Hnan.
  - reflexivity.
  - simpl. now destruct b.
  - simpl. apply Z.eqb_refl.
  - simpl. apply float_eqb_refl. simpl in Hnan. now destruct (PyFloat.is_nan x).
  - simpl. apply String.eqb_refl.
  - cbn [canon]. rewrite wf_array in Hwf. rewrite nan_free_array in Hnan.
    apply py_eqb_array_map.
    intros x Hx. apply IH; auto.
  - cbn [canon]. rewrite wf_object in Hwf. destruct Hwf as [Hnd Hwf].
    rewrite nan_free_object in Hnan.
    rewrite py_eqb_object. apply andb_true_intro. split.
    + apply Nat.eqb_eq.
      rewrite (Permutation_length (sort_items_perm _)). apply length_map.
    + apply forallb_forall. intros [k x'] Hin. cbn [fst snd].
      apply (Permutation_in _ (sort_items_perm _)) in Hin.
      apply in_map_iff in Hin as ([k0 x] & Heq & Hin).
      cbn [fst snd] in Heq. injection Heq as -> <-.
      rewrite (In_dict_get _ _ _ Hnd Hin).
      apply (IH k x Hin); [now apply (Hwf k)|now apply (Hnan k)].
Qed.

Lemma config_of_json_objects fields :
  (forall k v, In (k, v) fields -> exists d, v = JObj d) ->
  exists cfg, config_of_json (JObj fields) = Some cfg /\ config_json cfg = JObj fields.
Proof.
  unfold config_json. cbn [config_of_json].
  induction fields as [|[k v] fields IH]; intros Hall.
  - exists []. split; reflexivity.
  - destruct IH as (cfg & Hcfg & Heq); [intros k' v' Hin; apply (Hall k'); now right|].
    destruct (Hall k v) as [d ->]; [now left|].
    exists ((k, d) :: cfg). cbn [fold_right fst snd]. rewrite Hcfg. split; [reflexivity|].
    cbn [map fst snd]. injection Heq as ->. reflexivity.
Qed.

Lemma canon_config_sections cfg k v :
  In (k, v) (sort_items (map (fun kv => (fst kv, canon (snd kv)))
                           (map (fun kv => (fst kv, JObj (snd kv))) cfg))) ->
  exists d, v = JObj d.
Proof.
  intros Hin. apply (Permutation_in _ (sort_items_perm _)) in Hin.
  rewrite map_map in Hin. apply in_map_iff in Hin as ([k0 d] & [= _ <-] & _).
  cbn [fst snd canon]. eauto.
Qed.

(** What was persisted is read back as a configuration: the persisted one
    with its keys in order. *)
Lemma reparse_dumps_canon cfg :
  config_wf cfg ->
  exists cfg',
    reparse (dumps (config_json cfg)) = Some cfg'
    /\ config_json cfg' = canon (config_json cfg).
Proof.
  intros Hwf. unfold reparse. rewrite (loads_dumps _ Hwf).
  destruct (config_of_json_objects
              (sort_items (map (fun kv => (fst kv, canon (snd kv)))
                             (map (fun kv => (fst kv, JObj (snd kv))) cfg))))
    as (cfg' & Hcfg & Heq).
  { intros k v. apply canon_config_sections. }
  exists cfg'. split.
  - unfold config_json. cbn [canon]. exact Hcfg.
  - rewrite Heq. unfold config_json. reflexivity.
Qed.

(** It is the persisted configuration up to the order of the keys, and
    equal to it when that holds no NaN. *)
Lemma reparse_dumps cfg :
  config_wf cfg ->
  exists cfg',
    reparse (dumps (config_json cfg)) = Some cfg'
    /\ same_but_order (config_json cfg') (config_json cfg) = true
    /\ (nan_free (config_json cfg) = true ->
        py_eqb (config_json cfg') (config_json cfg) = true).
Proof.
  intros Hwf. destruct (reparse_dumps_canon cfg Hwf) as (cfg' & Hcfg & Heq).
  exists cfg'. rewrite Heq. split; [exact Hcfg|]. split.
  - now apply same_but_order_canon.
  - intros Hnan. now apply py_eqb_canon.
Qed.

(** *** Resolution keeps the keys of every dictionary distinct *)

Lemma config_wf_iff cfg :
  config_wf cfg
  <-> NoDup (map fst cfg) /\ forall k d, In (k, d) cfg -> wf (JObj d).
Proof.
  unfold config_wf, config_json. rewrite wf_object, map_map. cbn [fst].
  apply and_iff_compat_l. split.
  - intros H k d Hin. apply (H k). apply in_map_iff. now exists (k, d).
  - intros H k x Hin. apply in_map_iff in Hin as ([k0 d] & [= <- <-] & Hin).
    now apply (H k0).
Qed.

Lemma wf_dict_set k v d : wf (JObj d) -> wf v -> wf (JObj (dict_set k v d)).
Proof.
  rewrite !wf_object. intros [Hnd Hall] Hv. split.
  - now apply dict_set_NoDup.
  - intros k' x Hin. apply dict_set_In in Hin as [[= -> ->]|Hin]; eauto.
Qed.

Lemma wf_dict_get k v d : wf (JObj d) -> dict_get k d = Some v -> wf v.
Proof.
  rewrite wf_object. intros [_ Hall] Hget. apply dict_get_In in Hget. eauto.
Qed.

Lemma apply_default_wf dflt section :
  wf (JObj dflt) -> wf (JObj section) -> wf (JObj (apply_default dflt section)).
Proof.
  unfold apply_default. rewrite (wf_object dflt). intros [_ Hall]. revert section.
  induction dflt as [|[k v] dflt IH]; intros section Hsec; [exact Hsec|].
  cbn [fold_left fst snd]. apply IH.
  - intros k' x Hin. apply (Hall k'). now right.
  - assert (Hv : wf v) by (apply (Hall k); now left).
    destruct (dict_get k section) as [[]|]; auto using wf_dict_set.
Qed.

Lemma config_wf_set cfg k section :
  config_wf cfg -> wf (JObj section) -> config_wf (dict_set k section cfg).
Proof.
  rewrite !config_wf_iff. intros [Hnd Hall] Hsec. split.
  - now apply dict_set_NoDup.
  - intros k' d Hin. apply dict_set_In in Hin as [[= -> ->]|Hin]; eauto.
Qed.

Lemma get_section_wf cfg k : config_wf cfg -> wf (JObj (get_section cfg k)).
Proof.
  rewrite config_wf_iff. intros [_ Hall]. unfold get_section.
  destruct (dict_get k cfg) as [d|] eqn:Hget.
  - apply dict_get_In in Hget. eauto.
  - simpl. split; [constructor|exact I].
Qed.

Lemma schema_defaults_wf_properties s :
  schema_defaults_wf s ->
  (forall d, s_default s = Some d -> wf d)
  /\ forall k sk, In (k, sk) (s_properties s) -> schema_defaults_wf sk.
Proof.
  destruct s as [t d m e items props a]; simpl. intros [Hd Hall]. split.
  - intros d' ->. exact Hd.
  - clear Hd. induction props as [|[k sk] props IHp]; intros k' sk' Hin; [destruct Hin|].
    destruct Hall as [Hsk Hall]. destruct Hin as [Heq|Hin].
    + now injection Heq as _ <-.
    + exact (IHp Hall k' sk' Hin).
Qed.

Lemma complete_wf merge props fields :
  (forall k sk, In (k, sk) props ->
     (forall d, s_default sk = Some d -> wf d)
     /\ forall x, wf x -> wf (merge sk x)) ->
  wf (JObj fields) -> wf (JObj (complete merge props fields)).
Proof.
  revert fields. induction props as [|[k sk] props IH]; intros fields Hall Hwf;
    [exact Hwf|].
  cbn [complete]. apply IH; [intros k' sk' Hin; apply (Hall k'); now right|].
  destruct (Hall k sk) as [Hd Hm]; [now left|].
  unfold complete_property.
  destruct (dict_get k fields) as [x|] eqn:Hget.
  - apply wf_dict_set; [exact Hwf|]. apply Hm. eapply wf_dict_get; eauto.
  - destruct (s_default sk) as [d|]; [|exact Hwf].
    apply wf_dict_set; [exact Hwf|]. apply Hm. now apply Hd.
Qed.

Lemma merge_defaults_wf s :
  schema_defaults_wf s -> forall v, wf v -> wf (merge_defaults s v).
Proof.
  induction s as [t d m e items props a IHp] using Schema_induction.
  intros Hs v Hv.
  apply schema_defaults_wf_properties in Hs as [_ Hall]. cbn [s_properties] in Hall.
  destruct v; try exact Hv.
  rewrite merge_defaults_object. cbn [s_properties].
  apply complete_wf; [|exact Hv].
  intros k sk Hin. pose proof (Hall k sk Hin) as Hsk. split.
  - now apply schema_defaults_wf_properties in Hsk as [Hd _].
  - now apply (IHp k sk Hin).
Qed.

Lemma merge_section_wf s props :
  schema_defaults_wf s -> wf (JObj props) -> wf (JObj (merge_section s props)).
Proof.
  intros Hs Hp. pose proof (merge_defaults_wf s Hs _ Hp) as H.
  rewrite merge_defaults_object in H. now rewrite merge_section_eq.
Qed.

Lemma schema_defaults_wf_intro t d m e items props a :
  (forall v, d = Some v -> wf v) ->
  (forall k sk, In (k, sk) props -> schema_defaults_wf sk) ->
  schema_defaults_wf (mkSchema t d m e items props a).
Proof.
  intros Hd Hall. cbn [schema_defaults_wf]. split.
  - destruct d; [now apply Hd|exact I].
  - clear Hd. induction props as [|[k sk] props IHp]; [exact I|].
    split.
    + apply (Hall k sk). now left.
    + apply IHp. intros k' sk' Hin. apply (Hall k' sk'). now right.
Qed.

Lemma with_name_defaults_wf s : schema_defaults_wf s -> schema_defaults_wf (with_name s).
Proof.
  intros Hs. apply schema_defaults_wf_properties in Hs as [Hd Hall].
  unfold with_name. apply schema_defaults_wf_intro; [exact Hd|].
  intros k sk Hin. apply dict_set_In in Hin as [[= -> ->]|Hin].
  - apply schema_defaults_wf_intro; [discriminate|intros ? ? []].
  - eauto.
Qed.

Section WithFramework.

Context (fw : Framework).

Hypothesis defaults_wf : framework_defaults_wf fw.

Lemma lookup_defaults_wf role n d :
  lookup (registry fw) role n = Ok d ->
  schema_defaults_wf (d_schema d)
  /\ forall dep dflt, dict_get dep (d_defaults d) = Some dflt -> wf (JObj dflt).
Proof.
  intros Hl. apply lookup_In in Hl. destruct defaults_wf as [Hreg _].
  rewrite Forall_forall in Hreg. destruct (Hreg d Hl) as [Hs Hd]. split; [exact Hs|].
  intros dep dflt Hget. apply dict_get_In in Hget.
  rewrite Forall_forall in Hd. exact (Hd (dep, dflt) Hget).
Qed.

Lemma visit_dep_wf rec d on_path role n :
  lookup (registry fw) role n = Ok d ->
  (forall dep c c', rec dep c = Ok c' -> config_wf c -> config_wf c') ->
  forall c dep c', visit_dep rec d on_path c dep = Ok c' -> config_wf c -> config_wf c'.
Proof.
  intros Hl Hrec c dep c'. unfold visit_dep.
  destruct (existsb (String.eqb dep) on_path); [discriminate|].
  destruct (component_name c dep); [apply Hrec|].
  destruct (dict_get dep (d_defaults d)) as [dflt|] eqn:Hd; [|discriminate].
  intros H Hc. apply (Hrec _ _ _ H). apply config_wf_set; [exact Hc|].
  apply apply_default_wf; [|now apply get_section_wf].
  destruct (lookup_defaults_wf _ _ _ Hl) as [_ Hdefaults]. eauto.
Qed.

Lemma fold_res_wf (step : Config -> string -> Res Config) deps :
  (forall c dep c', step c dep = Ok c' -> config_wf c -> config_wf c') ->
  forall c c', fold_res step deps c = Ok c' -> config_wf c -> config_wf c'.
Proof.
  intros Hstep. induction deps as [|dep deps IH]; intros c c'; simpl.
  - now intros [= <-].
  - destruct (step c dep) as [c1|] eqn:H1; [|discriminate].
    intros H Hc. apply (IH _ _ H). eapply Hstep; eauto.
Qed.

Lemma visit_wf fuel : forall path role cfg cfg',
  visit fw fuel path role cfg = Ok cfg' -> config_wf cfg -> config_wf cfg'.
Proof.
  induction fuel as [|fuel IH]; intros path role cfg cfg'; simpl; [discriminate|].
  destruct (component_name cfg role) as [n|]; [|discriminate].
  destruct (lookup (registry fw) role n) as [d|] eqn:Hl; simpl; [|discriminate].
  apply fold_res_wf. eapply visit_dep_wf; eauto.
Qed.

Lemma resolve_dependencies_wf cfg cfg1 :
  resolve_dependencies fw cfg = Ok cfg1 -> config_wf cfg -> config_wf cfg1.
Proof.
  unfold resolve_dependencies.
  destruct (dict_get ALGORITHM cfg).
  - destruct (visit fw (chain_bound fw) [] ALGORITHM cfg) as [c1|] eqn:Hv; simpl;
      [|discriminate].
    destruct (check_names c1 c1); simpl; [|discriminate].
    intros [= <-]. eapply visit_wf; eauto.
  - simpl. destruct (check_names cfg cfg); simpl; [|discriminate].
    now intros [= <-].
Qed.

Lemma schema_for_defaults_wf cfg sec s :
  schema_for fw cfg sec = Ok (Some s) -> schema_defaults_wf s.
Proof.
  unfold schema_for. destruct (is_role sec).
  - destruct (component_name cfg sec) as [n|]; [|discriminate].
    destruct (lookup (registry fw) sec n) as [d|] eqn:Hl; simpl; [|discriminate].
    intros [= <-]. apply with_name_defaults_wf.
    now destruct (lookup_defaults_wf _ _ _ Hl).
  - intros [= Hget]. apply dict_get_In in Hget.
    destruct defaults_wf as [_ Hsec]. rewrite Forall_forall in Hsec.
    exact (Hsec (sec, s) Hget).
Qed.

Lemma resolve_section_wf cfg sec sec' :
  resolve_section fw cfg sec = Ok sec' -> wf (JObj (snd sec)) -> wf (JObj (snd sec')).
Proof.
  unfold resolve_section.
  destruct (schema_for fw cfg (fst sec)) as [[s|]|] eqn:Hs; simpl; try discriminate.
  - destruct (validate_properties _ _ _); simpl; [|discriminate].
    intros [= <-] Hwf. cbn [snd]. apply merge_section_wf; [|exact Hwf].
    eapply schema_for_defaults_wf; eauto.
  - now intros [= <-].
Qed.

Lemma map_res_wf cfg l l' :
  map_res (resolve_section fw cfg) l = Ok l' ->
  (forall k d, In (k, d) l -> wf (JObj d)) ->
  forall k d, In (k, d) l' -> wf (JObj d).
Proof.
  revert l'. induction l as [|sec l IH]; intros l'; simpl.
  - intros [= <-] _ k d [].
  - destruct (resolve_section fw cfg sec) as [sec'|] eqn:Hsec; simpl; [|discriminate].
    destruct (map_res (resolve_section fw cfg) l) as [l1|] eqn:Hl; simpl; [|discriminate].
    intros [= <-] Hall k d [Heq|Hin].
    + apply resolve_section_wf in Hsec.
      * rewrite Heq in Hsec. exact Hsec.
      * destruct sec as [k0 d0]. apply (Hall k0). now left.
    + apply (IH l1 eq_refl) with (k := k); [|exact Hin].
      intros k' d' Hin'. apply (Hall k'). now right.
Qed.

Lemma resolve_wf cfg r : resolve fw cfg = Ok r -> config_wf cfg -> config_wf r.
Proof.
  unfold resolve.
  destruct (resolve_dependencies fw cfg) as [cfg1|] eqn:Hdep; simpl; [|discriminate].
  intros Hmap Hcfg. apply resolve_dependencies_wf in Hdep; [|exact Hcfg].
  rewrite config_wf_iff in Hdep |- *. destruct Hdep as [Hnd Hall]. split.
  - now rewrite (map_res_keys _ _ _ _ Hmap).
  - eapply map_res_wf; eauto.
Qed.

End WithFramework.

End RoundTripFacts.


(** ** Claims on configuration resolution *)

Module ResolverClaims.

Import Resolver MergeFacts ResolverFacts ScenarioFacts.

Lemma sample_framework_wf : framework_wf Samples.framework.
Proof.
  split; repeat constructor; simpl; intuition discriminate.
Qed.

(** C1.  Resolution is idempotent: a configuration that resolution produced
    resolves to itself, so the second output is the first, and serialises to
    the same text. *)
Theorem resolution_idempotent (fw : Framework) (cfg r : Config) :
  framework_wf fw ->
  resolve fw cfg = Ok r ->
  exists r',
    resolve fw r = Ok r'
    /\ r' = r
    /\ Text.dumps (config_json r') = Text.dumps (config_json r).
Proof.
  intros Hwf Hres. exists r.
  split; [now apply (resolve_again fw cfg)|split; reflexivity].
Qed.

Lemma resolution_idempotent_witness :
  exists r',
    resolve Samples.framework
      [(ALGORITHM,
        [(NAME, JStr "QAOA.Variational"); ("operator_mode", JStr "matrix");
         ("p", JInt 1); ("initial_point", JNull); ("batch_mode", JBool false)]);
       (OPTIMIZER,
        [(NAME, JStr "COBYLA"); ("maxiter", JInt 1000); ("disp", JBool false);
         ("rhobeg", JInt 1); ("tol", JNull)])] = Ok r'
    /\ r' = [(ALGORITHM,
              [(NAME, JStr "QAOA.Variational"); ("operator_mode", JStr "matrix");
               ("p", JInt 1); ("initial_point", JNull); ("batch_mode", JBool false)]);
             (OPTIMIZER,
              [(NAME, JStr "COBYLA"); ("maxiter", JInt 1000); ("disp", JBool false);
               ("rhobeg", JInt 1); ("tol", JNull)])]
    /\ Text.dumps (config_json r')
       = Text.dumps
           (config_json
              [(ALGORITHM,
                [(NAME, JStr "QAOA.Variational"); ("operator_mode", JStr "matrix");
                 ("p", JInt 1); ("initial_point", JNull); ("batch_mode", JBool false)]);
               (OPTIMIZER,
                [(NAME, JStr "COBYLA"); ("maxiter", JInt 1000); ("disp", JBool false);
                 ("rhobeg", JInt 1); ("tol", JNull)])]).
Proof.
  apply (resolution_idempotent Samples.framework Samples.qaoa_only).
  - exact sample_framework_wf.
  - vm_compute. reflexivity.
Defined.

(** C3, as stated, fails: the configuration that selects QAOA with [p = 0]
    and no optimizer section does not resolve. *)
Lemma qaoa_without_optimizer_may_fail :
  ~ Statements.qaoa_defaults_optimizer Samples.framework Samples.COBYLA Samples.qaoa_p0.
Proof.
  intros H. destruct H as (r & Hres & _).
  - reflexivity.
  - left. reflexivity.
  - vm_compute in Hres. discriminate Hres.
Qed.

(** C3, as amended.  For a configuration that selects QAOA and has no
    optimizer section, or an empty one, QAOA and COBYLA being registered:
    whenever it resolves, the optimizer section of the result is named COBYLA
    and its other properties are exactly the defaults of COBYLA's schema; it
    does resolve, to such an optimizer section, whenever every other section
    passes merge and validation by itself, COBYLA depending on nothing and
    its defaults meeting its own schema; and the configuration that selects
    QAOA and nothing else resolves to the defaults of both components. *)
Theorem qaoa_default_optimizer (fw : Framework) (cobyla : Descriptor) (cfg : Config) :
  component_name cfg ALGORITHM = Some "QAOA.Variational" ->
  dict_get OPTIMIZER cfg = None \/ dict_get OPTIMIZER cfg = Some [] ->
  lookup (registry fw) ALGORITHM "QAOA.Variational" = Ok QAOA_CONFIGURATION ->
  lookup (registry fw) OPTIMIZER "COBYLA" = Ok cobyla ->
  dict_get NAME (s_properties (d_schema cobyla)) = None ->
  (forall r,
      resolve fw cfg = Ok r ->
      dict_get OPTIMIZER r
      = Some ((NAME, JStr "COBYLA") :: default_properties (d_schema cobyla)))
  /\ (NoDup (map fst cfg) ->
      d_depends cobyla = [] ->
      validate_properties OPTIMIZER (with_name (d_schema cobyla))
        ((NAME, JStr "COBYLA") :: default_properties (d_schema cobyla)) = Ok tt ->
      others_resolve fw OPTIMIZER cfg = true ->
      exists r,
        resolve fw cfg = Ok r
        /\ dict_get OPTIMIZER r
           = Some ((NAME, JStr "COBYLA") :: default_properties (d_schema cobyla)))
  /\ (cfg = [(ALGORITHM, [(NAME, JStr "QAOA.Variational")])]
      \/ cfg = [(ALGORITHM, [(NAME, JStr "QAOA.Variational")]); (OPTIMIZER, [])] ->
      d_depends cobyla = [] ->
      validate_properties OPTIMIZER (with_name (d_schema cobyla))
        ((NAME, JStr "COBYLA") :: default_properties (d_schema cobyla)) = Ok tt ->
      resolve fw cfg
      = Ok [(ALGORITHM,
             [(NAME, JStr "QAOA.Variational"); ("operator_mode", JStr "matrix");
              ("p", JInt 1); ("initial_point", JNull); ("batch_mode", JBool false)]);
            (OPTIMIZER,
             (NAME, JStr "COBYLA") :: default_properties (d_schema cobyla))]).
Proof.
  intros Halg Hopt Hq Hc Hname.
  assert (Hsection : forall r,
             resolve fw cfg = Ok r ->
             dict_get OPTIMIZER r
             = Some ((NAME, JStr "COBYLA") :: default_properties (d_schema cobyla))).
  { intros r Hres.
    apply (qaoa_optimizer_section fw cfg cobyla r); auto.
    - rewrite component_name_eq. destruct Hopt as [-> | ->]; reflexivity.
    - unfold get_section. destruct Hopt as [-> | ->]; reflexivity. }
  split; [exact Hsection|]. split.
  - intros Hnd Hdeps Hvalid Hothers.
    destruct (qaoa_defaulting_resolves fw cfg cobyla Hnd Halg Hopt Hq Hc Hname Hdeps
                Hvalid Hothers) as [r Hres].
    exists r. split; [exact Hres|now apply Hsection].
  - intros Hcfg Hdeps Hvalid. now apply qaoa_scenario_resolves.
Qed.

Lemma qaoa_default_optimizer_witness :
  exists r,
    resolve Samples.framework Samples.qaoa_p3_seeded = Ok r
    /\ dict_get OPTIMIZER r
       = Some ((NAME, JStr "COBYLA") :: default_properties (d_schema Samples.COBYLA)).
Proof.
  destruct (qaoa_default_optimizer Samples.framework Samples.COBYLA
              Samples.qaoa_p3_seeded)
    as (_ & Hlive & _).
  - reflexivity.
  - left. reflexivity.
  - reflexivity.
  - reflexivity.
  - reflexivity.
  - apply Hlive.
    + repeat constructor; simpl; intuition discriminate.
    + reflexivity.
    + reflexivity.
    + reflexivity.
Defined.

(** C4, as stated, fails: with an operator mode outside the admitted values
    in front of [p = 0], the error names [operator_mode]. *)
Lemma another_property_is_named :
  ~ Statements.p_zero_names_p Samples.framework Samples.qaoa_bad_mode_p0.
Proof.
  intros H.
  specialize (H _ eq_refl eq_refl eq_refl).
  vm_compute in H. discriminate H.
Qed.

(** C4, as amended.  A configuration whose algorithm section sets [p] to 0
    for an algorithm whose schema declares [minimum] 1 for [p] never
    resolves, and [run_algorithm] then raises without a single call, so no
    component is constructed.  The error is the configuration error of
    section [algorithm], property [p], whenever [p] is the first violation
    met: the dependencies resolve, every section in front of the algorithm
    section passes merge and validation, and so does every property in front
    of [p] in the merged algorithm section; in particular when the algorithm
    section comes first and begins with its name and [p]. *)
Theorem p_below_minimum_rejected (fw : Framework) (cfg : Config) (alg : Dict)
    (n : string) (d : Descriptor) (sp : Schema) :
  dict_get ALGORITHM cfg = Some alg ->
  dict_get NAME alg = Some (JStr n) ->
  dict_get "p" alg = Some (JInt 0) ->
  lookup (registry fw) ALGORITHM n = Ok d ->
  dict_get "p" (s_properties (d_schema d)) = Some sp ->
  s_minimum sp = Some 1%Z ->
  (exists e,
      resolve fw cfg = Err e
      /\ forall (E : Driver.Externals) algo_input json_output backend,
          Driver.resolve E = resolve fw ->
          Driver.run_algorithm E cfg algo_input json_output backend [] = (Err e, []))
  /\ (forall cfg1,
         resolve_dependencies fw cfg = Ok cfg1 ->
         reached_first fw cfg1 ALGORITHM "p" = true ->
         resolve fw cfg = Err (ConfigurationError ALGORITHM "p"))
  /\ (forall post rest,
         cfg = (ALGORITHM, (NAME, JStr n) :: ("p", JInt 0) :: post) :: rest ->
         is_ok (resolve_dependencies fw cfg) = true ->
         resolve fw cfg = Err (ConfigurationError ALGORITHM "p")).
Proof.
  intros Halg Hname Hp Hl Hsp Hmin. split; [|split].
  - pose proof (p_zero_never_resolves fw _ _ _ _ _ Halg Hname Hp Hl Hsp Hmin) as Hno.
    destruct (resolve fw cfg) as [r|e] eqn:Hres; [discriminate|].
    exists e. split; [reflexivity|].
    intros E algo_input json_output backend HE.
    apply DriverFacts.resolution_failure_stops. now rewrite HE.
  - intros cfg1 Hdep Hfirst.
    now apply (p_zero_reached_first fw cfg cfg1 alg n d sp).
  - intros post rest Hcfg Hdep.
    now apply (p_zero_reported_first fw cfg n d sp post rest).
Qed.

Lemma p_below_minimum_rejected_witness :
  resolve Samples.framework Samples.qaoa_late_p0
  = Err (ConfigurationError ALGORITHM "p")
  /\ Driver.run_algorithm Samples.externals Samples.qaoa_late_p0 None false None []
     = (Err (ConfigurationError ALGORITHM "p"), []).
Proof.
  destruct (p_below_minimum_rejected Samples.framework Samples.qaoa_late_p0
              [("operator_mode", JStr "paulis"); ("p", JInt 0);
               (NAME, JStr "QAOA.Variational")]
              "QAOA.Variational" QAOA_CONFIGURATION
              (mkSchema [TInteger] (Some (JInt 1)) (Some 1%Z) None None [] true))
    as [(e & He & Hrun) [Hfirst _]]; try reflexivity.
  assert (Hres : resolve Samples.framework Samples.qaoa_late_p0
                 = Err (ConfigurationError ALGORITHM "p")).
  { apply (Hfirst (dict_set OPTIMIZER [(NAME, JStr "COBYLA")] Samples.qaoa_late_p0));
      reflexivity. }
  split; [exact Hres|].
  rewrite He in Hres. injection Hres as <-.
  apply Hrun. reflexivity.
Defined.

End ResolverClaims.

(** ** Claim on the persisted configuration *)

Module RoundTripClaims.

Import Text TextFacts Resolver RoundTripFacts.


Lemma sample_config_wf : config_wf Samples.qaoa_only.
Proof.
  apply config_wf_iff. split; [repeat constructor; simpl; tauto|].
  intros k d [[= <- <-]|[]]. simpl. split; [repeat constructor; simpl; tauto|tauto].
Qed.


(** The resolver keeps the premise of the round trip: what it makes of a
    configuration with distinct keys, under a framework whose declared
    defaults have distinct keys, is read back from its text. *)
Lemma resolved_configuration_round_trip (fw : Framework) (cfg r : Config) :
  framework_defaults_wf fw ->
  config_wf cfg ->
  resolve fw cfg = Ok r ->
  exists r',
    reparse (dumps (config_json r)) = Some r'
    /\ same_but_order (config_json r') (config_json r) = true
    /\ (nan_free (config_json r) = true ->
        py_eqb (config_json r') (config_json r) = true).
Proof.
  intros Hfw Hcfg Hres. apply reparse_dumps.
  exact (resolve_wf fw Hfw cfg r Hres Hcfg).
Qed.




(** The text of a small document: sorted keys, four spaces a level. *)
Example dumps_sample :
  let q := String "034" EmptyString in
  let nl := String "010" EmptyString in
  string_of_list_ascii
    (dumps (JObj [("b", JArr [JInt 1; JNull]); ("a", JObj [("k", JStr "v")])]))
  = ("{" ++ nl
     ++ "    " ++ q ++ "a" ++ q ++ ": {" ++ nl
     ++ "        " ++ q ++ "k" ++ q ++ ": " ++ q ++ "v" ++ q ++ nl
     ++ "    }," ++ nl
     ++ "    " ++ q ++ "b" ++ q ++ ": [" ++ nl
     ++ "        1," ++ nl
     ++ "        null" ++ nl
     ++ "    ]" ++ nl
     ++ "}")%string.
Proof. vm_compute. reflexivity. Qed.

End RoundTripClaims.

(** ** Further properties of the execution driver *)

Module DriverTraces.

Import Driver DriverFacts Traces.

Lemma appends_ret {A : Type} (a : A) : appends (ret a).
Proof. intros tr. unfold ret. simpl. now rewrite app_nil_r. Qed.

Lemma appends_raise {A : Type} (e : Error) : appends (@raise A e).
Proof. intros tr. unfold raise. simpl. now rewrite app_nil_r. Qed.

Lemma appends_lift {A : Type} (r : Res A) : appends (lift r).
Proof. intros tr. unfold lift. simpl. now rewrite app_nil_r. Qed.

Lemma appends_emit (ev : Event) : appends (emit ev).
Proof. intros tr. reflexivity. Qed.

Lemma appends_bind {A B : Type} (m : M A) (k : A -> M B) :
  appends m -> (forall a, appends (k a)) -> appends (bind m k).
Proof.
  intros Hm Hk tr. unfold bind. rewrite (Hm tr).
  destruct (m []) as [[a|e] evs]; simpl.
  - rewrite (Hk a (tr ++ evs)%list), (Hk a evs). simpl. now rewrite app_assoc.
  - reflexivity.
Qed.

Lemma appends_call {A : Type} (ev : Event) (r : Res A) : appends (call ev r).
Proof.
  unfold call. apply appends_bind; [apply appends_emit|intros _; apply appends_lift].
Qed.

Create HintDb appends.

#[local] Hint Resolve appends_ret appends_raise appends_lift appends_emit
  appends_call : appends.

Section WithExternals.

Context (E : Externals).

Lemma resolve_algo_input_appends sections algo_input :
  appends (resolve_algo_input E sections algo_input).
Proof.
  unfold resolve_algo_input.
  destruct algo_input; [auto with appends|].
  destruct (get_section_property sections INPUT NAME) as [[]|]; auto with appends.
  apply appends_bind; auto with appends.
Qed.

(** The driver only appends to the record of calls, and what it does is
    independent of the calls made before. *)
Lemma run_algorithm_appends params algo_input json_output backend :
  appends (run_algorithm E params algo_input json_output backend).
Proof.
  unfold run_algorithm.
  apply appends_bind; [auto with appends|intros sections].
  destruct (get_section_property sections ALGORITHM NAME) as [[]|]; auto with appends.
  destruct (existsb _ _); auto with appends.
  apply appends_bind; [apply resolve_algo_input_appends|intros input].
  apply appends_bind; [auto with appends|intros algorithm].
  apply appends_bind; [auto with appends|intros _].
  apply appends_bind.
  - destruct (backend_cfg sections backend); auto with appends.
  - intros algorithm'. apply appends_bind; [auto with appends|intros value].
    destruct (value_is_dict E value && json_output); auto with appends.
    apply appends_bind; auto with appends.
Qed.

Lemma registered_iff n :
  existsb (String.eqb n) (local_algorithms E) = true <-> In n (local_algorithms E).
Proof.
  rewrite existsb_exists. split.
  - intros (x & Hin & Heq). apply String.eqb_eq in Heq. now subst.
  - intros Hin. exists n. split; [exact Hin|apply String.eqb_refl].
Qed.

(** With the input section naming a component, a run without artifact is the
    run with the artifact that the component builds from the section. *)
Lemma run_from_input_section params json_output backend sections n input_name :
  resolve E params = Ok sections ->
  get_section_property sections ALGORITHM NAME = Some (JStr n) ->
  In n (local_algorithms E) ->
  get_section_property sections INPUT NAME = Some (JStr input_name) ->
  let input_params :=
    convert_json_to_dict E (dict_del NAME (get_section sections INPUT)) in
  let ev := EvFromParams input_name input_params in
  run_algorithm E params None json_output backend []
  = match from_params E input_name input_params with
    | Err e => (Err e, [ev])
    | Ok a =>
        let r := run_algorithm E params (Some a) json_output backend [] in
        (fst r, ev :: snd r)
    end.
Proof.
  intros Hr Hn Hreg Hin input_params ev. apply registered_iff in Hreg.
  assert (Hrun : run_algorithm E params None json_output backend []
                 = match from_params E input_name input_params with
                   | Err e => (Err e, [ev])
                   | Ok a => run_algorithm E params (Some a) json_output backend [ev]
                   end).
  { cbv beta iota zeta delta [run_algorithm resolve_algo_input bind lift call emit ret raise].
    rewrite Hr. cbv beta iota. rewrite Hn, Hreg, Hin. cbn [app].
    fold input_params. destruct (from_params E input_name input_params); reflexivity. }
  rewrite Hrun. destruct (from_params E input_name input_params) as [a|e]; [|reflexivity].
  exact (run_algorithm_appends params (Some a) json_output backend [ev]).
Qed.

End WithExternals.

End DriverTraces.

Module DriverProperties.

Import Driver DriverFacts Traces DriverTraces.

Ltac unfold_run :=
  cbv beta iota zeta delta
    [run_algorithm resolve_algo_input bind lift call emit ret raise] in *.

Ltac same_scrutinee :=
  repeat match goal with
         | H1 : ?x = _, H2 : ?x = _ |- _ => rewrite H1 in H2
         | H : (_, _) = (_, _) |- _ => inversion H; subst; clear H
         | H : Ok _ = Ok _ |- _ => inversion H; subst; clear H
         | H : Some _ = Some _ |- _ => inversion H; subst; clear H
         | H : JStr _ = JStr _ |- _ => inversion H; subst; clear H
         end.

Ltac run_cases :=
  repeat (break_match; cbn [fst snd app] in *; try tauto; try discriminate;
          same_scrutinee; try discriminate).

Ltac finish := simpl in *; intuition (try discriminate; try congruence).

Lemma dict_del_set_same {V : Type} k (v : V) (d : list (string * V)) :
  dict_del k (dict_set k v d) = dict_del k d.
Proof.
  unfold dict_del. induction d as [|[k' v'] d IH]; simpl.
  - now rewrite String.eqb_refl.
  - destruct (String.eqb k k') eqn:Hk; simpl; rewrite Hk; simpl; [reflexivity|].
    now rewrite IH.
Qed.

Lemma dict_get_del_same {V : Type} k (d : list (string * V)) :
  dict_get k (dict_del k d) = None.
Proof.
  unfold dict_del. induction d as [|[k' v'] d IH]; simpl; [reflexivity|].
  destruct (String.eqb k k') eqn:Hk; simpl; [exact IH|]. now rewrite Hk.
Qed.

Lemma dict_get_del_other {V : Type} k k' (d : list (string * V)) :
  k' <> k -> dict_get k' (dict_del k d) = dict_get k' d.
Proof.
  intros Hne. unfold dict_del. induction d as [|[k0 v0] d IH]; simpl; [reflexivity|].
  destruct (String.eqb k k0) eqn:Hk; simpl.
  - apply String.eqb_eq in Hk; subst k0.
    apply String.eqb_neq in Hne. now rewrite Hne.
  - now rewrite IH.
Qed.

Section WithExternals.

Context (E : Externals).

(** X1.  Lines 59-64: when the resolved configuration names no algorithm, or
    names one that is not among the local algorithms, [run_algorithm] raises
    before any collaborator is called: no input is built, no algorithm is
    constructed, nothing is run. *)
Theorem unregistered_algorithm_constructs_nothing
    (params : Config) (algo_input : option AlgorithmInput) (json_output : bool)
    (backend : option PyObject) (sections : Config) :
  resolve E params = Ok sections ->
  (forall n, get_section_property sections ALGORITHM NAME = Some (JStr n) ->
             ~ In n (local_algorithms E)) ->
  run_algorithm E params algo_input json_output backend []
  = (Err match get_section_property sections ALGORITHM NAME with
         | None => MissingAlgorithmName
         | Some (JStr n) => ComponentNotFoundError ALGORITHM n
         | Some _ => ComponentNotFoundError ALGORITHM ""
         end, []).
Proof.
  intros Hr Hnot. unfold run_algorithm, bind at 1, lift. rewrite Hr.
  destruct (get_section_property sections ALGORITHM NAME) as [[| | | |n| |]|];
    try reflexivity.
  destruct (existsb (String.eqb n) (local_algorithms E)) eqn:Hreg; [|reflexivity].
  apply registered_iff in Hreg. now destruct (Hnot n).
Qed.

(** X3.  Line 72: a [backend] argument that is not a [BaseBackend] instance
    is ignored; the run is the one without a [backend] argument. *)
Theorem non_backend_object_is_ignored
    (params : Config) (algo_input : option AlgorithmInput) (json_output : bool)
    (b : PyObject) (tr : list Event) :
  py_is_BaseBackend b = false ->
  run_algorithm E params algo_input json_output (Some b) tr
  = run_algorithm E params algo_input json_output None tr.
Proof.
  intros Hb. unfold run_algorithm, bind at 1 3, lift.
  destruct (resolve E params) as [sections|e]; [|reflexivity].
  assert (Hcfg : backend_cfg sections (Some b) = backend_cfg sections None).
  { unfold backend_cfg, is_BaseBackend. now rewrite Hb. }
  now rewrite Hcfg.
Qed.

(** X4.  Lines 66-70 and 90-91: a resolved backend section without a name is
    not used at all.  Without a [BaseBackend] instance
    [setup_quantum_backend] is never called, whatever other properties the
    section has. *)
Theorem unnamed_backend_section_is_dropped
    (params : Config) (algo_input : option AlgorithmInput) (json_output : bool)
    (backend : option PyObject) (sections : Config) :
  resolve E params = Ok sections ->
  get_section_property sections BACKEND NAME = None ->
  is_BaseBackend backend = None ->
  forall kwargs,
    ~ In (EvSetupQuantumBackend kwargs)
         (snd (run_algorithm E params algo_input json_output backend [])).
Proof.
  intros Hr Hn Hb kwargs Hin.
  apply setup_event_backend_cfg in Hin as (sections' & Hr' & Hcfg).
  rewrite Hr in Hr'. injection Hr' as <-.
  rewrite (backend_cfg_unnamed _ _ Hn), Hb in Hcfg. discriminate.
Qed.

(** X5.  Lines 78-88: an input artifact that is supplied is the one the
    algorithm is built from, together with the resolved configuration; the
    input section is not consulted and [from_params] is never called. *)
Theorem supplied_input_takes_precedence
    (params : Config) (a : AlgorithmInput) (json_output : bool)
    (backend : option PyObject) :
  let out := run_algorithm E params (Some a) json_output backend [] in
  (forall n ps, ~ In (EvFromParams n ps) (snd out))
  /\ (forall n cfg input,
         In (EvInitParams n cfg input) (snd out) ->
         input = Some a /\ resolve E params = Ok cfg).
Proof.
  intros out. subst out. split.
  - intros n ps Hin. unfold_run. run_cases; finish.
  - intros n cfg input Hin. unfold_run. run_cases; finish.
Qed.

(** X6.  Lines 78-84: without an artifact, and with an input section that
    names a component, the first call is [from_params] of that component on
    the input section without its [name] (every other property kept, then
    converted).  When it fails the run stops there; otherwise the run goes on
    exactly as the run with the artifact it returned. *)
Theorem input_section_builds_the_input
    (params : Config) (json_output : bool) (backend : option PyObject)
    (sections : Config) (n input_name : string) :
  resolve E params = Ok sections ->
  get_section_property sections ALGORITHM NAME = Some (JStr n) ->
  In n (local_algorithms E) ->
  get_section_property sections INPUT NAME = Some (JStr input_name) ->
  let input_params := dict_del NAME (get_section sections INPUT) in
  let ev := EvFromParams input_name (convert_json_to_dict E input_params) in
  dict_get NAME input_params = None
  /\ (forall k, k <> NAME ->
                dict_get k input_params = dict_get k (get_section sections INPUT))
  /\ run_algorithm E params None json_output backend []
     = match from_params E input_name (convert_json_to_dict E input_params) with
       | Err e => (Err e, [ev])
       | Ok a =>
           let r := run_algorithm E params (Some a) json_output backend [] in
           (fst r, ev :: snd r)
       end.
Proof.
  intros Hr Hn Hreg Hin input_params ev. repeat split.
  - apply dict_get_del_same.
  - intros k Hk. now apply dict_get_del_other.
  - exact (run_from_input_section E params json_output backend sections n
             input_name Hr Hn Hreg Hin).
Qed.

(** X2.  A run that returns has resolved the configuration to a registered
    algorithm name and has made its calls in this order: [from_params] at
    most once, [init_params] once on the whole resolved configuration, the
    random seed of the problem section, [setup_quantum_backend] at most once,
    [run] once, and the conversion of the result at most once. *)
Theorem successful_run_calls_in_order
    (params : Config) (algo_input : option AlgorithmInput) (json_output : bool)
    (backend : option PyObject) (value : Value E) :
  fst (run_algorithm E params algo_input json_output backend []) = Ok value ->
  exists sections n input,
    resolve E params = Ok sections
    /\ get_section_property sections ALGORITHM NAME = Some (JStr n)
    /\ In n (local_algorithms E)
    /\ exists before setup after,
        snd (run_algorithm E params algo_input json_output backend [])
        = (before
           ++ EvInitParams n sections input
              :: EvSetRandomSeed (get_section_property sections PROBLEM "random_seed")
              :: setup
           ++ EvRun :: after)%list
        /\ (before = [] \/ exists input_name ps, before = [EvFromParams input_name ps])
        /\ (setup = [] \/ exists kwargs, setup = [EvSetupQuantumBackend kwargs])
        /\ (after = [] \/ after = [EvConvertResult]).
Proof.
  intros Hok. unfold_run. run_cases;
    match goal with
    | H : existsb _ _ = true |- _ => apply registered_iff in H
    end;
    (do 3 eexists; split; [reflexivity|split; [eassumption|split; [eassumption|]]]);
    solve [ (exists [] + eexists [_]); (exists [] + eexists [_]);
            (exists [] + exists [EvConvertResult]);
            split; [simpl; reflexivity|];
            repeat split; ((left; reflexivity) + (right; repeat eexists)) ].
Qed.

(** X7.  Lines 93-97: what a run returns is what [run()] returned, converted
    exactly when it is a dictionary and [json_output] is set; the conversion
    is called in that case and in no other. *)
Theorem result_conversion
    (params : Config) (algo_input : option AlgorithmInput) (json_output : bool)
    (backend : option PyObject) (value : Value E) :
  fst (run_algorithm E params algo_input json_output backend []) = Ok value ->
  exists algorithm raw,
    run E algorithm = Ok raw
    /\ value = (if value_is_dict E raw && json_output
                then convert_value_to_json E raw else raw)
    /\ (In EvConvertResult
           (snd (run_algorithm E params algo_input json_output backend []))
        <-> value_is_dict E raw && json_output = true).
Proof.
  intros Hok. unfold_run. run_cases;
    (do 2 eexists; split; [eassumption|]);
    match goal with
    | H : _ && _ = _ |- _ => rewrite H
    end; finish.
Qed.

(** X8.  Lines 86-93: [run()] is only called on an algorithm that
    [init_params] returned for the resolved configuration, and after every
    [setup_quantum_backend] call has succeeded on it: a failure to construct
    or to set up the algorithm is never followed by a run. *)
Theorem failed_construction_never_runs
    (params : Config) (algo_input : option AlgorithmInput) (json_output : bool)
    (backend : option PyObject) :
  let out := run_algorithm E params algo_input json_output backend [] in
  In EvRun (snd out) ->
  exists sections n input algorithm,
    resolve E params = Ok sections
    /\ In (EvInitParams n sections input) (snd out)
    /\ init_params E n sections input = Ok algorithm
    /\ forall kwargs,
        In (EvSetupQuantumBackend kwargs) (snd out) ->
        is_ok (setup_quantum_backend E
                 (set_random_seed E algorithm
                    (get_section_property sections PROBLEM "random_seed"))
                 kwargs) = true.
Proof.
  intros out Hin. subst out. unfold_run. run_cases; try solve [finish];
    ((do 4 eexists; split; [reflexivity|split; [|split; [eassumption|]]]);
    [simpl; auto 10
    |intros kwargs Hk; simpl in Hk; intuition (try discriminate);
     match goal with
     | Hk : EvSetupQuantumBackend _ = _ |- _ => injection Hk as <-
     end;
     match goal with
     | H : setup_quantum_backend _ _ _ = _ |- _ => rewrite H
     end; reflexivity]).
Qed.

End WithExternals.

Lemma unregistered_algorithm_constructs_nothing_witness :
  run_algorithm Scenarios.resolved Scenarios.unregistered None false None []
  = (Err (ComponentNotFoundError ALGORITHM "VQE"), []).
Proof.
  apply (unregistered_algorithm_constructs_nothing Scenarios.resolved
           Scenarios.unregistered None false None Scenarios.unregistered).
  - reflexivity.
  - intros n Hn. vm_compute in Hn. injection Hn as <-.
    simpl. intuition discriminate.
Defined.

Lemma non_backend_object_is_ignored_witness :
  run_algorithm Scenarios.resolved Scenarios.qaoa_resolved None false
    (Some Scenarios.not_a_backend) []
  = run_algorithm Scenarios.resolved Scenarios.qaoa_resolved None false None [].
Proof.
  apply (non_backend_object_is_ignored Scenarios.resolved Scenarios.qaoa_resolved
           None false Scenarios.not_a_backend []).
  reflexivity.
Defined.

Lemma unnamed_backend_section_is_dropped_witness :
  get_section Scenarios.qaoa_unnamed_backend BACKEND = [("shots", JInt 100)]
  /\ forall kwargs,
      ~ In (EvSetupQuantumBackend kwargs)
           (snd (run_algorithm Scenarios.resolved Scenarios.qaoa_unnamed_backend
                   None false (Some Scenarios.not_a_backend) [])).
Proof.
  split; [reflexivity|].
  apply (unnamed_backend_section_is_dropped Scenarios.resolved
           Scenarios.qaoa_unnamed_backend None false (Some Scenarios.not_a_backend)
           Scenarios.qaoa_unnamed_backend).
  - reflexivity.
  - reflexivity.
  - reflexivity.
Defined.

Lemma input_section_builds_the_input_witness :
  run_algorithm Scenarios.resolved Scenarios.qaoa_with_input None false None []
  = (fst (run_algorithm Scenarios.resolved Scenarios.qaoa_with_input
            (Some (mkAlgorithmInput [("qubit_op", JObj [("paulis", JArr [])])]
                     "EnergyInput"))
            false None []),
     EvFromParams "EnergyInput" [("qubit_op", JObj [("paulis", JArr [])])]
     :: snd (run_algorithm Scenarios.resolved Scenarios.qaoa_with_input
               (Some (mkAlgorithmInput [("qubit_op", JObj [("paulis", JArr [])])]
                        "EnergyInput"))
               false None [])).
Proof.
  apply (input_section_builds_the_input Scenarios.resolved Scenarios.qaoa_with_input
           false None Scenarios.qaoa_with_input "QAOA.Variational" "EnergyInput").
  - reflexivity.
  - reflexivity.
  - simpl. auto.
  - reflexivity.
Defined.

Lemma successful_run_calls_in_order_witness :
  exists sections n input before setup after,
    snd (run_algorithm Scenarios.resolved Scenarios.qaoa_with_input None true None [])
    = (before
       ++ EvInitParams n sections input
          :: EvSetRandomSeed (get_section_property sections PROBLEM "random_seed")
          :: setup
       ++ EvRun :: after)%list.
Proof.
  destruct (successful_run_calls_in_order Scenarios.resolved Scenarios.qaoa_with_input
              None true None [("energy", JInt 0)])
    as (sections & n & input & _ & _ & _ & before & setup & after & Htrace & _).
  - reflexivity.
  - exists sections, n, input, before, setup, after. exact Htrace.
Defined.

Lemma result_conversion_witness :
  In EvConvertResult
     (snd (run_algorithm Scenarios.resolved Scenarios.qaoa_resolved None true None []))
  /\ ~ In EvConvertResult
         (snd (run_algorithm Scenarios.resolved Scenarios.qaoa_resolved None false
                 None [])).
Proof.
  split.
  - destruct (result_conversion Scenarios.resolved Scenarios.qaoa_resolved None true
                None [("energy", JInt 0)] eq_refl)
      as (algorithm & raw & _ & _ & Hconv).
    apply Hconv. reflexivity.
  - simpl. intuition discriminate.
Defined.

Lemma failed_construction_never_runs_witness :
  exists sections n input algorithm,
    In (EvInitParams n sections input)
       (snd (run_algorithm Scenarios.resolved Scenarios.qaoa_resolved None false
               None []))
    /\ init_params Scenarios.resolved n sections input = Ok algorithm.
Proof.
  destruct (failed_construction_never_runs Scenarios.resolved Scenarios.qaoa_resolved
              None false None)
    as (sections & n & input & algorithm & _ & Hin & Hinit & _).
  - simpl. auto 10.
  - exists sections, n, input, algorithm. split; [exact Hin|exact Hinit].
Defined.

End DriverProperties.

(** ** Key order and the text of a configuration *)

Module TextOrder.

Import Text TextFacts RoundTripFacts.

Lemma ascii_compare_lt_trans (a b c : ascii) :
  Ascii.compare a b = Lt -> Ascii.compare b c = Lt -> Ascii.compare a c = Lt.
Proof.
  unfold Ascii.compare. rewrite !N.compare_lt_iff. apply N.lt_trans.
Qed.

Lemma ascii_compare_refl (a : ascii) : Ascii.compare a a = Eq.
Proof. unfold Ascii.compare. apply N.compare_refl. Qed.

Lemma string_compare_refl (s : string) : String.compare s s = Eq.
Proof.
  induction s as [|a s IH]; simpl; [reflexivity|]. now rewrite ascii_compare_refl.
Qed.

Lemma string_compare_lt_trans (s1 s2 s3 : string) :
  String.compare s1 s2 = Lt -> String.compare s2 s3 = Lt -> String.compare s1 s3 = Lt.
Proof.
  revert s2 s3. induction s1 as [|a s1 IH]; intros [|b s2] [|c s3]; simpl;
    try discriminate; try reflexivity.
  destruct (Ascii.compare a b) eqn:Hab; try discriminate;
    destruct (Ascii.compare b c) eqn:Hbc; try discriminate; intros H1 H2.
  - apply Ascii.compare_eq_iff in Hab, Hbc. subst.
    rewrite ascii_compare_refl. eauto.
  - apply Ascii.compare_eq_iff in Hab. subst. now rewrite Hbc.
  - apply Ascii.compare_eq_iff in Hbc. subst. now rewrite Hab.
  - now rewrite (ascii_compare_lt_trans _ _ _ Hab Hbc).
Qed.

Lemma leb_trans (s1 s2 s3 : string) :
  String.leb s1 s2 = true -> String.leb s2 s3 = true -> String.leb s1 s3 = true.
Proof.
  unfold String.leb.
  destruct (String.compare s1 s2) eqn:H12; try discriminate;
    destruct (String.compare s2 s3) eqn:H23; try discriminate; intros _ _.
  - apply String.compare_eq_iff in H12, H23. subst.
    now rewrite string_compare_refl.
  - apply String.compare_eq_iff in H12. subst. now rewrite H23.
  - apply String.compare_eq_iff in H23. subst. now rewrite H12.
  - now rewrite (string_compare_lt_trans _ _ _ H12 H23).
Qed.

Lemma leb_one_way (s1 s2 : string) :
  s1 <> s2 -> String.leb s1 s2 = true -> String.leb s2 s1 = false.
Proof.
  intros Hne H12. destruct (String.leb s2 s1) eqn:H21; [|reflexivity].
  destruct Hne. now apply String.leb_antisym.
Qed.

Lemma leb_other_way (s1 s2 : string) :
  String.leb s1 s2 = false -> String.leb s2 s1 = true.
Proof.
  intros H12. destruct (String.leb_total s1 s2) as [H|H]; congruence.
Qed.

(** Insertions of items with different keys commute. *)
Lemma insert_item_comm {V : Type} (a b : string * V) (l : list (string * V)) :
  fst a <> fst b ->
  insert_item a (insert_item b l) = insert_item b (insert_item a l).
Proof.
  intros Hne. induction l as [|c l IH]; simpl.
  - destruct (String.leb (fst a) (fst b)) eqn:Hab.
    + now rewrite (leb_one_way _ _ Hne Hab).
    + now rewrite (leb_other_way _ _ Hab).
  - destruct (String.leb (fst b) (fst c)) eqn:Hbc;
      destruct (String.leb (fst a) (fst c)) eqn:Hac; simpl.
    + destruct (String.leb (fst a) (fst b)) eqn:Hab.
      * rewrite (leb_one_way _ _ Hne Hab). simpl. now rewrite Hbc.
      * rewrite (leb_other_way _ _ Hab). simpl. now rewrite Hac.
    + rewrite Hbc.
      destruct (String.leb (fst a) (fst b)) eqn:Hab.
      * now rewrite (leb_trans _ _ _ Hab Hbc) in Hac.
      * simpl. now rewrite Hac.
    + rewrite Hac.
      destruct (String.leb (fst b) (fst a)) eqn:Hba.
      * now rewrite (leb_trans _ _ _ Hba Hac) in Hbc.
      * simpl. now rewrite Hbc.
    + rewrite Hac, Hbc. now rewrite IH.
Qed.

(** The sorted order of items with distinct keys does not depend on the
    order they came in. *)
Lemma sort_items_perm_eq {V : Type} (l l' : list (string * V)) :
  Permutation l l' -> NoDup (map fst l) -> sort_items l = sort_items l'.
Proof.
  induction 1 as [|x l l' Hp IH|x y l|l l' l'' Hp1 IH1 Hp2 IH2]; intros Hnd.
  - reflexivity.
  - simpl. rewrite IH; [reflexivity|]. now inversion Hnd.
  - simpl. apply insert_item_comm.
    inversion Hnd as [|? ? Hnotin _]; subst. intros Heq. apply Hnotin. now left.
  - rewrite IH1 by exact Hnd. apply IH2.
    eapply Permutation_NoDup; [|exact Hnd]. now apply Permutation_map.
Qed.




Lemma dict_get_app_other {V : Type} k k' (y : V) (l1 l2 : list (string * V)) :
  k' <> k -> dict_get k' (l1 ++ (k, y) :: l2) = dict_get k' (l1 ++ l2).
Proof.
  intros Hne. induction l1 as [|[k0 v0] l1 IH]; simpl.
  - apply String.eqb_neq in Hne. now rewrite Hne.
  - now rewrite IH.
Qed.

(** Two dictionaries with the same keys, whose values agree under [f], have
    the same items under [f], in some order. *)
Lemma items_perm {X : Type} (f : json -> X) (xs ys : list (string * json)) :
  NoDup (map fst xs) -> NoDup (map fst ys) -> List.length xs = List.length ys ->
  (forall k x, In (k, x) xs -> exists y, dict_get k ys = Some y /\ f x = f y) ->
  Permutation (map (fun kv => (fst kv, f (snd kv))) xs)
              (map (fun kv => (fst kv, f (snd kv))) ys).
Proof.
  revert ys. induction xs as [|[k x] xs IH]; intros ys Hx Hy Hlen Hall.
  - destruct ys; [constructor|discriminate].
  - destruct (Hall k x) as (y & Hget & Hf); [now left|].
    apply ResolverFacts.dict_get_In in Hget. apply in_split in Hget as (ys1 & ys2 & ->).
    rewrite map_app. cbn [map fst snd]. rewrite <- Hf.
    apply Permutation_cons_app. rewrite <- map_app.
    inversion Hx as [|? ? Hnotin Hx']; subst.
    rewrite map_app in Hy. cbn [map fst] in Hy.
    apply IH.
    + exact Hx'.
    + rewrite map_app. eapply NoDup_remove_1. exact Hy.
    + rewrite length_app in *. simpl in Hlen. lia.
    + intros k' x' Hin.
      destruct (Hall k' x') as (y' & Hget' & Hf'); [now right|].
      exists y'. split; [|exact Hf'].
      rewrite <- Hget'. symmetry. apply dict_get_app_other.
      intros ->. apply Hnotin. now apply (in_map fst) in Hin.
Qed.

(** Values that are the same up to the order of their keys have the same
    text. *)
Lemma encode_same_but_order (a : json) :
  wf a -> forall b, wf b -> same_but_order a b = true ->
  forall level, encode level a = encode level b.
Proof.
  induction a as [|x|z|x|s|items IH|fields IH] using json_induction;
    intros Ha [|y|z'|y|s'|items'|fields'] Hb Heq level; try discriminate Heq.
  - reflexivity.
  - simpl in Heq. apply Bool.eqb_prop in Heq. now subst.
  - simpl in Heq. apply Z.eqb_eq in Heq. now subst.
  - simpl in Heq. apply float_same_eq in Heq. now subst.
  - simpl in Heq. apply String.eqb_eq in Heq. now subst.
  - rewrite wf_array in Ha, Hb. cbn [same_but_order] in Heq.
    assert (Hmap : forall l, map (encode l) items = map (encode l) items').
    { intros l. revert items' Hb Heq.
      induction items as [|x items IHi]; intros [|y items'] Hb Heq;
        try discriminate Heq; [reflexivity|].
      apply andb_prop in Heq as [Hxy Hrest]. cbn [map]. f_equal.
      - apply IH; [now left|apply Ha; now left|apply Hb; now left|exact Hxy].
      - apply IHi.
        + intros x' Hin. apply IH. now right.
        + intros x' Hin. apply Ha. now right.
        + intros x' Hin. apply Hb. now right.
        + exact Hrest. }
    destruct items as [|x items], items' as [|y items']; try discriminate Heq;
      [reflexivity|].
    cbn [encode]. now rewrite (Hmap (S level)).
  - rewrite wf_object in Ha, Hb. destruct Ha as [Hndx Ha], Hb as [Hndy Hb].
    rewrite same_but_order_object in Heq. apply andb_prop in Heq as [Hlen Hall].
    apply Nat.eqb_eq in Hlen. rewrite forallb_forall in Hall.
    assert (Hsort : sort_items (map (fun kv => (fst kv, encode (S level) (snd kv))) fields)
                    = sort_items (map (fun kv => (fst kv, encode (S level) (snd kv))) fields')).
    { apply sort_items_perm_eq.
      - apply items_perm; try assumption.
        intros k x Hin. specialize (Hall (k, x) Hin). cbn [fst snd] in Hall.
        destruct (dict_get k fields') as [y|] eqn:Hget; [|discriminate].
        exists y. split; [reflexivity|].
        apply (IH k x Hin); [now apply (Ha k)| |exact Hall].
        apply ResolverFacts.dict_get_In in Hget. now apply (Hb k).
      - rewrite map_map. exact Hndx. }
    destruct fields as [|kv fields], fields' as [|kv' fields']; try discriminate Hlen;
      [reflexivity|].
    cbn [encode]. now rewrite Hsort.
Qed.

End TextOrder.

(** ** The persisted document *)

Module PersistenceProperties.

Import Driver DriverFacts Traces DriverTraces DriverProperties.
Import Text TextFacts RoundTripFacts TextOrder.





Section WithExternals.

Context (E : Externals).

Lemma file_write_event params algo_input jsonfile sections :
  resolve E params = Ok sections ->
  snd (run_algorithm_to_json E params algo_input jsonfile [])
  = [EvFileWrite jsonfile
       (dumps (config_json (persisted_params E sections algo_input)))].
Proof.
  intros Hr. unfold run_algorithm_to_json, call, bind, lift, emit, ret.
  rewrite Hr. cbn [app].
  destruct (file_write E jsonfile _); reflexivity.
Qed.


(** X9.  The document that [run_algorithm_to_json] persists for an input
    artifact is self-contained.  When the resolver leaves it as it is, a
    later [run_algorithm] on it, without artifact, first rebuilds the input:
    [from_params] of the artifact's component on the converted property form
    without [name], and then proceeds as the run with the rebuilt
    artifact. *)
Theorem persisted_document_reruns
    (params : Config) (a : AlgorithmInput) (jsonfile : string)
    (json_output : bool) (backend : option PyObject) (sections : Config)
    (n : string) :
  resolve E params = Ok sections ->
  get_section_property sections ALGORITHM NAME = Some (JStr n) ->
  In n (local_algorithms E) ->
  let document := persisted_params E sections (Some a) in
  resolve E document = Ok document ->
  let input_params :=
    convert_json_to_dict E (dict_del NAME (convert_dict_to_json E (to_params a))) in
  let ev := EvFromParams (configuration_name a) input_params in
  snd (run_algorithm_to_json E params (Some a) jsonfile [])
  = [EvFileWrite jsonfile (dumps (config_json document))]
  /\ run_algorithm E document None json_output backend []
     = match from_params E (configuration_name a) input_params with
       | Err e => (Err e, [ev])
       | Ok a' =>
           let r := run_algorithm E document (Some a') json_output backend [] in
           (fst r, ev :: snd r)
       end.
Proof.
  intros Hr Hn Hreg document Hdoc input_params ev. split.
  - now apply file_write_event.
  - pose proof (run_from_input_section E document json_output backend document n
                  (configuration_name a) Hdoc) as Hrun.
    cbv zeta in Hrun.
    assert (Hsec : get_section document INPUT
                   = dict_set "name" (JStr (configuration_name a))
                       (convert_dict_to_json E (to_params a))).
    { unfold get_section, document, persisted_params, INPUT.
      now rewrite dict_get_set_same. }
    rewrite Hsec in Hrun. change NAME with "name" in Hrun.
    rewrite dict_del_set_same in Hrun. apply Hrun.
    + unfold get_section_property, document, persisted_params.
      rewrite dict_get_set_other by discriminate. exact Hn.
    + exact Hreg.
    + unfold get_section_property, document, persisted_params, INPUT, NAME.
      now rewrite !dict_get_set_same.
Qed.

(** X10.  Line 130 ([sort_keys=True]): the text that is written does not
    depend on the order of sections or properties.  Two documents that
    differ in nothing but the order of the keys of their dictionaries, at
    any level, are written as the same text. *)
Theorem persisted_text_ignores_key_order
    (params params' : Config) (algo_input algo_input' : option AlgorithmInput)
    (jsonfile : string) (sections sections' : Config) :
  resolve E params = Ok sections ->
  resolve E params' = Ok sections' ->
  let document := persisted_params E sections algo_input in
  let document' := persisted_params E sections' algo_input' in
  config_wf document ->
  config_wf document' ->
  same_but_order (config_json document) (config_json document') = true ->
  snd (run_algorithm_to_json E params algo_input jsonfile [])
  = snd (run_algorithm_to_json E params' algo_input' jsonfile []).
Proof.
  intros Hr Hr' document document' Hwf Hwf' Heq.
  rewrite (file_write_event _ _ _ _ Hr), (file_write_event _ _ _ _ Hr').
  fold document document'. unfold dumps.
  now rewrite (encode_same_but_order _ Hwf _ Hwf' Heq 0).
Qed.


End WithExternals.

Ltac sample_wf :=
  apply config_wf_iff; split;
  [repeat constructor; simpl; intuition discriminate
  |intros k d Hin; simpl in Hin;
   repeat match goal with
          | H : _ \/ _ |- _ => destruct H
          | H : (_, _) = (_, _) |- _ => injection H as <- <-
          | H : False |- _ => destruct H
          end;
   (split; [repeat constructor; simpl; intuition discriminate|simpl; tauto])].

Lemma qaoa_resolved_wf : config_wf Scenarios.qaoa_resolved.
Proof. sample_wf. Qed.

Lemma qaoa_reordered_wf : config_wf Scenarios.qaoa_reordered.
Proof. sample_wf. Qed.


Lemma persisted_document_reruns_witness :
  run_algorithm Scenarios.resolved
    (persisted_params Scenarios.resolved Scenarios.qaoa_resolved
       (Some Samples.an_input))
    None false None []
  = (Ok [("energy", JInt 0)],
     [EvFromParams "EnergyInput" [("qubit_op", JObj [("paulis", JArr [])])];
      EvInitParams "QAOA.Variational"
        (persisted_params Scenarios.resolved Scenarios.qaoa_resolved
           (Some Samples.an_input))
        (Some Samples.an_input);
      EvSetRandomSeed None;
      EvRun]).
Proof.
  apply (persisted_document_reruns Scenarios.resolved Scenarios.qaoa_resolved
           Samples.an_input "algorithm.json" false None Scenarios.qaoa_resolved
           "QAOA.Variational").
  - reflexivity.
  - reflexivity.
  - simpl. auto.
  - reflexivity.
Defined.

Lemma persisted_text_ignores_key_order_witness :
  Scenarios.qaoa_resolved <> Scenarios.qaoa_reordered
  /\ snd (run_algorithm_to_json Scenarios.resolved Scenarios.qaoa_resolved None
            "algorithm.json" [])
     = snd (run_algorithm_to_json Scenarios.resolved Scenarios.qaoa_reordered None
              "algorithm.json" []).
Proof.
  split; [discriminate|].
  apply (persisted_text_ignores_key_order Scenarios.resolved Scenarios.qaoa_resolved
           Scenarios.qaoa_reordered None None "algorithm.json"
           Scenarios.qaoa_resolved Scenarios.qaoa_reordered).
  - reflexivity.
  - reflexivity.
  - exact qaoa_resolved_wf.
  - exact qaoa_reordered_wf.
  - vm_compute. reflexivity.
Defined.



End PersistenceProperties.

(** ** The QAOA algorithm *)

Module QAOAProperties.

Import QAOA.

Ltac unfold_init :=
  cbv beta iota zeta delta
    [init_params __init__ and_then external returning raising] in *.

Ltac init_cases :=
  repeat (break_match; cbn [fst snd app] in *; try tauto; try discriminate;
          repeat match goal with
                 | H1 : ?x = _, H2 : ?x = _ |- _ => rewrite H1 in H2
                 | H : (_, _) = (_, _) |- _ => inversion H; subst; clear H
                 | H : Ok _ = Ok _ |- _ => inversion H; subst; clear H
                 | H : Some _ = Some _ |- _ => inversion H; subst; clear H
                 | H : Returns _ = Returns _ |- _ => inversion H; subst; clear H
                 end; try discriminate).

Section WithCollaborators.

Context {Operator AuxOps Optimizer VarForm Instance : Type}.
Context (KA KO : string).
Context (C : @Collaborators Operator AuxOps Optimizer VarForm Instance).

(** X12.  Lines 102-116: [init_params] fails before anything is constructed
    when the input is missing ([AquaError]), when the algorithm section is
    missing ([AttributeError]), when the optimizer section is missing
    ([TypeError]) or has no name ([KeyError]); the checks apply in this
    order. *)
Theorem init_params_fails_before_construction
    (params : Config) (algo_input : option (@EnergyInput Operator AuxOps)) :
  algo_input = None
  \/ dict_get KA params = None
  \/ dict_get KO params = None
  \/ (exists opt_params,
         dict_get KO params = Some opt_params /\ dict_get "name" opt_params = None) ->
  init_params KA KO C params algo_input []
  = (Raises match algo_input, dict_get KA params, dict_get KO params with
            | None, _, _ => AquaError "EnergyInput instance is required."
            | Some _, None, _ => AttributeError "get"
            | Some _, Some _, None => TypeError
            | Some _, Some _, Some _ => KeyError "name"
            end, []).
Proof.
  intros H. unfold init_params.
  destruct algo_input as [a|]; [|reflexivity].
  destruct (dict_get KA params) as [qaoa|]; [|reflexivity].
  destruct (dict_get KO params) as [opt|]; [|reflexivity].
  destruct H as [H|[H|[H|(opt' & Hopt & Hname)]]]; try discriminate.
  injection Hopt as <-. now rewrite Hname.
Qed.

(** X13.  Lines 107-116: of the configuration, [init_params] reads the
    optimizer section and, of the algorithm section, the properties that the
    schema of [QAOA.CONFIGURATION] declares, an absent one counting as null;
    no default is applied here.  Configurations that agree on these are
    indistinguishable. *)
Theorem init_params_reads_named_properties_only
    (params params' : Config) (algo_input : option (@EnergyInput Operator AuxOps))
    (qaoa_params qaoa_params' : Dict) (tr : list Call) :
  dict_get KA params = Some qaoa_params ->
  dict_get KA params' = Some qaoa_params' ->
  (forall k, In k (dict_keys (Resolver.s_properties Resolver.QAOA_input_schema)) ->
             py_get k qaoa_params = py_get k qaoa_params') ->
  dict_get KO params = dict_get KO params' ->
  init_params KA KO C params algo_input tr = init_params KA KO C params' algo_input tr.
Proof.
  intros Hq Hq' Hsame Ho. unfold init_params.
  rewrite Hq, Hq', <- Ho.
  rewrite <- (Hsame "operator_mode"), <- (Hsame "p"), <- (Hsame "initial_point"),
    <- (Hsame "batch_mode") by (cbv; auto 6).
  reflexivity.
Qed.

(** X14.  A construction that returns has called, in this order and once
    each, the optimizer's [init_params] on the whole optimizer section,
    [validate] on the constructor's arguments, [QAOAVarForm] on the operator
    and [p], and [VQE.__init__] on the operator, that variational form, that
    optimizer, [operator_mode] and [initial_point]; what is returned is the
    object so initialised. *)
Theorem successful_construction_calls_in_order
    (params : Config) (algo_input : option (@EnergyInput Operator AuxOps)) (instance : Instance) :
  fst (init_params KA KO C params algo_input []) = Returns instance ->
  exists a qaoa_params opt_params name optimizer var_form,
    algo_input = Some a
    /\ dict_get KA params = Some qaoa_params
    /\ dict_get KO params = Some opt_params
    /\ dict_get "name" opt_params = Some name
    /\ optimizer_init_params C name opt_params = Ok optimizer
    /\ QAOAVarForm C (qubit_op a) (py_get "p" qaoa_params) = Ok var_form
    /\ VQE_init C (qubit_op a) var_form optimizer
         (py_get "operator_mode" qaoa_params) (py_get "initial_point" qaoa_params)
       = Ok instance
    /\ snd (init_params KA KO C params algo_input [])
       = [EvOptimizerInitParams name opt_params;
          EvValidate
            (mkLocals (qubit_op a) optimizer (py_get "p" qaoa_params)
               (py_get "operator_mode" qaoa_params)
               (py_get "initial_point" qaoa_params)
               (py_get "batch_mode" qaoa_params) (aux_ops a));
          EvQAOAVarForm (qubit_op a) (py_get "p" qaoa_params);
          EvVQEInit (qubit_op a) var_form optimizer
            (py_get "operator_mode" qaoa_params)
            (py_get "initial_point" qaoa_params)].
Proof.
  intros Hok. unfold_init. init_cases.
  do 6 eexists. repeat split; try reflexivity; eassumption.
Qed.

(** X15.  Each step of the construction is only made after the one before it
    succeeded: arguments are validated only with an optimizer that was built,
    the variational form is built only from validated arguments, and
    [VQE.__init__] is only called with a variational form that was built. *)
Theorem failing_collaborator_stops_construction
    (params : Config) (algo_input : option (@EnergyInput Operator AuxOps)) :
  let out := init_params KA KO C params algo_input [] in
  (forall args,
      In (EvValidate args) (snd out) ->
      exists name opt_params,
        In (EvOptimizerInitParams name opt_params) (snd out)
        /\ optimizer_init_params C name opt_params = Ok (l_optimizer args))
  /\ (forall operator p,
         In (EvQAOAVarForm operator p) (snd out) ->
         exists args,
           In (EvValidate args) (snd out)
           /\ validate C args = Ok tt
           /\ l_operator args = operator /\ l_p args = p)
  /\ (forall operator var_form optimizer operator_mode initial_point,
         In (EvVQEInit operator var_form optimizer operator_mode initial_point)
            (snd out) ->
         exists p,
           In (EvQAOAVarForm operator p) (snd out)
           /\ QAOAVarForm C operator p = Ok var_form).
Proof.
  intros out. subst out. repeat split.
  - intros args Hin. unfold_init. init_cases;
      simpl in Hin; intuition (try discriminate);
      match goal with
      | H : EvValidate _ = EvValidate _ |- _ => injection H as <-
      end;
      do 2 eexists; (split; [simpl; left; reflexivity|]); simpl; assumption.
  - intros operator p Hin. unfold_init. init_cases;
      simpl in Hin; intuition (try discriminate);
      match goal with
      | H : EvQAOAVarForm _ _ = EvQAOAVarForm _ _ |- _ => injection H as <- <-
      end;
      eexists; (split; [simpl; right; left; reflexivity|]);
      repeat split;
      match goal with
      | H : validate _ _ = Ok ?u |- _ => destruct u; exact H
      end.
  - intros operator var_form optimizer operator_mode initial_point Hin.
    unfold_init. init_cases;
      simpl in Hin; intuition (try discriminate);
      match goal with
      | H : EvVQEInit _ _ _ _ _ = EvVQEInit _ _ _ _ _ |- _ =>
          injection H as <- <- <- <- <-
      end;
      eexists; (split; [simpl; right; right; left; reflexivity|]); assumption.
Qed.

(** X16.  Lines 88-91: [batch_mode] and [aux_operators] reach [validate]
    and nothing else.  Two constructions that differ only in them, both
    accepted by [validate], build the same variational form and initialise
    the same object. *)
Theorem batch_mode_and_aux_operators_are_dropped
    (operator : Operator) (optimizer : Optimizer)
    (p operator_mode initial_point batch_mode batch_mode' : json)
    (aux_operators aux_operators' : AuxOps) :
  validate C (mkLocals operator optimizer p operator_mode initial_point
                batch_mode aux_operators) = Ok tt ->
  validate C (mkLocals operator optimizer p operator_mode initial_point
                batch_mode' aux_operators') = Ok tt ->
  let out := __init__ C operator optimizer p operator_mode initial_point
               batch_mode aux_operators [] in
  let out' := __init__ C operator optimizer p operator_mode initial_point
                batch_mode' aux_operators' [] in
  fst out = fst out' /\ tl (snd out) = tl (snd out').
Proof.
  intros Hv Hv' out out'. subst out out'.
  unfold __init__, and_then, external. rewrite Hv, Hv'. cbn [app].
  destruct (QAOAVarForm C operator p); split; reflexivity.
Qed.

End WithCollaborators.

Lemma init_params_fails_before_construction_witness :
  init_params ALGORITHM OPTIMIZER Scenarios.builders
    [(ALGORITHM, [(NAME, JStr "QAOA.Variational")])]
    (Some Scenarios.an_energy_input) []
  = (Raises TypeError, []).
Proof.
  apply (init_params_fails_before_construction ALGORITHM OPTIMIZER Scenarios.builders
           [(ALGORITHM, [(NAME, JStr "QAOA.Variational")])]
           (Some Scenarios.an_energy_input)).
  right. right. left. reflexivity.
Defined.

Lemma init_params_reads_named_properties_only_witness :
  init_params ALGORITHM OPTIMIZER Scenarios.builders Scenarios.qaoa_resolved
    (Some Scenarios.an_energy_input) []
  = init_params ALGORITHM OPTIMIZER Scenarios.builders
      [(PROBLEM, [("random_seed", JInt 7)]);
       (ALGORITHM,
        [("p", JInt 1); ("operator_mode", JStr "matrix"); ("batch_mode", JBool false);
         ("shots", JInt 100)]);
       (OPTIMIZER,
        [(NAME, JStr "COBYLA"); ("maxiter", JInt 1000); ("disp", JBool false);
         ("rhobeg", JInt 1); ("tol", JNull)])]
      (Some Scenarios.an_energy_input) [].
Proof.
  apply (init_params_reads_named_properties_only ALGORITHM OPTIMIZER
           Scenarios.builders Scenarios.qaoa_resolved _ _
           [(NAME, JStr "QAOA.Variational"); ("operator_mode", JStr "matrix");
            ("p", JInt 1); ("initial_point", JNull); ("batch_mode", JBool false)]
           [("p", JInt 1); ("operator_mode", JStr "matrix");
            ("batch_mode", JBool false); ("shots", JInt 100)]).
  - reflexivity.
  - reflexivity.
  - intros k Hk. cbv in Hk.
    destruct Hk as [<-|[<-|[<-|[<-|[]]]]]; reflexivity.
  - reflexivity.
Defined.

Lemma successful_construction_calls_in_order_witness :
  exists optimizer var_form,
    snd (init_params ALGORITHM OPTIMIZER Scenarios.builders Scenarios.qaoa_resolved
           (Some Scenarios.an_energy_input) [])
    = [EvOptimizerInitParams (JStr "COBYLA")
         [(NAME, JStr "COBYLA"); ("maxiter", JInt 1000); ("disp", JBool false);
          ("rhobeg", JInt 1); ("tol", JNull)];
       EvValidate
         (mkLocals "ZZ" optimizer (JInt 1) (JStr "matrix") JNull (JBool false) "none");
       EvQAOAVarForm "ZZ" (JInt 1);
       EvVQEInit "ZZ" var_form optimizer (JStr "matrix") JNull].
Proof.
  destruct (successful_construction_calls_in_order ALGORITHM OPTIMIZER
              Scenarios.builders Scenarios.qaoa_resolved
              (Some Scenarios.an_energy_input) "VQE(ZZ,QAOAVarForm(ZZ),COBYLA)")
    as (a & qaoa_params & opt_params & name & optimizer & var_form
        & Ha & Hq & Ho & Hn & _ & _ & _ & Htrace).
  - reflexivity.
  - exists optimizer, var_form. rewrite Htrace.
    injection Ha as <-. injection Hq as <-. injection Ho as <-. injection Hn as <-.
    reflexivity.
Defined.

Lemma batch_mode_and_aux_operators_are_dropped_witness :
  fst (__init__ Scenarios.builders "ZZ" "COBYLA" (JInt 1) (JStr "matrix") JNull
         (JBool false) "none" [])
  = fst (__init__ Scenarios.builders "ZZ" "COBYLA" (JInt 1) (JStr "matrix") JNull
           (JBool true) "XX" []).
Proof.
  apply (batch_mode_and_aux_operators_are_dropped Scenarios.builders "ZZ" "COBYLA"
           (JInt 1) (JStr "matrix") JNull (JBool false) (JBool true) "none" "XX");
    reflexivity.
Defined.

End QAOAProperties.

(** ** The ISRES optimizer *)

Module ISRESProperties.

Import Optimizers.

(** X17.  Where [find_spec] answers, and finds no nlopt only if
    [import nlopt] fails, the check of the class can never report [False] to
    a caller: obtaining the class loads the module, which raises
    [ImportWarning] in exactly the situations in which the check would answer
    [False]. *)
Theorem availability_is_never_false (env : PyEnv) :
  (forall e, find_spec env "nlopt" <> Err e) ->
  (find_spec env "nlopt" = Ok None -> import_module env "nlopt" = Err ImportError) ->
  (forall b, availability env = Ok b -> b = true)
  /\ (check_pluggable_valid env = false ->
      availability env = Err (ImportWarning "nlopt cannot be imported")).
Proof.
  intros Hret Hcons. unfold availability, load_module, check_pluggable_valid.
  destruct (find_spec env "nlopt") as [[spec|]|e] eqn:Hspec.
  - split; [|discriminate]. intros b.
    destruct (import_module env "nlopt") as [|[]]; congruence.
  - rewrite (Hcons eq_refl). split; [discriminate|reflexivity].
  - now destruct (Hret e).
Qed.

Lemma availability_is_never_false_witness :
  availability Samples.with_nlopt = Ok true
  /\ availability Samples.no_nlopt = Err (ImportWarning "nlopt cannot be imported").
Proof.
  split; [reflexivity|].
  apply (availability_is_never_false Samples.no_nlopt).
  - discriminate.
  - reflexivity.
  - reflexivity.
Defined.

End ISRESProperties.

(** ** Characters of the persisted text *)

Module CharsetProperties.

Import Driver Text TextFacts Charset.

Lemma plain_app (s t : list ascii) :
  forallb plain s = true -> forallb plain t = true -> forallb plain (s ++ t) = true.
Proof. intros Hs Ht. rewrite forallb_app, Hs, Ht. reflexivity. Qed.

Lemma plain_encode_char (c : ascii) : forallb plain (encode_char c) = true.
Proof. destruct c as [[] [] [] [] [] [] [] []]; reflexivity. Qed.

Lemma plain_encode_basestring_ascii (s : string) :
  forallb plain (encode_basestring_ascii s) = true.
Proof.
  unfold encode_basestring_ascii. cbn [forallb].
  replace (plain QUOTE) with true by reflexivity. cbn [andb].
  apply plain_app; [|reflexivity].
  induction (list_ascii_of_string s) as [|c l IH]; [reflexivity|].
  cbn [flat_map]. apply plain_app; [apply plain_encode_char|exact IH].
Qed.

Lemma plain_uint_chars (d : Decimal.uint) : forallb plain (uint_chars d) = true.
Proof. induction d; simpl; auto. Qed.

Lemma plain_encode_int (z : Z) : forallb plain (encode_int z) = true.
Proof. destruct z; simpl; auto using plain_uint_chars. Qed.

Lemma plain_encode_float (x : PyFloat.Float) : forallb plain (encode_float x) = true.
Proof.
  destruct x as [|[]|negative integer frac exp]; try reflexivity.
  cbn [encode_float].
  apply plain_app; [now destruct negative|].
  apply plain_app; [apply plain_uint_chars|].
  apply plain_app.
  - destruct frac as [f|]; [|reflexivity]. cbn [forallb].
    replace (plain ".") with true by reflexivity. apply plain_uint_chars.
  - destruct exp as [[[] e]|]; [| |reflexivity]; cbn [exp_chars forallb];
      rewrite plain_uint_chars; reflexivity.
Qed.

Lemma plain_newline_indent (level : nat) : forallb plain (newline_indent level) = true.
Proof.
  unfold newline_indent. cbn [forallb].
  replace (plain NEWLINE) with true by reflexivity. cbn [andb].
  induction (4 * level) as [|n IH]; [reflexivity|]. simpl. exact IH.
Qed.

Lemma plain_join (sep : list ascii) (parts : list (list ascii)) :
  forallb plain sep = true ->
  (forall p, In p parts -> forallb plain p = true) ->
  forallb plain (join sep parts) = true.
Proof.
  intros Hsep. induction parts as [|p ps IH]; intros Hall; [reflexivity|].
  cbn [join]. destruct ps as [|q ps]; [apply Hall; now left|].
  apply plain_app; [apply Hall; now left|].
  apply plain_app; [exact Hsep|]. apply IH. intros r Hr. apply Hall. now right.
Qed.

(** Whatever the strings of a value are, its text is made of printable ASCII
    characters and line feeds. *)
Lemma plain_encode (v : json) : forall level, forallb plain (encode level v) = true.
Proof.
  induction v as [|b|z|x|s|items IH|fields IH] using json_induction; intros level.
  - reflexivity.
  - destruct b; reflexivity.
  - apply plain_encode_int.
  - apply plain_encode_float.
  - apply plain_encode_basestring_ascii.
  - cbn [encode]. destruct items as [|x items]; [reflexivity|].
    cbn [forallb]. replace (plain "[") with true by reflexivity. cbn [andb].
    apply plain_app; [apply plain_newline_indent|].
    apply plain_app; [|apply plain_app; [apply plain_newline_indent|reflexivity]].
    apply plain_join.
    + unfold item_separator. cbn [forallb].
      replace (plain ",") with true by reflexivity. apply plain_newline_indent.
    + intros p Hp. apply in_map_iff in Hp as (y & <- & Hy). now apply IH.
  - cbn [encode]. destruct fields as [|kv fields]; [reflexivity|].
    cbn [forallb]. replace (plain "{") with true by reflexivity. cbn [andb].
    apply plain_app; [apply plain_newline_indent|].
    apply plain_app; [|apply plain_app; [apply plain_newline_indent|reflexivity]].
    apply plain_join.
    + unfold item_separator. cbn [forallb].
      replace (plain ",") with true by reflexivity. apply plain_newline_indent.
    + intros p Hp. apply in_map_iff in Hp as ([k t] & <- & Hkt).
      apply (Permutation_in _ (sort_items_perm _)) in Hkt.
      apply in_map_iff in Hkt as ([k0 y] & Heq & Hy). cbn [fst snd] in Heq.
      injection Heq as <- <-.
      unfold encode_item. cbn [fst snd].
      apply plain_app; [apply plain_encode_basestring_ascii|].
      cbn [forallb]. replace (plain ":") with true by reflexivity.
      replace (plain " ") with true by reflexivity. cbn [andb].
      now apply (IH k0 y).
Qed.

(** X18.  Line 130 ([ensure_ascii] left at its default): whatever characters
    the strings of the configuration hold, the text that is written to the
    file named by [jsonfile] consists of printable ASCII characters and line
    feeds only. *)
Theorem persisted_text_is_plain_ascii
    (E : Externals) (params : Config) (algo_input : option AlgorithmInput)
    (jsonfile file : string) (text : list ascii) :
  In (EvFileWrite file text)
     (snd (run_algorithm_to_json E params algo_input jsonfile [])) ->
  file = jsonfile /\ forallb plain text = true.
Proof.
  unfold run_algorithm_to_json, call, bind, lift, emit, ret.
  destruct (resolve E params) as [sections|e]; cbn [app fst snd]; [|intros []].
  destruct (file_write E jsonfile _); cbn [snd]; intros [[= <- <-]|[]];
    (split; [reflexivity|apply plain_encode]).
Qed.

Lemma persisted_text_is_plain_ascii_witness :
  forallb plain (dumps (config_json Scenarios.qaoa_with_note)) = true.
Proof.
  apply (persisted_text_is_plain_ascii Scenarios.resolved Scenarios.qaoa_with_note
           None "algorithm.json" "algorithm.json"
           (dumps (config_json Scenarios.qaoa_with_note))).
  left. reflexivity.
Defined.

End CharsetProperties.
